(** * ChromeVolumeControl: the background coordinator (background.ts)

    A shallow embedding of the background script of the extension: the
    validators, the two volume mappings, the per-tab delivery queue with
    its retry sweep, the tab lifecycle listeners and the message router,
    followed by the properties of the specification that concern them.

    Modelling conventions.
    - A JavaScript number is a [jsnum]: NaN, the two infinities, or a
      finite value kept as a canonical rational.  The script never does
      arithmetic on volumes or tab ids, it only compares and copies them,
      and comparison of doubles agrees with comparison of the rationals
      they denote.  Timestamps ([Date.now()]) and retry counters are
      integers and are kept in [Z].
    - A dynamically typed value ([any]) is a [jsval].
    - [TabVolumeData] objects are shared by reference between the two
      mappings, timers and local variables, and are mutated in place
      ([volumeData.hasAudio = ...], [volumeData.tabUrl = ...]).  They
      therefore live in a [heap] and the mappings hold locations.
    - Every function of the script is a computation in the monad [M]:
      it threads the module state and accumulates the calls made to the
      platform ([Effect]), in order.
    - A platform call that takes a callback is recorded as in flight
      ([Pending]); the callback runs in a later turn of the event loop,
      as a [Callback] event carrying what the platform passes to it. *)

From Stdlib Require Import QArith Qcanon ZArith Ascii String.
From stdpp Require Import gmap strings list fin_maps numbers.
From stdpp Require pretty.

Local Open Scope Z_scope.

(* ================================================================== *)
(** * JavaScript values *)
(* ================================================================== *)

Inductive jsnum :=
| NaN
| PosInf
| NegInf
| Fin (q : Qc).

Global Instance jsnum_eq_dec : EqDecision jsnum.
Proof. solve_decision. Defined.

Global Instance jsnum_countable : Countable jsnum.
Proof.
  refine (inj_countable'
    (λ n, match n with
          | NaN => inl 0%nat | PosInf => inl 1%nat | NegInf => inl 2%nat
          | Fin q => inr q
          end)
    (λ s, match s with
          | inl 0%nat => NaN | inl 1%nat => PosInf | inl _ => NegInf
          | inr q => Fin q
          end) _).
  by intros [].
Defined.

(** The number denoted by an integer literal. *)
Definition num (z : Z) : jsnum := Fin (Q2Qc (inject_Z z)).

Definition isNaN (n : jsnum) : bool :=
  match n with NaN => true | _ => false end.

(** [a < b] and [a <= b] on numbers; every comparison with NaN is false. *)
Definition num_lt (a b : jsnum) : bool :=
  match a, b with
  | NaN, _ | _, NaN => false
  | Fin x, Fin y => bool_decide (x < y)%Qc
  | NegInf, NegInf => false
  | NegInf, _ => true
  | PosInf, _ => false
  | Fin _, PosInf => true
  | Fin _, NegInf => false
  end.

Definition num_le (a b : jsnum) : bool :=
  match a, b with
  | NaN, _ | _, NaN => false
  | Fin x, Fin y => bool_decide (x ≤ y)%Qc
  | NegInf, _ => true
  | _, PosInf => true
  | PosInf, _ => false
  | Fin _, NegInf => false
  end.

#[warnings="-register-all"]
Inductive jsval :=
| JUndefined
| JNull
| JBool (b : bool)
| JNum (n : jsnum)
| JStr (s : string)
| JObj (fields : list (string * jsval)).

(** Truthiness: [undefined], [null], [false], [0], [NaN] and the empty
    string are falsy. *)
Definition truthy_num (n : jsnum) : bool :=
  match n with
  | NaN => false
  | Fin q => negb (bool_decide (q = 0%Qc))
  | _ => true
  end.

Definition truthy_str (s : string) : bool :=
  negb (String.eqb s "").

Definition truthy (v : jsval) : bool :=
  match v with
  | JUndefined | JNull => false
  | JBool b => b
  | JNum n => truthy_num n
  | JStr s => truthy_str s
  | JObj _ => true
  end.

(** An optional property of a typed object ([string | undefined],
    [number | undefined], [boolean | undefined]) used as a condition. *)
Definition truthy_opt {A} (t : A → bool) (o : option A) : bool :=
  match o with Some a => t a | None => false end.

Definition typeof (v : jsval) : string :=
  match v with
  | JUndefined => "undefined"
  | JNull => "object"
  | JBool _ => "boolean"
  | JNum _ => "number"
  | JStr _ => "string"
  | JObj _ => "object"
  end.

Fixpoint assoc (k : string) (fields : list (string * jsval)) : jsval :=
  match fields with
  | [] => JUndefined
  | (k', v) :: rest => if String.eqb k k' then v else assoc k rest
  end.

(** Property read [v.k]; only ever evaluated on objects. *)
Definition prop (v : jsval) (k : string) : jsval :=
  match v with
  | JObj fields => assoc k fields
  | _ => JUndefined
  end.

Definition is_undefined (v : jsval) : bool :=
  match v with JUndefined => true | _ => false end.

(** [v === "s"] *)
Definition is_string (v : jsval) (s : string) : bool :=
  match v with JStr s' => String.eqb s' s | _ => false end.

(** The typed reading of a field once it has been validated. *)
Definition as_num (v : jsval) : jsnum :=
  match v with JNum n => n | _ => NaN end.

Definition opt_num (v : jsval) : option jsnum :=
  match v with JNum n => Some n | _ => None end.

Definition opt_bool (v : jsval) : option bool :=
  match v with JBool b => Some b | _ => None end.

Definition opt_str (v : jsval) : option string :=
  match v with JStr s => Some s | _ => None end.

(* ================================================================== *)
(** * String helpers of the hydration loop *)
(* ================================================================== *)

Definition startsWith (s pat : string) : bool := String.prefix pat s.

Fixpoint drop_chars (n : nat) (s : string) : string :=
  match n, s with
  | S n', String _ s' => drop_chars n' s'
  | _, _ => s
  end.

(** [s.replace(pat, "")]: removes the first occurrence of [pat]. *)
Fixpoint remove_first (pat : string) (s : string) : string :=
  if String.prefix pat s then drop_chars (String.length pat) s
  else match s with
       | EmptyString => EmptyString
       | String c s' => String c (remove_first pat s')
       end.

Definition is_space (c : ascii) : bool :=
  let n := nat_of_ascii c in
  ((9 <=? n) && (n <=? 13))%nat || (n =? 32)%nat.

Fixpoint skip_spaces (s : string) : string :=
  match s with
  | String c s' => if is_space c then skip_spaces s' else s
  | EmptyString => s
  end.

Definition digit_val (radix : Z) (c : ascii) : option Z :=
  let n := Z.of_nat (nat_of_ascii c) in
  let d := if (48 <=? n) && (n <=? 57) then Some (n - 48)
           else if (97 <=? n) && (n <=? 122) then Some (n - 87)
           else if (65 <=? n) && (n <=? 90) then Some (n - 55)
           else None in
  match d with
  | Some v => if v <? radix then Some v else None
  | None => None
  end.

Fixpoint parse_digits (radix : Z) (s : string) (acc : option Z) : option Z :=
  match s with
  | EmptyString => acc
  | String c s' =>
      match digit_val radix c with
      | Some d => parse_digits radix s' (Some (default 0 acc * radix + d))
      | None => acc
      end
  end.

(** [parseInt(s)] without a radix argument: leading white space, an
    optional sign, an optional [0x] prefix selecting base 16, then the
    longest run of digits; NaN when there is none.  Numbers are exact
    here: the value is what JavaScript computes as long as it stays
    below 2^53, beyond which JavaScript rounds to a double; and of the
    white space JavaScript skips, strings of this model hold the ASCII
    characters only. *)
Definition parseInt (s : string) : jsnum :=
  let s1 := skip_spaces s in
  let '(neg, s2) :=
    match s1 with
    | String "-" r => (true, r)
    | String "+" r => (false, r)
    | _ => (false, s1)
    end in
  let '(radix, s3) :=
    match s2 with
    | String "0" (String "x" r) | String "0" (String "X" r) => (16, r)
    | _ => (10, s2)
    end in
  match parse_digits radix s3 None with
  | Some z => num (if neg : bool then - z else z)
  | None => NaN
  end.

(* ================================================================== *)
(** * Data model *)
(* ================================================================== *)

Definition MAX_RETRIES : Z := 3.
Definition MAX_QUEUE_SIZE : nat := 50.

Record TabVolumeData := mkTabVolumeData {
  volume : jsnum;
  previousVolume : jsnum;
  muted : bool;
  hasAudio : bool;
  isPlaying : option bool;
  tabUrl : option string;
}.

Definition set_hasAudio (b : bool) (d : TabVolumeData) : TabVolumeData :=
  mkTabVolumeData (volume d) (previousVolume d) (muted d) b
                  (isPlaying d) (tabUrl d).

Definition set_tabUrl (u : string) (d : TabVolumeData) : TabVolumeData :=
  mkTabVolumeData (volume d) (previousVolume d) (muted d) (hasAudio d)
                  (isPlaying d) (Some u).

(** The command object built by [applyVolumeToTab]. *)
Module Cmd.
Record t := mk {
  action : string;
  volume : jsnum;
  muted : bool;
  previousVolume : jsnum;
}.
End Cmd.

(** An entry of a delivery queue. *)
Module Item.
Record t := mk {
  message : Cmd.t;
  retryCount : Z;
  time : Z;
}.
End Item.

(** A [chrome.tabs.Tab], reduced to the properties the script reads. *)
Module Tab.
Record t := mk {
  id : option jsnum;
  url : option string;
  audible : option bool;
}.
End Tab.

Record ChangeInfo := mkChangeInfo {
  ci_status : option string;
  ci_audible : option bool;
  ci_url : option string;
}.

Record Sender := mkSender {
  sender_id : option string;
  sender_tab : option Tab.t;
}.

Definition loc := positive.

Record State := mkState {
  audibleTabs : gset jsnum;
  messageQueues : gmap jsnum (list Item.t);
  heap : gmap loc TabVolumeData;
  tabVolumeSettings : gmap jsnum loc;
  urlVolumeSettings : gmap string loc;
}.

Definition initial : State := mkState ∅ ∅ ∅ ∅ ∅.

(** Keys of [chrome.storage.local] as the script writes them:
    [`tab-volume-${tabId}`] and [`url-volume-${tabUrl}`]. *)
Inductive StorageKey :=
| TabKey (tabId : jsnum)
| UrlKey (tabUrl : string).

Inductive Response :=
| Success                                   (* {success: true} *)
| Failure (error : string)                  (* {success: false, error} *)
| AudioStatus (volume : jsnum) (muted : bool) (previousVolume : jsnum)
| Tabs (tabs : list (Tab.t * TabVolumeData)). (* {tabs: [{...tab, volumeData}]} *)

Inductive Level := LogInfo | LogWarn | LogError.

(** Platform calls whose callback re-enters the script. *)
Inductive Pending :=
| PStorageGet
| PTabsSendMessage (tabId : jsnum) (message : Cmd.t) (retryCount : Z)
| PTabsGet (tabId : jsnum) (reqVolume : option jsnum) (reqMuted : option bool)
           (reqPreviousVolume : option jsnum)
| PTabsQuery
| PTimeoutProcess (tabId : jsnum)
| PTimeoutApply (tabId : jsnum) (volumeData : loc).

Inductive Effect :=
| Call (p : Pending)
| StorageSet (key : StorageKey) (value : TabVolumeData)
| RuntimeSendMessage (tabId : jsnum) (audible : bool) (tab : Tab.t)
| SendResponse (r : Response)
| Console (level : Level) (text : string).

(* ================================================================== *)
(** * The state-and-output monad *)
(* ================================================================== *)

Record Res (A : Type) := mkRes {
  val : A;
  state : State;
  effs : list Effect;
}.
Arguments mkRes {A} _ _ _.
Arguments val {A} _.
Arguments state {A} _.
Arguments effs {A} _.

Definition M (A : Type) : Type := State → Res A.

Definition ret {A} (a : A) : M A := λ s, mkRes a s [].

Definition bind {A B} (c : M A) (k : A → M B) : M B :=
  λ s, let r1 := c s in
       let r2 := k (val r1) (state r1) in
       mkRes (val r2) (state r2) (effs r1 ++ effs r2).

Notation "'do' x <- c ; k" := (bind c (λ x, k))
  (at level 10, x name, c at level 100, k at level 200).
Notation "c ;; k" := (bind c (λ _, k))
  (at level 100, k at level 200, right associativity).

Definition emit (e : Effect) : M unit := λ s, mkRes tt s [e].
Definition gets {A} (f : State → A) : M A := λ s, mkRes (f s) s [].
Definition modify (f : State → State) : M unit := λ s, mkRes tt (f s) [].
Definition skip : M unit := ret tt.

Definition console (lv : Level) (text : string) : M unit :=
  emit (Console lv text).

Fixpoint forEach {A} (l : list A) (f : A → M unit) : M unit :=
  match l with
  | [] => skip
  | x :: rest => f x ;; forEach rest f
  end.

(** State updates, one per mutated module variable. *)
Definition with_audibleTabs (f : gset jsnum → gset jsnum) (s : State) : State :=
  mkState (f (audibleTabs s)) (messageQueues s) (heap s)
          (tabVolumeSettings s) (urlVolumeSettings s).

Definition with_messageQueues
    (f : gmap jsnum (list Item.t) → gmap jsnum (list Item.t)) (s : State) : State :=
  mkState (audibleTabs s) (f (messageQueues s)) (heap s)
          (tabVolumeSettings s) (urlVolumeSettings s).

Definition with_heap
    (f : gmap loc TabVolumeData → gmap loc TabVolumeData) (s : State) : State :=
  mkState (audibleTabs s) (messageQueues s) (f (heap s))
          (tabVolumeSettings s) (urlVolumeSettings s).

Definition with_tabVolumeSettings
    (f : gmap jsnum loc → gmap jsnum loc) (s : State) : State :=
  mkState (audibleTabs s) (messageQueues s) (heap s)
          (f (tabVolumeSettings s)) (urlVolumeSettings s).

Definition with_urlVolumeSettings
    (f : gmap string loc → gmap string loc) (s : State) : State :=
  mkState (audibleTabs s) (messageQueues s) (heap s)
          (tabVolumeSettings s) (f (urlVolumeSettings s)).

(** Objects on the heap: allocation of a fresh object, read, and
    in-place update of the object at a location. *)
Global Instance TabVolumeData_inhabited : Inhabited TabVolumeData :=
  populate (mkTabVolumeData (num 100) (num 100) false true None None).

Definition alloc (d : TabVolumeData) : M loc :=
  λ s, let l := fresh (dom (heap s)) in
       mkRes l (with_heap (insert l d) s) [].

Definition read (l : loc) : M TabVolumeData :=
  gets (λ s, heap s !!! l).

Definition write (l : loc) (f : TabVolumeData → TabVolumeData) : M unit :=
  modify (with_heap (λ h, <[l := f (h !!! l)]> h)).

Definition respond (r : Response) : M unit := emit (SendResponse r).

(* ================================================================== *)
(** * Validators and the state cache *)
(* ================================================================== *)

Definition isValidVolume (v : jsval) : bool :=
  match v with
  | JNum n => negb (isNaN n) && num_le (num 0) n && num_le n (num 100)
  | _ => false
  end.

Definition isValidTabId (tabId : jsval) : bool :=
  match tabId with
  | JNum n => negb (isNaN n) && num_lt (num 0) n
  | _ => false
  end.

Definition getDefaultVolumeData : TabVolumeData :=
  {| volume := num 100;
     previousVolume := num 100;
     muted := false;
     hasAudio := true;
     isPlaying := None;
     tabUrl := None |}.

Definition validateVolumeData (data : jsval) : TabVolumeData :=
  let defaultData := getDefaultVolumeData in
  if negb (truthy data) || negb (String.eqb (typeof data) "object") then
    defaultData
  else
    {| volume := if isValidVolume (prop data "volume")
                 then as_num (prop data "volume")
                 else volume defaultData;
       previousVolume := if isValidVolume (prop data "previousVolume")
                         then as_num (prop data "previousVolume")
                         else previousVolume defaultData;
       muted := match prop data "muted" with
                | JBool b => b
                | _ => muted defaultData
                end;
       hasAudio := match prop data "hasAudio" with
                   | JBool b => b
                   | _ => hasAudio defaultData
                   end;
       isPlaying := opt_bool (prop data "isPlaying");
       tabUrl := opt_str (prop data "tabUrl") |}.

(** [chrome.storage.local.set] serialises its argument when it is
    called, so the effect carries the value the object has at that
    moment.  (Its callback only logs and is not modelled.) *)
Definition saveTabVolume (tabId : jsnum) (volumeData : loc)
    (url : option string) : M unit :=
  if negb (isValidTabId (JNum tabId)) then
    console LogError "Invalid tabId for saving:"
  else
    do d <- read volumeData;
    emit (StorageSet (TabKey tabId) d);;
    match url with
    | Some u =>
        if truthy_str u then
          write volumeData (set_tabUrl u);;
          do d' <- read volumeData;
          emit (StorageSet (UrlKey u) d');;
          modify (with_urlVolumeSettings (insert u volumeData))
        else skip
    | None => skip
    end.

(** [tabUrl && urlVolumeSettings.has(tabUrl)], then [.get(tabUrl)]. *)
Definition url_entry (urls : gmap string loc) (url : option string) : option loc :=
  match url with
  | Some u => if truthy_str u then urls !! u else None
  | None => None
  end.

Definition getVolumeDataForTab (tabId : jsnum) (url : option string) : M loc :=
  if negb (isValidTabId (JNum tabId)) then
    console LogWarn "Invalid tabId in getVolumeDataForTab:";;
    alloc getDefaultVolumeData
  else
    do tabs <- gets tabVolumeSettings;
    match tabs !! tabId with
    | Some data => ret data
    | None =>
        do urls <- gets urlVolumeSettings;
        match url_entry urls url with
        | Some data =>
            modify (with_tabVolumeSettings (insert tabId data));;
            saveTabVolume tabId data url;;
            ret data
        | None => alloc getDefaultVolumeData
        end
    end.

(* ================================================================== *)
(** * Delivery queue *)
(* ================================================================== *)

Definition sendMessageToTab (tabId : jsnum) (message : Cmd.t)
    (retryCount : Z) : M unit :=
  if negb (isValidTabId (JNum tabId)) then
    console LogError "Invalid tabId for sending message:"
  else if negb (truthy_str (Cmd.action message)) then
    console LogError "Invalid message format:"
  else if MAX_RETRIES <=? retryCount then
    console LogInfo "Max retries reached, giving up."
  else
    emit (Call (PTabsSendMessage tabId message retryCount)).

(** The callback handed to [chrome.tabs.sendMessage]; [lastError] tells
    whether [chrome.runtime.lastError] is set, [now] is [Date.now()]. *)
Definition sendMessageCallback (tabId : jsnum) (message : Cmd.t)
    (retryCount : Z) (lastError : bool) (now : Z) : M unit :=
  if lastError then
    console LogInfo "Error sending message to tab";;
    do qs <- gets messageQueues;
    (if bool_decide (is_Some (qs !! tabId)) then skip
     else modify (with_messageQueues (insert tabId [])));;
    do qs <- gets messageQueues;
    let queue := qs !!! tabId in
    if (length queue <? MAX_QUEUE_SIZE)%nat then
      modify (with_messageQueues
                (insert tabId (queue ++ [Item.mk message (retryCount + 1) now])))
    else
      console LogWarn "Message queue overflow for tab"
  else
    console LogInfo "Message sent successfully to tab".

(** The function passed to [messagesToProcess.forEach] in
    [processMessageQueue]; [currentTime] is captured from its scope. *)
Definition processItem (tabId : jsnum) (currentTime : Z) (item : Item.t) : M unit :=
  if negb (truthy_str (Cmd.action (Item.message item))) then
    console LogError "Invalid queued message:"
  else if (1000 <=? currentTime - Item.time item)
          && (currentTime - Item.time item <? 60000) then
    sendMessageToTab tabId (Item.message item) (Item.retryCount item)
  else if currentTime - Item.time item <? 1000 then
    do qs <- gets messageQueues;
    let currentQueue := qs !!! tabId in
    if (length currentQueue <? MAX_QUEUE_SIZE)%nat then
      modify (with_messageQueues (insert tabId (currentQueue ++ [item])))
    else
      console LogWarn "Message queue overflow for tab"
  else
    console LogWarn "Discarding old message for tab".

Definition processMessageQueue (tabId : jsnum) (now : Z) : M unit :=
  do qs <- gets messageQueues;
  if negb (isValidTabId (JNum tabId)) || negb (bool_decide (is_Some (qs !! tabId)))
  then skip
  else
    let queue := qs !!! tabId in
    if (length queue =? 0)%nat then skip
    else
      let currentTime := now in
      let messagesToProcess := take MAX_QUEUE_SIZE queue in
      modify (with_messageQueues (insert tabId []));;
      forEach messagesToProcess (processItem tabId currentTime).

(** The [setInterval] sweep.  [clock tabId] is the reading of
    [Date.now()] when the queue of [tabId] is processed.  A [Map] is
    visited in insertion order; the model visits the keys in the order
    of [elements], which differs only in how the sends to different tabs
    interleave. *)
Definition onInterval (clock : jsnum → Z) : M unit :=
  do qs <- gets messageQueues;
  forEach (elements (dom qs)) (λ tabId, processMessageQueue tabId (clock tabId)).

Definition applyVolumeToTab (tabId : jsnum) (volumeData : loc) : M unit :=
  if negb (isValidTabId (JNum tabId)) then
    console LogError "Invalid tabId for applying volume:"
  else
    do d <- read volumeData;
    let message :=
      {| Cmd.action := if muted d then "toggleMute" else "setVolume";
         Cmd.volume := volume d;
         Cmd.muted := muted d;
         Cmd.previousVolume := previousVolume d |} in
    sendMessageToTab tabId message 0.

(* ================================================================== *)
(** * Startup hydration *)
(* ================================================================== *)

(** Body of the [Object.keys(items).forEach] loop for one key. *)
Definition hydrateKey (key : string) (value : jsval) : M unit :=
  (if startsWith key "tab-volume-" then
     let tabId := parseInt (remove_first "tab-volume-" key) in
     if negb (isNaN tabId) && num_lt (num 0) tabId then
       do data <- alloc (validateVolumeData value);
       modify (with_tabVolumeSettings (insert tabId data))
     else skip
   else skip);;
  (if startsWith key "url-volume-" then
     let url := remove_first "url-volume-" key in
     if truthy_str url then
       do data <- alloc (validateVolumeData value);
       modify (with_urlVolumeSettings (insert url data))
     else skip
   else skip).

(** The callback of [chrome.storage.local.get(null, ...)]; [items] lists
    the stored entries in the order of [Object.keys]. *)
Definition onStorageLoaded (lastError : bool)
    (items : list (string * jsval)) : M unit :=
  if lastError then console LogError "Error loading storage:"
  else forEach items (λ kv, hydrateKey kv.1 kv.2).

(* ================================================================== *)
(** * Tab lifecycle listeners *)
(* ================================================================== *)

Definition onUpdated (tabId : jsnum) (changeInfo : ChangeInfo)
    (tab : Tab.t) : M unit :=
  if negb (isValidTabId (JNum tabId)) then skip
  else
    (if bool_decide (ci_status changeInfo = Some "complete"%string) then
       emit (Call (PTimeoutProcess tabId))
     else skip);;
    (match ci_audible changeInfo with
     | Some audible =>
         console LogInfo "Tab audible:";;
         (if audible then
            modify (with_audibleTabs (λ a, {[tabId]} ∪ a));;
            do volumeData <- getVolumeDataForTab tabId (Tab.url tab);
            write volumeData (set_hasAudio true);;
            modify (with_tabVolumeSettings (insert tabId volumeData));;
            saveTabVolume tabId volumeData (Tab.url tab);;
            emit (Call (PTimeoutApply tabId volumeData))
          else
            modify (with_audibleTabs (λ a, a ∖ {[tabId]})));;
         emit (RuntimeSendMessage tabId audible tab)
     | None => skip
     end);;
    (if truthy_opt truthy_str (ci_url changeInfo)
        && truthy_opt truthy_num (Tab.id tab) then
       let newUrl := default ""%string (ci_url changeInfo) in
       let tab_id := default NaN (Tab.id tab) in
       do urls <- gets urlVolumeSettings;
       match urls !! newUrl with
       | Some volumeData =>
           modify (with_tabVolumeSettings (insert tab_id volumeData));;
           (if truthy_opt (λ b : bool, b) (Tab.audible tab) then
              emit (Call (PTimeoutApply tab_id volumeData))
            else skip)
       | None => skip
       end
     else skip).

Definition onRemoved (tabId : jsnum) : M unit :=
  if negb (isValidTabId (JNum tabId)) then skip
  else
    modify (with_audibleTabs (λ a, a ∖ {[tabId]}));;
    modify (with_tabVolumeSettings (delete tabId));;
    modify (with_messageQueues (delete tabId)).

(* ================================================================== *)
(** * Request router *)
(* ================================================================== *)

(** [sender.tab?.id] *)
Definition sender_tab_id (sender : Sender) : option jsnum :=
  match sender_tab sender with
  | Some tab => Tab.id tab
  | None => None
  end.

Definition sender_tab_url (sender : Sender) : option string :=
  match sender_tab sender with
  | Some tab => Tab.url tab
  | None => None
  end.

(** The callback of [chrome.tabs.get] in the [updateTabVolume] branch,
    closed over the validated fields of the request.  [result] is the
    error message of [chrome.runtime.lastError] or the tab. *)
Definition tabsGetCallback (tabId : jsnum) (reqVolume : option jsnum)
    (reqMuted : option bool) (reqPreviousVolume : option jsnum)
    (result : string + Tab.t) : M unit :=
  match result with
  | inl err =>
      console LogError "Error getting tab info:";;
      respond (Failure err)
  | inr tab =>
      do data <- getVolumeDataForTab tabId (Tab.url tab);
      do volumeData <- read data;
      do newVolumeData <- alloc
        {| volume := default (volume volumeData) reqVolume;
           muted := default (muted volumeData) reqMuted;
           previousVolume := default (previousVolume volumeData) reqPreviousVolume;
           hasAudio := true;
           isPlaying := isPlaying volumeData;
           tabUrl := tabUrl volumeData |};
      modify (with_tabVolumeSettings (insert tabId newVolumeData));;
      saveTabVolume tabId newVolumeData (Tab.url tab);;
      applyVolumeToTab tabId newVolumeData;;
      respond Success
  end.

Fixpoint mapM {A B} (f : A → M B) (l : list A) : M (list B) :=
  match l with
  | [] => ret []
  | x :: rest => do y <- f x; do ys <- mapM f rest; ret (y :: ys)
  end.

(** The callback of [chrome.tabs.query] in the [getAudibleTabs] branch.
    The response is serialised when [sendResponse] is called, after all
    lookups have run.  (The set [trackedTabIds] built before the query is
    never read and is left out.) *)
Definition tabsQueryCallback (tabs : list Tab.t) : M unit :=
  do s <- gets (λ s, s);
  let relevantTabs :=
    List.filter (λ tab,
      truthy_opt truthy_num (Tab.id tab)
      && isValidTabId (JNum (default NaN (Tab.id tab)))
      && (bool_decide (default NaN (Tab.id tab) ∈ audibleTabs s)
          || match tabVolumeSettings s !! default NaN (Tab.id tab) with
             | Some data => hasAudio (heap s !!! data)
             | None => false
             end
          || (truthy_opt truthy_str (Tab.url tab)
              && bool_decide (is_Some (urlVolumeSettings s
                                         !! default ""%string (Tab.url tab))))))
      tabs in
  do tabsWithVolume <- mapM (λ tab,
      do volumeData <- getVolumeDataForTab (default NaN (Tab.id tab)) (Tab.url tab);
      ret (tab, volumeData)) relevantTabs;
  do h <- gets heap;
  respond (Tabs (map (λ tv : Tab.t * loc, (tv.1, h !!! tv.2)) tabsWithVolume)).

Section Router.

(** [chrome.runtime.id], the extension's own identity. *)
Variable runtime_id : string.

(** The [try] block of the listener.  [Some b] is [return b] from
    inside the block; [None] means control left the block at its end
    or through the [catch] clause, which does not return.  [throws]
    is [Some e] when the platform call of this branch
    ([chrome.tabs.query], [chrome.tabs.get]) throws on its arguments,
    [e] being [String(e)]. *)
Definition dispatch (message : jsval) (sender : Sender)
    (throws : option string) (now : Z) : M (option bool) :=
  let action := prop message "action" in
  let catch e :=
    console LogError "Error handling message:";;
    respond (Failure e);;
    ret None in
  if is_string action "contentScriptReady"
     && truthy_opt truthy_num (sender_tab_id sender) then
    let tabId := default NaN (sender_tab_id sender) in
    if negb (isValidTabId (JNum tabId)) then
      console LogError "Invalid tabId in contentScriptReady:";;
      respond (Failure "Invalid tabId");;
      ret (Some true)
    else
      console LogInfo "Content script ready in tab";;
      processMessageQueue tabId now;;
      respond Success;;
      ret (Some true)
  else if is_string action "getAudibleTabs" then
    match throws with
    | Some e => catch e
    | None => emit (Call PTabsQuery);; ret (Some true)
    end
  else if is_string action "updateTabVolume" then
    let tabId := prop message "tabId" in
    let reqVolume := prop message "volume" in
    let reqMuted := prop message "muted" in
    let reqPreviousVolume := prop message "previousVolume" in
    if negb (isValidTabId tabId) then
      console LogError "Invalid tabId in updateTabVolume:";;
      respond (Failure "Invalid tabId");;
      ret (Some true)
    else if negb (is_undefined reqVolume) && negb (isValidVolume reqVolume) then
      console LogError "Invalid volume in updateTabVolume:";;
      respond (Failure "Invalid volume");;
      ret (Some true)
    else if negb (is_undefined reqPreviousVolume)
            && negb (isValidVolume reqPreviousVolume) then
      console LogError "Invalid previousVolume in updateTabVolume:";;
      respond (Failure "Invalid previousVolume");;
      ret (Some true)
    else if negb (is_undefined reqMuted)
            && negb (String.eqb (typeof reqMuted) "boolean") then
      console LogError "Invalid muted state in updateTabVolume:";;
      respond (Failure "Invalid muted state");;
      ret (Some true)
    else
      match throws with
      | Some e => catch e
      | None =>
          emit (Call (PTabsGet (as_num tabId) (opt_num reqVolume)
                               (opt_bool reqMuted) (opt_num reqPreviousVolume)));;
          ret (Some true)
      end
  else if is_string action "getAudioStatus"
          && truthy_opt truthy_num (sender_tab_id sender) then
    let tabId := default NaN (sender_tab_id sender) in
    if negb (isValidTabId (JNum tabId)) then
      console LogError "Invalid tabId in getAudioStatus:";;
      respond (Failure "Invalid tabId");;
      ret (Some true)
    else
      let url := sender_tab_url sender in
      do data <- getVolumeDataForTab tabId url;
      do volumeData <- read data;
      respond (AudioStatus (volume volumeData) (muted volumeData)
                           (previousVolume volumeData));;
      ret (Some true)
  else if is_string action "updateTabStatus"
          && truthy_opt truthy_num (sender_tab_id sender) then
    let tabId := default NaN (sender_tab_id sender) in
    if negb (isValidTabId (JNum tabId)) then
      console LogError "Invalid tabId in updateTabStatus:";;
      respond (Failure "Invalid tabId");;
      ret (Some true)
    else
      let url := sender_tab_url sender in
      match prop message "hasAudio" with
      | JBool b =>
          do volumeData <- getVolumeDataForTab tabId url;
          write volumeData (set_hasAudio b);;
          modify (with_tabVolumeSettings (insert tabId volumeData));;
          saveTabVolume tabId volumeData url;;
          respond Success;;
          ret (Some true)
      | _ =>
          console LogError "Invalid hasAudio value:";;
          respond (Failure "Invalid hasAudio value");;
          ret (Some true)
      end
  else ret None.

(** The [chrome.runtime.onMessage] listener; its value is what the
    listener returns to the platform. *)
Definition onMessage (message : jsval) (sender : Sender)
    (throws : option string) (now : Z) : M bool :=
  if truthy_opt truthy_str (sender_id sender)
     && negb (bool_decide (sender_id sender = Some runtime_id)) then
    console LogError "Message from unauthorized source:";;
    ret false
  else if negb (truthy message)
          || negb (String.eqb (typeof message) "object")
          || negb (truthy (prop message "action")) then
    console LogError "Invalid message format:";;
    ret false
  else
    do r <- dispatch message sender throws now;
    match r with
    | Some b => ret b
    | None =>
        respond (Failure "Unknown action");;
        ret true
    end.

End Router.

(* ================================================================== *)
(** * The event loop *)
(* ================================================================== *)

(** What the platform passes to a callback when it runs it. *)
Inductive Reply :=
| Loaded (lastError : bool) (items : list (string * jsval))
| SendDone (lastError : bool) (now : Z)
| GotTab (result : string + Tab.t)
| GotTabs (tabs : list Tab.t)
| Fired (now : Z).

Definition runCallback (p : Pending) (r : Reply) : option (M unit) :=
  match p, r with
  | PStorageGet, Loaded lastError items =>
      Some (onStorageLoaded lastError items)
  | PTabsSendMessage tabId message retryCount, SendDone lastError now =>
      Some (sendMessageCallback tabId message retryCount lastError now)
  | PTabsGet tabId v m pv, GotTab result =>
      Some (tabsGetCallback tabId v m pv result)
  | PTabsQuery, GotTabs tabs =>
      Some (tabsQueryCallback tabs)
  | PTimeoutProcess tabId, Fired now =>
      Some (processMessageQueue tabId now)
  | PTimeoutApply tabId volumeData, Fired _ =>
      Some (applyVolumeToTab tabId volumeData)
  | _, _ => None
  end.

Inductive Event :=
| Updated (tabId : jsnum) (changeInfo : ChangeInfo) (tab : Tab.t)
| Removed (tabId : jsnum)
| Message (message : jsval) (sender : Sender) (throws : option string) (now : Z)
| Interval (clock : jsnum → Z)
| Callback (i : nat) (reply : Reply).

(** The script's state together with the platform calls in flight. *)
Record Sys := mkSys {
  prog : State;
  inflight : list Pending;
}.

(** After the top-level code has run: empty mappings, and the storage
    read issued. *)
Definition boot : Sys := mkSys initial [PStorageGet].

Definition calls (es : list Effect) : list Pending :=
  omap (λ e, match e with Call p => Some p | _ => None end) es.

Definition responses (es : list Effect) : list Response :=
  omap (λ e, match e with SendResponse r => Some r | _ => None end) es.

Definition writes (es : list Effect) : list (StorageKey * TabVolumeData) :=
  omap (λ e, match e with StorageSet k v => Some (k, v) | _ => None end) es.

Definition sent (es : list Effect) : list (jsnum * Cmd.t * Z) :=
  omap (λ e, match e with
             | Call (PTabsSendMessage t m rc) => Some (t, m, rc)
             | _ => None
             end) es.

Definition warnings (es : list Effect) : list string :=
  omap (λ e, match e with Console LogWarn t => Some t | _ => None end) es.

Section Loop.

Variable runtime_id : string.

Definition step (sys : Sys) (ev : Event) : option (Sys * list Effect) :=
  let finish {A} (old : list Pending) (r : Res A) :=
    Some (mkSys (state r) (old ++ calls (effs r)), effs r) in
  match ev with
  | Updated tabId changeInfo tab =>
      finish (inflight sys) (onUpdated tabId changeInfo tab (prog sys))
  | Removed tabId =>
      finish (inflight sys) (onRemoved tabId (prog sys))
  | Message message sender throws now =>
      finish (inflight sys)
             (onMessage runtime_id message sender throws now (prog sys))
  | Interval clock =>
      finish (inflight sys) (onInterval clock (prog sys))
  | Callback i reply =>
      match inflight sys !! i with
      | Some p =>
          match runCallback p reply with
          | Some c => finish (delete i (inflight sys)) (c (prog sys))
          | None => None
          end
      | None => None
      end
  end.

(** Runs a list of events from a state, collecting everything sent to
    the platform. *)
Fixpoint run (sys : Sys) (evs : list Event) : option (Sys * list Effect) :=
  match evs with
  | [] => Some (sys, [])
  | ev :: rest =>
      match step sys ev with
      | Some (sys1, es1) =>
          match run sys1 rest with
          | Some (sys2, es2) => Some (sys2, es1 ++ es2)
          | None => None
          end
      | None => None
      end
  end.

Inductive reachable : Sys → Prop :=
| reach_boot : reachable boot
| reach_step sys ev sys' es :
    reachable sys → step sys ev = Some (sys', es) → reachable sys'.

End Loop.

(* ================================================================== *)
(** * Predicates used in the statements *)
(* ================================================================== *)

(** A number that lies in the closed interval [0, 100]. *)
Definition in_range (n : jsnum) : Prop :=
  ∃ q : Qc, n = Fin q ∧ (0 ≤ q)%Qc ∧ (q ≤ Q2Qc 100)%Qc.

Definition valid_record (d : TabVolumeData) : Prop :=
  in_range (volume d) ∧ in_range (previousVolume d).

Definition heap_ok (h : gmap loc TabVolumeData) : Prop :=
  ∀ l d, h !! l = Some d → valid_record d.

Definition queues_ok (qs : gmap jsnum (list Item.t)) : Prop :=
  ∀ tabId q, qs !! tabId = Some q → (length q ≤ MAX_QUEUE_SIZE)%nat.

(** The shape of the commands built by [applyVolumeToTab]. *)
Definition good_cmd (m : Cmd.t) : Prop :=
  Cmd.action m = if Cmd.muted m then "toggleMute"%string else "setVolume"%string.

Definition queues_wf (qs : gmap jsnum (list Item.t)) : Prop :=
  ∀ tabId q, qs !! tabId = Some q → Forall (λ i, good_cmd (Item.message i)) q.

(** Every location a mapping holds is an object of the heap. *)
Definition allocated {K} `{Countable K}
    (h : gmap loc TabVolumeData) (m : gmap K loc) : Prop :=
  ∀ k l, m !! k = Some l → is_Some (h !! l).

Definition Inv (s : State) : Prop :=
  heap_ok (heap s) ∧ queues_ok (messageQueues s) ∧ queues_wf (messageQueues s)
  ∧ allocated (heap s) (tabVolumeSettings s)
  ∧ allocated (heap s) (urlVolumeSettings s).

Definition opt_in_range (o : option jsnum) : Prop :=
  match o with Some n => in_range n | None => True end.

(** The values a callback is closed over come from validated input. *)
Definition good_pending (p : Pending) : Prop :=
  match p with
  | PTabsGet _ v _ pv => opt_in_range v ∧ opt_in_range pv
  | PTabsSendMessage _ m _ => good_cmd m
  | _ => True
  end.

Definition is_response (e : Effect) : bool :=
  match e with SendResponse _ => true | _ => false end.

(** Effects of the functions below the router: they never answer a
    request, and what they leave in flight is well formed. *)
Definition quiet (e : Effect) : Prop :=
  is_response e = false ∧
  match e with Call p => good_pending p | _ => True end.

Definition good_effect (e : Effect) : Prop :=
  match e with Call p => good_pending p | _ => True end.

(** Callbacks that hold the [sendResponse] of a request. *)
Definition is_responder (p : Pending) : bool :=
  match p with
  | PTabsGet _ _ _ _ | PTabsQuery => true
  | _ => false
  end.

Definition responders (es : list Effect) : list Pending :=
  List.filter is_responder (calls es).

(** [wp E c Q s]: run from [s], the computation [c] ends in a value and
    a state satisfying [Q], having produced only effects in [E]. *)
Definition wp {A} (E : Effect → Prop) (c : M A)
    (Q : A → State → Prop) (s : State) : Prop :=
  Q (val (c s)) (state (c s)) ∧ Forall E (effs (c s)).

(** The invariant of the event loop. *)
Definition SysInv (sys : Sys) : Prop :=
  Inv (prog sys) ∧ Forall good_pending (inflight sys).

(** The sender and shape checks at the entry of the listener. *)
Definition authorized (runtime_id : string) (sender : Sender) : Prop :=
  sender_id sender = None ∨ sender_id sender = Some ""%string
  ∨ sender_id sender = Some runtime_id.

Definition well_formed (message : jsval) : Prop :=
  ∃ fields, message = JObj fields ∧ truthy (assoc "action" fields) = true.

Definition storage_only (e : Effect) : Prop :=
  match e with StorageSet _ _ | Console _ _ => True | _ => False end.

(** Effects that neither answer a request nor keep its [sendResponse]
    for later. *)
Definition silent (e : Effect) : Prop :=
  match e with
  | SendResponse _ => False
  | Call p => is_responder p = false
  | _ => True
  end.

(** Responses made, plus responses promised to a callback. *)
Definition answers (es : list Effect) : nat :=
  length (responses es) + length (responders es).

(** The record built by the [updateTabVolume] callback from the record
    [old] returned by the cache. *)
Definition merged (old : TabVolumeData) (v : option jsnum) (m : option bool)
    (pv : option jsnum) : TabVolumeData :=
  {| volume := default (volume old) v;
     previousVolume := default (previousVolume old) pv;
     muted := default (muted old) m;
     hasAudio := true;
     isPlaying := isPlaying old;
     tabUrl := tabUrl old |}.

(** The five actions of the router's table. *)
Definition recognized (action : jsval) : bool :=
  is_string action "contentScriptReady"
  || is_string action "getAudibleTabs"
  || is_string action "updateTabVolume"
  || is_string action "getAudioStatus"
  || is_string action "updateTabStatus".

(** The three actions that identify the tab by the sender. *)
Definition sender_scoped (action : jsval) : bool :=
  is_string action "contentScriptReady"
  || is_string action "getAudioStatus"
  || is_string action "updateTabStatus".

Definition no_promise (e : Effect) : Prop :=
  match e with Call p => is_responder p = false | _ => True end.

(** The router answered [{success: false, error: reason}] at once and
    touched neither the state nor the store. *)
Definition rejected (r : Res bool) (s : State) (reason : string) : Prop :=
  val r = true ∧ responses (effs r) = [Failure reason] ∧ calls (effs r) = []
  ∧ writes (effs r) = [] ∧ state r = s.

(** Effects whose sends, if any, go to the tab [t]. *)
Definition sends_only_to (t : jsnum) (e : Effect) : Prop :=
  match e with
  | Call (PTabsSendMessage t' _ _) => t' = t
  | _ => True
  end.

(** The commands handed to [chrome.tabs.sendMessage] for tab [t]. *)
Definition sent_to (t : jsnum) (es : list Effect) : list (jsnum * Cmd.t * Z) :=
  List.filter (λ x, bool_decide (x.1.1 = t)) (sent es).

(* ================================================================== *)
(** * Concrete inputs of the examples *)
(* ================================================================== *)

Definition ext_id : string := "volume-controller".

(** The popup, and the content script of tab [n] showing [u]. *)
Definition popup : Sender := mkSender (Some ext_id) None.

Definition page (n : Z) (u : string) : Tab.t :=
  Tab.mk (Some (num n)) (Some u) (Some true).

Definition content_script (n : Z) (u : string) : Sender :=
  mkSender (Some ext_id) (Some (page n u)).

Definition request (action : string) (fields : list (string * jsval)) : jsval :=
  JObj (("action"%string, JStr action) :: fields).

Definition started_audio : ChangeInfo := mkChangeInfo None (Some true) None.

(** The state reached from [boot] by a list of events. *)
Definition after (evs : list Event) : Sys :=
  match run ext_id boot evs with
  | Some (sys, _) => sys
  | None => boot
  end.

(** Tab 42 starts playing; the command sent after the settling delay
    fails three times in a row, at 0 s, 2 s and 4 s. *)
Definition three_failures : list Event :=
  [ Callback 0 (Loaded false []);
    Updated (num 42) started_audio (page 42 "https://a.example/");
    Callback 0 (Fired 0);
    Callback 0 (SendDone true 0);
    Interval (λ _, 2000);
    Callback 0 (SendDone true 2000);
    Interval (λ _, 4000);
    Callback 0 (SendDone true 4000) ].

(** Tab 42 starts playing [n] times over and each command fails. *)
Definition failures (n : nat) : list Event :=
  Callback 0 (Loaded false [])
  :: concat (replicate n
       [ Updated (num 42) started_audio (page 42 "https://a.example/");
         Callback 0 (Fired 0);
         Callback 0 (SendDone true 0) ]).

Definition muted_record : TabVolumeData :=
  {| volume := num 0; previousVolume := num 80; muted := true;
     hasAudio := true; isPlaying := None; tabUrl := None |}.

(** A state with one muted record, held by tab 42. *)
Definition one_record : State :=
  mkState ∅ ∅ {[ 1%positive := muted_record ]} {[ num 42 := 1%positive ]} ∅.

(** Another extension. *)
Definition stranger : Sender := mkSender (Some "another-extension"%string) None.

Definition tabId_42 : string * jsval := ("tabId"%string, JNum (num 42)).

(** The popup sets the volume of tab 42 to zero, without a [muted]
    field, on a fresh coordinator. *)
Definition zero_volume : list Event :=
  [ Callback 0 (Loaded false []);
    Message (request "updateTabVolume" [tabId_42; ("volume"%string, JNum (num 0))])
            popup None 0;
    Callback 0 (GotTab (inr (page 42 "https://a.example/"))) ].

(** The content script of tab 42 reports that the page has no audio;
    then the popup sets the volume to 50. *)
Definition no_audio : list Event :=
  [ Callback 0 (Loaded false []);
    Message (request "updateTabStatus" [("hasAudio"%string, JBool false)])
            (content_script 42 "https://a.example/") None 0 ].

Definition then_volume_50 : list Event :=
  [ Message (request "updateTabVolume" [tabId_42; ("volume"%string, JNum (num 50))])
            popup None 0;
    Callback 0 (GotTab (inr (page 42 "https://a.example/"))) ].

(** The popup sets the volume to 80; a second request carries a valid
    volume together with an out-of-range [previousVolume]. *)
Definition volume_80 : list Event :=
  [ Callback 0 (Loaded false []);
    Message (request "updateTabVolume" [tabId_42; ("volume"%string, JNum (num 80))])
            popup None 0;
    Callback 0 (GotTab (inr (page 42 "https://a.example/"))) ].

Definition half_valid : jsval :=
  request "updateTabVolume"
          [tabId_42; ("volume"%string, JNum (num 50));
           ("previousVolume"%string, JNum (num 200))].

(** The record the tab mapping of a state holds for tab 42. *)
Definition record_42 (s : State) : option TabVolumeData :=
  match tabVolumeSettings s !! num 42 with
  | Some l => Some (heap s !!! l)
  | None => None
  end.

Definition quiet_record : TabVolumeData :=
  {| volume := num 30; previousVolume := num 30; muted := false;
     hasAudio := true; isPlaying := None;
     tabUrl := Some "https://a.example/"%string |}.

(** A state that knows one page address and no tab. *)
Definition address_only : State :=
  mkState ∅ ∅ {[ 1%positive := quiet_record ]} ∅
          {[ "https://a.example/"%string := 1%positive ]}.

(** A stored entry with an out-of-range volume. *)
Definition garbled : jsval :=
  JObj [("volume"%string, JNum (num 500)); ("muted"%string, JBool true)].

Definition legacy_items : list (string * jsval) :=
  [ ("tab-volume-42"%string, garbled);
    ("url-volume-https://a.example/"%string, JStr "junk") ].

(* ================================================================== *)
(** * Keys of the address mapping *)
(* ================================================================== *)

(** The empty string is not a key of the address mapping: both places
    that write to it, [saveTabVolume] and the startup load, test the
    address for truthiness first. *)
Definition addresses_nonempty (s : State) : Prop :=
  urlVolumeSettings s !! ""%string = None.

(** The warning logged by the guard at the head of
    [getVolumeDataForTab]. *)
Definition lookup_guard_warning : string :=
  "Invalid tabId in getVolumeDataForTab:".

(** A [chrome.tabs.get] in flight was asked for a valid tab id: its
    callback is the one caller that looks a tab up without testing the
    id itself. *)
Definition guarded_pending (p : Pending) : Prop :=
  match p with
  | PTabsGet tabId _ _ _ => isValidTabId (JNum tabId) = true
  | _ => True
  end.

(** What a step does when every lookup it makes has a valid tab id. *)
Definition guarded (e : Effect) : Prop :=
  match e with
  | Console _ text => text ≠ lookup_guard_warning
  | Call p => guarded_pending p
  | _ => True
  end.

(** Tab 42 is given a volume on a page and then closed: its address
    keeps the record, no tab does. *)
Definition closed_after_volume_80 : list Event :=
  volume_80 ++ [Removed (num 42)].

(* ================================================================== *)
(** * Predicates of the delivery invariant *)
(* ================================================================== *)

(** A command whose two volumes lie in [0, 100]. *)
Definition cmd_in_range (m : Cmd.t) : Prop :=
  in_range (Cmd.volume m) ∧ in_range (Cmd.previousVolume m).

(** A send in flight: to a valid tab, tried fewer than [MAX_RETRIES]
    times so far, with in-range volumes. *)
Definition delivery_ok (p : Pending) : Prop :=
  match p with
  | PTabsSendMessage t m rc =>
      isValidTabId (JNum t) = true ∧ 0 ≤ rc < MAX_RETRIES ∧ cmd_in_range m
  | _ => True
  end.

(** A queued entry: failed between one and [MAX_RETRIES] times. *)
Definition item_ok (i : Item.t) : Prop :=
  1 ≤ Item.retryCount i ≤ MAX_RETRIES ∧ cmd_in_range (Item.message i).

Definition queue_counts_ok (qs : gmap jsnum (list Item.t)) : Prop :=
  ∀ t q, qs !! t = Some q → isValidTabId (JNum t) = true ∧ Forall item_ok q.

Definition sound_pending (p : Pending) : Prop := good_pending p ∧ delivery_ok p.

(** What the script persists: an in-range record, under the key of a
    valid tab id or of a non-empty address that the record itself
    carries. *)
Definition write_ok (k : StorageKey) (d : TabVolumeData) : Prop :=
  valid_record d ∧
  match k with
  | TabKey t => isValidTabId (JNum t) = true
  | UrlKey u => u ≠ ""%string ∧ tabUrl d = Some u
  end.

(** What the script answers: levels in [0, 100], and in a tab list
    only tabs with a valid id. *)
Definition response_ok (r : Response) : Prop :=
  match r with
  | AudioStatus v _ pv => in_range v ∧ in_range pv
  | Tabs l =>
      Forall (λ tv : Tab.t * TabVolumeData,
                isValidTabId (JNum (default NaN (Tab.id tv.1))) = true
                ∧ valid_record tv.2) l
  | _ => True
  end.

Definition sound_effect (e : Effect) : Prop :=
  match e with
  | Call p => sound_pending p
  | StorageSet k d => write_ok k d
  | SendResponse r => response_ok r
  | _ => True
  end.

Definition Sound (s : State) : Prop :=
  Inv s ∧ queue_counts_ok (messageQueues s).

Definition SysSound (sys : Sys) : Prop :=
  Sound (prog sys) ∧ Forall sound_pending (inflight sys).

(* ================================================================== *)
(** * Predicates of the footprint analysis *)
(* ================================================================== *)

(** The three levels of a record: what the page is told to play. *)
Definition same_levels (d d' : TabVolumeData) : Prop :=
  volume d' = volume d ∧ previousVolume d' = previousVolume d
  ∧ muted d' = muted d.

(** [extends T A s0 s]: going from [s0] to [s], a tab outside [T] keeps
    the object it is bound to, no tab and no address is forgotten, no
    object is dropped and no object changes its levels; [A] is the set
    of audible tabs of [s]. *)
Definition extends (T : jsnum → Prop) (A : gset jsnum) (s0 s : State) : Prop :=
  (∀ t l, ¬ T t → tabVolumeSettings s0 !! t = Some l →
          tabVolumeSettings s !! t = Some l)
  ∧ (∀ t, is_Some (tabVolumeSettings s0 !! t) → is_Some (tabVolumeSettings s !! t))
  ∧ (∀ u, is_Some (urlVolumeSettings s0 !! u) → is_Some (urlVolumeSettings s !! u))
  ∧ (∀ l d, heap s0 !! l = Some d → ∃ d', heap s !! l = Some d' ∧ same_levels d d')
  ∧ audibleTabs s = A.

Definition any_effect (e : Effect) : Prop := True.

(** The tabs an event may bind to another object, or unbind. *)
Definition rebinds (sys : Sys) (ev : Event) (t : jsnum) : Prop :=
  match ev with
  | Updated _ _ tab => Tab.id tab = Some t
  | Removed tabId => tabId = t
  | Callback i _ =>
      match inflight sys !! i with
      | Some (PTabsGet tabId _ _ _) => tabId = t
      | Some PStorageGet => True
      | _ => False
      end
  | _ => False
  end.

(** The tabs whose audible flag an event may change. *)
Definition retunes (ev : Event) (t : jsnum) : Prop :=
  match ev with
  | Updated tabId _ _ | Removed tabId => tabId = t
  | _ => False
  end.

(** The audible tabs after [onUpdated] has handled a change. *)
Definition audible_after (tabId : jsnum) (changeInfo : ChangeInfo)
    (A : gset jsnum) : gset jsnum :=
  if isValidTabId (JNum tabId) then
    match ci_audible changeInfo with
    | Some true => {[tabId]} ∪ A
    | Some false => A ∖ {[tabId]}
    | None => A
    end
  else A.

(** Every audible tab is a valid tab that has a record. *)
Definition audible_ok (s : State) : Prop :=
  ∀ t, t ∈ audibleTabs s →
    isValidTabId (JNum t) = true ∧ is_Some (tabVolumeSettings s !! t).

(** After the popup has set tab 42 to 80, it asks for volume 10 on tab
    7, which shows the same page. *)
Definition second_tab : list Event :=
  volume_80 ++
  [ Message (request "updateTabVolume"
               [("tabId"%string, JNum (num 7)); ("volume"%string, JNum (num 10))])
            popup None 0 ].

Definition record_80 : TabVolumeData :=
  {| volume := num 80; previousVolume := num 100; muted := false;
     hasAudio := true; isPlaying := None;
     tabUrl := Some "https://a.example/"%string |}.

(** The command [applyVolumeToTab] builds from a record. *)
Definition command_of (d : TabVolumeData) : Cmd.t :=
  {| Cmd.action := if muted d then "toggleMute" else "setVolume";
     Cmd.volume := volume d;
     Cmd.muted := muted d;
     Cmd.previousVolume := previousVolume d |}.

(** Two tabs start playing the same page, one after the other. *)
Definition shared_page : list Event :=
  [ Callback 0 (Loaded false []);
    Updated (num 42) started_audio (page 42 "https://a.example/");
    Updated (num 7) started_audio (page 7 "https://a.example/") ].

(* ================================================================== *)
(** * The store across sessions *)
(* ================================================================== *)

(** What [chrome.storage.local] hands back for a record it was given:
    an object with the four mandatory properties, and the two optional
    ones when they are defined. *)
Definition stored (d : TabVolumeData) : jsval :=
  JObj ([ ("volume"%string, JNum (volume d));
          ("previousVolume"%string, JNum (previousVolume d));
          ("muted"%string, JBool (muted d));
          ("hasAudio"%string, JBool (hasAudio d)) ]
        ++ match isPlaying d with
           | Some b => [("isPlaying"%string, JBool b)]
           | None => []
           end
        ++ match tabUrl d with
           | Some u => [("tabUrl"%string, JStr u)]
           | None => []
           end).

(** [Number.MAX_SAFE_INTEGER], 2^53 - 1: up to it every integer is a
    number of its own. *)
Definition MAX_SAFE_INTEGER : Z := 9007199254740991.

(** [`${n}`] for a positive safe integer: its decimal digits.  The
    conversion of other numbers is not modelled: a fraction is printed
    with a point, an integer above [MAX_SAFE_INTEGER] with the shortest
    digits that read back as the same double, and from 10^21 on in
    exponent form (["1e+21"]). *)
Definition template_num (n : jsnum) : option string :=
  match n with
  | Fin q =>
      if bool_decide (Qden q = 1%positive) && (0 <? Qnum q)
         && (Qnum q <=? MAX_SAFE_INTEGER)
      then Some (pretty.pretty (Z.to_N (Qnum q)))
      else None
  | _ => None
  end.

(** The key strings built by [saveTabVolume]. *)
Definition storage_key (k : StorageKey) : option string :=
  match k with
  | TabKey t => String.append "tab-volume-" <$> template_num t
  | UrlKey u => Some (String.append "url-volume-" u)
  end.

(** A string of decimal digits followed by [s]. *)
Definition digits_string (ds : list N) (s : string) : string :=
  foldr (λ d acc, String (pretty.pretty_N_char d) acc) s ds.

Definition digits_value (ds : list N) : N :=
  foldl (λ a d, a * 10 + d)%N 0%N ds.

(* ================================================================== *)
(** * The content script (content-script.ts) *)
(* ================================================================== *)

(** The script injected into every page: it routes the media elements
    of the page through one gain node and obeys the commands of the
    popup and of the coordinator.

    Modelling conventions.
    - The page and the platform are read through an environment
      ([Page]) that is given with every event: the elements found by
      [document.querySelectorAll("audio, video")], their [paused]
      flags, whether [new AudioContext()] succeeds, and whether
      [chrome.runtime] is there.
    - A media element is known by its identity ([media_id]); the DOM
      never lists one element twice.
    - The gain is the only place where the script computes with a
      volume ([volumePercent / 100]); the quotient is kept unevaluated
      as [Percent volumePercent]. *)
Module Content.

Inductive Gain :=
| Unity                       (* 1.0 *)
| Percent (volumePercent : jsnum).   (* volumePercent / 100 *)

Record Media := mkMedia {
  media_id : nat;
  media_src : string;           (* el.src *)
  media_attached : bool;        (* document.contains(el) *)
  media_connects : bool;        (* createMediaElementSource(el) does not throw *)
}.

Record Page := mkPage {
  media : list Media;
  paused : nat → bool;
  context_available : bool;
  runtime_available : bool;
}.

Record State := mkState {
  audioContext : bool;          (* audioContext !== null *)
  gainNode : option Gain;       (* gainNode?.gain.value *)
  mediaElements : list nat;
  currentVolume : jsnum;
}.

Definition initial : State := mkState false None [] (num 100).

Inductive Reply :=
| AudioStatus (hasAudio : bool) (volume : jsnum) (isPlaying : bool)
| Done                              (* {success: true} *)
| VolumeSet (volume : jsnum)        (* {success: true, volume} *)
| Playing (isPlaying : bool)        (* {success: true, isPlaying} *)
| Failed (error : string).          (* {success: false, error} *)

Inductive Effect :=
| Log (level : Level) (text : string)
| Notify (message : jsval)          (* chrome.runtime.sendMessage(message, ...) *)
| Respond (r : Reply)               (* sendResponse(r) *)
| Connect (el : nat)                (* source.connect(gainNode) *)
| Play (el : nat)                   (* el.play(), a promise now pending *)
| Pause (el : nat)
| Observe                           (* observer.observe(document.body, ...) *)
| SetTimeout                        (* setTimeout(requestInitialVolume, 500) *)
| SetInterval.                      (* setInterval(findAndConnectAudio, 5000) *)

(** A step of the script: the new state and what it did, in order. *)
Definition Run : Type := State * list Effect.

Definition andThen (r : Run) (f : State → Run) : Run :=
  let '(s1, es1) := r in
  let '(s2, es2) := f s1 in
  (s2, es1 ++ es2).

Notation "r >>> f" := (andThen r f) (at level 50, left associativity).

Definition log (lv : Level) (text : string) (s : State) : Run :=
  (s, [Log lv text]).

Definition isValidVolume (value : jsval) : bool :=
  match value with
  | JNum n => negb (isNaN n) && num_le (num 0) n && num_le n (num 100)
  | _ => false
  end.

Definition setVolume (volumePercent : jsval) (s : State) : Run :=
  if negb (isValidVolume volumePercent) then
    log LogError "Invalid volume value:" s
  else
    match gainNode s with
    | None =>
        (mkState (audioContext s) (gainNode s) (mediaElements s)
                 (as_num volumePercent), [])
    | Some _ =>
        (mkState (audioContext s) (Some (Percent (as_num volumePercent)))
                 (mediaElements s) (as_num volumePercent),
         [Log LogInfo "Volume set to"])
    end.

(** [new AudioContext()] is the one call of the block that can throw;
    when it does, nothing has been assigned yet. *)
Definition initAudio (page : Page) (s : State) : Run :=
  if audioContext s then (s, [])
  else if context_available page then
    setVolume (JNum (currentVolume s))
      (mkState true (Some Unity) (mediaElements s) (currentVolume s))
    >>> log LogInfo "Audio context initialized"
  else
    log LogError "Error initializing AudioContext:" s.

Definition safelyNotifyBackgroundScript (page : Page) (action : string)
    (data : list (string * jsval)) (s : State) : Run :=
  if runtime_available page then
    (s, [Notify (JObj (("action"%string, JStr action) :: data))])
  else (s, []).

(** The body of [newElements.forEach]. *)
Definition connectElement (element : Media) (s : State) : Run :=
  if negb (media_attached element) then
    log LogWarn "Element not in DOM:" s
  else if media_connects element then
    (mkState (audioContext s) (gainNode s)
             (mediaElements s ++ [media_id element]) (currentVolume s),
     [Connect (media_id element);
      Log LogInfo "Connected audio element to gain node"])
  else
    log LogError "Error connecting audio element:" s.

Fixpoint forEach {A} (l : list A) (f : A → State → Run) (s : State) : Run :=
  match l with
  | [] => (s, [])
  | x :: rest => f x s >>> forEach rest f
  end.

Definition includes (l : list nat) (el : Media) : bool :=
  bool_decide (media_id el ∈ l).

Definition findAndConnectAudio (page : Page) (s : State) : Run :=
  if negb (audioContext s) || negb (bool_decide (is_Some (gainNode s))) then (s, [])
  else
    let audioElements := media page in
    let newElements :=
      List.filter (λ el, negb (includes (mediaElements s) el)
                         && negb (String.eqb (media_src el) ""))
                  audioElements in
    forEach newElements connectElement s
    >>> (λ s', if (0 <? length newElements)%nat then
                 safelyNotifyBackgroundScript page "updateTabStatus"
                   [("hasAudio"%string, JBool true)] s'
               else (s', [])).

(** The callback of the mutation observer; [childList] tells, for each
    mutation of the batch, whether its type is ["childList"]. *)
Definition onMutations (page : Page) (childList : list bool) (s : State) : Run :=
  let hasNewMedia :=
    fold_left (λ acc (isChildList : bool),
                 if isChildList
                 then existsb (λ el, negb (includes (mediaElements s) el)) (media page)
                 else acc)
              childList false in
  if hasNewMedia then findAndConnectAudio page s else (s, []).

Definition requestInitialVolume (page : Page) (s : State) : Run :=
  if runtime_available page then
    (s, [Notify (JObj [("action"%string, JStr "getAudioStatus")])])
  else (s, []).

(** The callback of the request sent by [requestInitialVolume]. *)
Definition onInitialVolume (lastError : bool) (response : jsval) (s : State) : Run :=
  if lastError then log LogError "Error requesting volume:" s
  else if truthy response && isValidVolume (prop response "volume") then
    setVolume (prop response "volume") s
    >>> log LogInfo "Applied volume settings:"
  else (s, []).

Section Listener.

(** [chrome.runtime.id] *)
Variable runtime_id : string.

(** The [chrome.runtime.onMessage] listener; the boolean is the value
    it returns. *)
Definition onMessage (page : Page) (request : jsval) (sender_id : option string)
    (s : State) : bool * Run :=
  if truthy_opt truthy_str sender_id
     && negb (bool_decide (sender_id = Some runtime_id)) then
    (false, log LogError "Message from unauthorized source:" s)
  else if negb (truthy request)
          || negb (String.eqb (typeof request) "object")
          || negb (truthy (prop request "action")) then
    (false, log LogError "Invalid message format:" s)
  else
    let action := prop request "action" in
    if is_string action "getAudioStatus" then
      (true,
       initAudio page s >>> findAndConnectAudio page >>> (λ s',
         let anyMediaPlaying :=
           existsb (λ el, negb (paused page el)) (mediaElements s') in
         (s', [Respond (AudioStatus (0 <? length (mediaElements s'))%nat
                                    (currentVolume s') anyMediaPlaying)])))
    else if is_string action "setVolume" then
      if negb (isValidVolume (prop request "volume")) then
        (true, (s, [Log LogError "Invalid volume in message:";
                    Respond (Failed "Invalid volume")]))
      else
        (true,
         initAudio page s >>> findAndConnectAudio page
         >>> setVolume (prop request "volume")
         >>> (λ s', (s', [Respond (VolumeSet (currentVolume s'))])))
    else if is_string action "toggleMute" then
      if negb (String.eqb (typeof (prop request "muted")) "boolean") then
        (true, (s, [Log LogError "Invalid muted state:";
                    Respond (Failed "Invalid muted state")]))
      else
        (true,
         initAudio page s >>> findAndConnectAudio page
         >>> (if truthy (prop request "muted") then
                setVolume (JNum (num 0))
              else
                let prevVol :=
                  if isValidVolume (prop request "previousVolume")
                  then prop request "previousVolume"
                  else JNum (num 100) in
                setVolume prevVol)
         >>> (λ s', (s', [Respond Done])))
    else if is_string action "playPauseAudio" then
      match media page with
      | mediaEl :: _ =>
          if paused page (media_id mediaEl) then
            (true, (s, [Play (media_id mediaEl)]))
          else
            (true, (s, [Pause (media_id mediaEl); Respond (Playing false)]))
      | [] =>
          (true, (s, [Respond (Failed "No valid media element found")]))
      end
    else
      (true, (s, [Log LogWarn "Unknown action:";
                  Respond (Failed "Unknown action")])).

End Listener.

(** The two continuations of the promise returned by [play()]. *)
Definition onPlaySettled (error : option string) (s : State) : Run :=
  match error with
  | None => (s, [Respond (Playing true)])
  | Some e => (s, [Log LogError "Error playing media:"; Respond (Failed e)])
  end.

Definition initialize (page : Page) (s : State) : Run :=
  initAudio page s
  >>> findAndConnectAudio page
  >>> (λ s', (s', [Observe]))
  >>> (λ s', safelyNotifyBackgroundScript page "contentScriptReady" [] s')
  >>> (λ s', (s', [SetTimeout; SetInterval])).

Inductive Event :=
| Message (request : jsval) (sender_id : option string)
| Mutations (childList : list bool)
| Tick                                    (* the 5 s interval *)
| Timeout                                 (* the 500 ms timer *)
| InitialVolume (lastError : bool) (response : jsval)
| PlaySettled (error : option string).

Definition step (runtime_id : string) (page : Page) (s : State) (ev : Event) : Run :=
  match ev with
  | Message request sender_id => (onMessage runtime_id page request sender_id s).2
  | Mutations childList => onMutations page childList s
  | Tick => findAndConnectAudio page s
  | Timeout => requestInitialVolume page s
  | InitialVolume lastError response => onInitialVolume lastError response s
  | PlaySettled error => onPlaySettled error s
  end.

(** A session of the script on a page: [initialize], then any number
    of events, each with the page as it is at that moment. *)
Fixpoint run (runtime_id : string) (evs : list (Page * Event)) (s : State) : Run :=
  match evs with
  | [] => (s, [])
  | (page, ev) :: rest => step runtime_id page s ev >>> run runtime_id rest
  end.

Definition session (runtime_id : string) (page : Page)
    (evs : list (Page * Event)) : Run :=
  initialize page initial >>> run runtime_id evs.

Definition replies (es : list Effect) : list Reply :=
  omap (λ e, match e with Respond r => Some r | _ => None end) es.

Definition promises (es : list Effect) : list nat :=
  omap (λ e, match e with Play el => Some el | _ => None end) es.

Definition notices (es : list Effect) : list jsval :=
  omap (λ e, match e with Notify m => Some m | _ => None end) es.

Definition connected (es : list Effect) : list nat :=
  omap (λ e, match e with Connect el => Some el | _ => None end) es.

(** The gain node, when there is one, plays at the current volume. *)
Definition gain_follows (s : State) : Prop :=
  match gainNode s with
  | Some g => g = Percent (currentVolume s) ∧ audioContext s = true
  | None => audioContext s = false
  end.

Definition Inv (s : State) : Prop :=
  in_range (currentVolume s) ∧ gain_follows s ∧ NoDup (mediaElements s).

(** The DOM lists no element twice. *)
Definition distinct (page : Page) : Prop :=
  NoDup (map media_id (media page)).

(** What a step may do: the volume stays in range, the gain follows
    it, and tracked elements are only added, each one connected in the
    same step. *)
Definition steady (s : State) (r : Run) : Prop :=
  (in_range (currentVolume s) → in_range (currentVolume r.1))
  ∧ (in_range (currentVolume s) → gain_follows s → gain_follows r.1)
  ∧ mediaElements r.1 = mediaElements s ++ connected r.2.

(** A function that neither answers the request nor plays: it leaves
    the volume to its caller. *)
Definition quiet (s : State) (r : Run) : Prop :=
  replies r.2 = [] ∧ promises r.2 = [] ∧ currentVolume r.1 = currentVolume s.

(** The three messages the script sends to the coordinator. *)
Definition known_notice (m : jsval) : Prop :=
  m = request "updateTabStatus" [("hasAudio"%string, JBool true)]
  ∨ m = request "contentScriptReady" []
  ∨ m = request "getAudioStatus" [].

Definition polite (r : Run) : Prop := Forall known_notice (notices r.2).

(** A step that leaves no element tracked twice. *)
Definition tidy (page : Page) (s : State) (r : Run) : Prop :=
  distinct page → NoDup (mediaElements s) → NoDup (mediaElements r.1).

End Content.

(** The message object that carries a command of [applyVolumeToTab]. *)
Definition command_message (m : Cmd.t) : jsval :=
  JObj [ ("action"%string, JStr (Cmd.action m));
         ("volume"%string, JNum (Cmd.volume m));
         ("muted"%string, JBool (Cmd.muted m));
         ("previousVolume"%string, JNum (Cmd.previousVolume m)) ].

(** The script has an audio context or can create one. *)
Definition audio_graph (page : Content.Page) (s : Content.State) : bool :=
  Content.audioContext s || Content.context_available page.

(** An element the scan connects: it has a source, is in the document,
    and [createMediaElementSource] accepts it. *)
Definition connectable (el : Content.Media) : bool :=
  negb (String.eqb (Content.media_src el) "")
  && Content.media_attached el && Content.media_connects el.

(** The volume a command of the coordinator asks for. *)
Definition command_target (m : Cmd.t) : jsnum :=
  if Cmd.muted m then num 0 else Cmd.volume m.

(** A page on which no audio context can be created. *)
Definition page_without_context : Content.Page :=
  Content.mkPage [Content.mkMedia 1 "https://a.example/clip.mp4" true true]
                 (λ _, false) false true.

(** The object the coordinator answers a [getAudioStatus] request
    with. *)
Definition status_object (v : jsnum) (m : bool) (pv : jsnum) : jsval :=
  JObj [ ("volume"%string, JNum v);
         ("muted"%string, JBool m);
         ("previousVolume"%string, JNum pv) ].

(** A page with one video, on which everything works. *)
Definition video : Content.Media :=
  Content.mkMedia 1 "https://a.example/clip.mp4" true true.

Definition sample_page : Content.Page :=
  Content.mkPage [video] (λ _, false) true true.

(** The coordinator asks for volume 30; later the interval fires. *)
Definition sample_session : list (Content.Page * Content.Event) :=
  [ (sample_page,
     Content.Message
       (command_message (Cmd.mk "setVolume" (num 30) false (num 100)))
       (Some ext_id));
    (sample_page, Content.Tick) ].

(* ================================================================== *)
(** * The popup control of one tab (AudioControl.svelte, App.svelte) *)
(* ================================================================== *)

(** [a === b] on numbers. *)
Definition num_eq (a b : jsnum) : bool :=
  match a, b with
  | NaN, _ | _, NaN => false
  | _, _ => bool_decide (a = b)
  end.

(** One [AudioControl] component: its props and reactive state, and
    the handlers of its slider and buttons.  [chrome] tells whether
    [typeof chrome !== "undefined" && chrome.tabs] holds; the callbacks
    of the two [sendMessage] calls only log and are left out, except
    the one of [playPauseAudio]. *)
Module Popup.

Record State := mkState {
  tabId : jsval;
  volumeVal : jsnum;
  muted : bool;
  previousVolume : jsnum;
  playing : jsval;
  visible : bool;
}.

Inductive Effect :=
| Error (text : string)                         (* console.error *)
| TabsSend (tabId : jsval) (message : jsval)    (* chrome.tabs.sendMessage *)
| RuntimeSend (message : jsval).                (* chrome.runtime.sendMessage *)

Definition Run : Type := State * list Effect.

Definition isValidVolume (volume : jsval) : bool :=
  match volume with
  | JNum n => negb (isNaN n) && num_le (num 0) n && num_le n (num 100)
  | _ => false
  end.

Definition isValidTabId (tabId : jsval) : bool :=
  match tabId with
  | JNum n => negb (isNaN n) && num_lt (num 0) n
  | _ => false
  end.

Definition toggleControls (s : State) : Run :=
  (mkState (tabId s) (volumeVal s) (muted s) (previousVolume s) (playing s)
           (negb (visible s)), []).

Definition volume_update (s : State) : jsval :=
  JObj [ ("action"%string, JStr "updateTabVolume");
         ("tabId"%string, tabId s);
         ("volume"%string, JNum (volumeVal s));
         ("muted"%string, JBool (muted s));
         ("previousVolume"%string, JNum (previousVolume s)) ].

Definition updateVolume (chrome : bool) (newVolume : jsnum) (s : State) : Run :=
  if negb (isValidVolume (JNum newVolume)) then
    (s, [Error "Invalid volume value:"])
  else if negb (isValidTabId (tabId s)) then
    (s, [Error "Invalid tabId:"])
  else
    let s' := mkState (tabId s) newVolume (num_eq newVolume (num 0))
                (if num_lt (num 0) newVolume then newVolume else previousVolume s)
                (playing s) (visible s) in
    (s', if chrome then
           [ TabsSend (tabId s)
               (JObj [ ("action"%string, JStr "setVolume");
                       ("volume"%string, JNum newVolume) ]);
             RuntimeSend
               (JObj [ ("action"%string, JStr "updateTabVolume");
                       ("tabId"%string, tabId s);
                       ("volume"%string, JNum newVolume);
                       ("muted"%string, JBool (num_eq newVolume (num 0)));
                       ("previousVolume"%string, JNum (previousVolume s')) ]) ]
         else []).

(** The slider: [oninput] passes [parseInt] of the range value. *)
Definition onSliderInput (chrome : bool) (value : string) (s : State) : Run :=
  updateVolume chrome (parseInt value) s.

Definition toggleMute (chrome : bool) (s : State) : Run :=
  if negb (isValidTabId (tabId s)) then
    (s, [Error "Invalid tabId:"])
  else
    let muted' := negb (muted s) in
    let s' :=
      if muted' then
        mkState (tabId s) (num 0) muted'
                (if num_lt (num 0) (volumeVal s) then volumeVal s
                 else previousVolume s)
                (playing s) (visible s)
      else
        mkState (tabId s) (previousVolume s) muted' (previousVolume s)
                (playing s) (visible s) in
    (s', if chrome then
           [ TabsSend (tabId s)
               (JObj [ ("action"%string, JStr "toggleMute");
                       ("muted"%string, JBool (muted s'));
                       ("previousVolume"%string, JNum (previousVolume s')) ]);
             RuntimeSend (volume_update s') ]
         else []).

Definition resetVolume (chrome : bool) (s : State) : Run :=
  if negb (isValidTabId (tabId s)) then
    (s, [Error "Invalid tabId:"])
  else
    let s' := mkState (tabId s) (num 100) false (num 100) (playing s) (visible s) in
    (s', if chrome then
           [ TabsSend (tabId s)
               (JObj [ ("action"%string, JStr "setVolume");
                       ("volume"%string, JNum (num 100)) ]);
             RuntimeSend
               (JObj [ ("action"%string, JStr "updateTabVolume");
                       ("tabId"%string, tabId s);
                       ("volume"%string, JNum (num 100));
                       ("muted"%string, JBool false);
                       ("previousVolume"%string, JNum (num 100)) ]) ]
         else []).

Definition playPauseAudio (chrome : bool) (s : State) : Run :=
  if negb (isValidTabId (tabId s)) then
    (s, [Error "Invalid tabId:"])
  else
    (s, if chrome then
          [ TabsSend (tabId s) (JObj [("action"%string, JStr "playPauseAudio")]) ]
        else []).

(** The callback of the [playPauseAudio] message. *)
Definition onPlayPauseResponse (lastError : bool) (response : jsval)
    (s : State) : Run :=
  if lastError then (s, [Error "Error toggling play/pause:"])
  else if truthy response && truthy (prop response "success") then
    (mkState (tabId s) (volumeVal s) (muted s) (previousVolume s)
             (prop response "isPlaying") (visible s), [])
  else (s, []).

Inductive Action :=
| Slide (value : string)
| ToggleMute
| Reset
| PlayPause
| PlayPauseDone (lastError : bool) (response : jsval)
| ToggleControls.

Definition act (chrome : bool) (s : State) (a : Action) : Run :=
  match a with
  | Slide value => onSliderInput chrome value s
  | ToggleMute => toggleMute chrome s
  | Reset => resetVolume chrome s
  | PlayPause => playPauseAudio chrome s
  | PlayPauseDone lastError response => onPlayPauseResponse lastError response s
  | ToggleControls => toggleControls s
  end.

Fixpoint acts (chrome : bool) (l : list Action) (s : State) : Run :=
  match l with
  | [] => (s, [])
  | a :: rest =>
      let '(s1, es1) := act chrome s a in
      let '(s2, es2) := acts chrome rest s1 in
      (s2, es1 ++ es2)
  end.

Definition to_tab (es : list Effect) : list (jsval * jsval) :=
  omap (λ e, match e with TabsSend t m => Some (t, m) | _ => None end) es.

Definition to_coordinator (es : list Effect) : list jsval :=
  omap (λ e, match e with RuntimeSend m => Some m | _ => None end) es.

(** The levels the control shows are in range. *)
Definition Inv (s : State) : Prop :=
  in_range (volumeVal s) ∧ in_range (previousVolume s).

(** The mute button shows "Unmute" only while the slider is at 0. *)
Definition consistent (s : State) : Prop :=
  muted s = true → volumeVal s = num 0.

End Popup.

(** The component [App.svelte] creates for one entry of a
    [getAudibleTabs] answer. *)
Definition mount (tab : Tab.t) (volumeData : TabVolumeData) : Popup.State :=
  Popup.mkState
    (JNum (if truthy_opt truthy_num (Tab.id tab)
           then default NaN (Tab.id tab) else num 0))
    (volume volumeData) (muted volumeData) (previousVolume volumeData)
    (JBool (default true (isPlaying volumeData))) false.

(** The actions that change the levels. *)
Definition changes_levels (a : Popup.Action) : Prop :=
  match a with
  | Popup.Slide value => isValidVolume (JNum (parseInt value)) = true
  | Popup.ToggleMute | Popup.Reset => True
  | _ => False
  end.

(** The popup, as a sender seen by the coordinator. *)
Definition popup_sender (runtime_id : string) : Sender :=
  mkSender (Some runtime_id) None.


(** The object the content script passes to [sendResponse]. *)
Definition reply_object (r : Content.Reply) : jsval :=
  match r with
  | Content.AudioStatus hasAudio v isPlaying =>
      JObj [ ("hasAudio"%string, JBool hasAudio); ("volume"%string, JNum v);
             ("isPlaying"%string, JBool isPlaying) ]
  | Content.Done => JObj [("success"%string, JBool true)]
  | Content.VolumeSet v =>
      JObj [("success"%string, JBool true); ("volume"%string, JNum v)]
  | Content.Playing isPlaying =>
      JObj [("success"%string, JBool true); ("isPlaying"%string, JBool isPlaying)]
  | Content.Failed e =>
      JObj [("success"%string, JBool false); ("error"%string, JStr e)]
  end.

(** The handlers behind the slider and the three buttons. *)
Definition is_command (a : Popup.Action) : Prop :=
  match a with
  | Popup.Slide _ | Popup.ToggleMute | Popup.Reset | Popup.PlayPause => True
  | _ => False
  end.

(** An element the script finds on every scan but cannot connect: it
    has a source, and either it has left the document or
    [createMediaElementSource] throws on it. *)
Definition unconnectable (el : Content.Media) : Prop :=
  Content.media_attached el = false ∨ Content.media_connects el = false.

(** The elements a scan of the page would try to connect. *)
Definition pending_media (page : Content.Page) (s : Content.State) (el : Content.Media) : Prop :=
  (el ∈ Content.media page)
  ∧ (Content.media_id el ∉ Content.mediaElements s)
  ∧ (Content.media_src el ≠ ""%string).

Definition page_with_detached_video : Content.Page :=
  Content.mkPage [Content.mkMedia 7 "https://a.example/v.mp4" false true]
                 (λ _, false) true true.

(* ================================================================== *)
(** * Rules of the weakest-precondition calculus *)
(* ================================================================== *)

Section WP.
Context {A B : Type} (E : Effect → Prop).

Lemma wp_ret (a : A) Q s : Q a s → wp E (ret a) Q s.
Proof. intros H. split; [exact H | constructor]. Qed.

Lemma wp_bind (c : M A) (k : A → M B) Q s :
  wp E c (λ a s', wp E (k a) Q s') s → wp E (bind c k) Q s.
Proof.
  intros [[HQ Hk] Hc]. split; [exact HQ |].
  unfold bind; simpl. apply Forall_app; split; assumption.
Qed.

Lemma wp_gets (f : State → A) Q s : Q (f s) s → wp E (gets f) Q s.
Proof. intros H. split; [exact H | constructor]. Qed.

Lemma wp_conseq (E' : Effect → Prop) (c : M A) (Q Q' : A → State → Prop) s :
  wp E' c Q' s →
  (∀ e, E' e → E e) →
  (∀ a s', Q' a s' → Q a s') →
  wp E c Q s.
Proof.
  intros [HQ HE] HEE HQQ. split; [by apply HQQ |].
  eapply Forall_impl; eauto.
Qed.
End WP.

Lemma wp_emit E e (Q : unit → State → Prop) s :
  E e → Q tt s → wp E (emit e) Q s.
Proof. intros He HQ. split; [exact HQ | by repeat constructor]. Qed.

Lemma wp_modify E f (Q : unit → State → Prop) s :
  Q tt (f s) → wp E (modify f) Q s.
Proof. intros H. split; [exact H | constructor]. Qed.

Lemma wp_alloc E d (Q : loc → State → Prop) s :
  Q (fresh (dom (heap s))) (with_heap (insert (fresh (dom (heap s))) d) s) →
  wp E (alloc d) Q s.
Proof. intros H. split; [exact H | constructor]. Qed.

Lemma wp_forEach {A} E (I : State → Prop) (l : list A) (f : A → M unit) s :
  (∀ x s', x ∈ l → I s' → wp E (f x) (λ _, I) s') →
  I s → wp E (forEach l f) (λ _, I) s.
Proof.
  revert s. induction l as [|x l IH]; intros s Hf Hs; simpl.
  - by apply wp_ret.
  - apply wp_bind. eapply wp_conseq; [apply Hf; [left | exact Hs] | done |].
    intros ? s' Hs'. apply IH; [| exact Hs'].
    intros y s'' Hy. apply Hf. by right.
Qed.

Lemma wp_mapM {A B} E (I : State → Prop) (l : list A) (f : A → M B) s :
  (∀ x s', I s' → wp E (f x) (λ _, I) s') →
  I s → wp E (mapM f l) (λ _, I) s.
Proof.
  revert s. induction l as [|x l IH]; intros s Hf Hs; simpl.
  - by apply wp_ret.
  - apply wp_bind. eapply wp_conseq; [apply Hf; exact Hs | done |].
    intros b s' Hs'. apply wp_bind.
    eapply wp_conseq; [apply IH; [exact Hf | exact Hs'] | done |].
    intros bs s'' Hs''. by apply wp_ret.
Qed.

(** One step of symbolic execution. *)
Ltac wp_step :=
  lazymatch goal with
  | |- wp _ (bind _ _) _ _ => apply wp_bind
  | |- wp _ (ret _) _ _ => apply wp_ret
  | |- wp _ skip _ _ => apply wp_ret
  | |- wp _ (console _ _) _ _ => apply wp_emit; [by repeat split |]
  | |- wp _ (respond _) _ _ => apply wp_emit; [by repeat split |]
  | |- wp _ (emit _) _ _ => apply wp_emit; [try by repeat split |]
  | |- wp _ (gets _) _ _ => apply wp_gets
  | |- wp _ (read _) _ _ => apply wp_gets
  | |- wp _ (modify _) _ _ => apply wp_modify
  | |- wp _ (write _ _) _ _ => apply wp_modify
  | |- wp _ (alloc _) _ _ => apply wp_alloc
  | |- wp _ (if ?b then _ else _) _ _ => destruct b eqn:?
  | |- wp _ (match ?x with _ => _ end) _ _ => destruct x eqn:?
  end; cbv beta zeta.

Ltac wp_run := repeat wp_step.

(* ================================================================== *)
(** * Validators *)
(* ================================================================== *)

Lemma isValidVolume_spec v :
  isValidVolume v = true ↔ ∃ q : Qc, v = JNum (Fin q) ∧ (0 ≤ q)%Qc ∧ (q ≤ Q2Qc 100)%Qc.
Proof.
  split.
  - destruct v as [| | |n| |]; try discriminate.
    destruct n as [| | |q]; try discriminate.
    unfold isValidVolume, num_le, num; simpl.
    intros [H0 H100]%andb_prop.
    apply bool_decide_eq_true in H0, H100. by exists q.
  - intros (q & -> & H0 & H100).
    unfold isValidVolume, num_le, num; simpl.
    apply andb_true_intro; split; by apply bool_decide_eq_true.
Qed.

Lemma isValidVolume_in_range v :
  isValidVolume v = true → in_range (as_num v).
Proof.
  intros (q & -> & H)%isValidVolume_spec. by exists q.
Qed.

Lemma isValidTabId_spec v :
  isValidTabId v = true ↔
  v = JNum PosInf ∨ ∃ q : Qc, v = JNum (Fin q) ∧ (0 < q)%Qc.
Proof.
  split.
  - destruct v as [| | |n| |]; try discriminate.
    destruct n as [| | |q]; try discriminate; [by left |].
    unfold isValidTabId, num_lt, num; simpl.
    intros H%bool_decide_eq_true. right. by exists q.
  - intros [-> | (q & -> & H)]; [done |].
    unfold isValidTabId, num_lt, num; simpl. by apply bool_decide_eq_true.
Qed.

Lemma in_range_100 : in_range (num 100).
Proof. eexists; split; [reflexivity |]. split; by vm_compute. Qed.

Lemma valid_default : valid_record getDefaultVolumeData.
Proof. split; exact in_range_100. Qed.

Lemma valid_validateVolumeData data : valid_record (validateVolumeData data).
Proof.
  unfold validateVolumeData.
  destruct (negb (truthy data) || negb (String.eqb (typeof data) "object"));
    [exact valid_default |].
  split; simpl.
  - destruct (isValidVolume (prop data "volume")) eqn:H;
      [by apply isValidVolume_in_range | exact in_range_100].
  - destruct (isValidVolume (prop data "previousVolume")) eqn:H;
      [by apply isValidVolume_in_range | exact in_range_100].
Qed.

Lemma valid_set_hasAudio b d : valid_record d → valid_record (set_hasAudio b d).
Proof. by intros []. Qed.

Lemma valid_set_tabUrl u d : valid_record d → valid_record (set_tabUrl u d).
Proof. by intros []. Qed.

Lemma heap_ok_total h l : heap_ok h → valid_record (h !!! l).
Proof.
  intros Hh. rewrite lookup_total_alt.
  destruct (h !! l) as [d|] eqn:Hl; simpl; [by eapply Hh | exact valid_default].
Qed.

Lemma heap_ok_insert h l d :
  heap_ok h → valid_record d → heap_ok (<[l := d]> h).
Proof.
  intros Hh Hd l' d'. rewrite lookup_insert.
  case_decide; [by intros [= <-] | apply Hh].
Qed.

Lemma queues_ok_insert qs tabId q :
  queues_ok qs → (length q ≤ MAX_QUEUE_SIZE)%nat → queues_ok (<[tabId := q]> qs).
Proof.
  intros Hqs Hq t q'. rewrite lookup_insert.
  case_decide; [by intros [= <-] | apply Hqs].
Qed.

Lemma queues_ok_delete qs tabId : queues_ok qs → queues_ok (delete tabId qs).
Proof.
  intros Hqs t q'. rewrite lookup_delete.
  case_decide; [done | apply Hqs].
Qed.

Lemma queues_ok_total qs tabId :
  queues_ok qs → (length (qs !!! tabId) ≤ MAX_QUEUE_SIZE)%nat.
Proof.
  intros Hqs. rewrite lookup_total_alt.
  destruct (qs !! tabId) as [q|] eqn:Hq; simpl; [by eapply Hqs |].
  unfold MAX_QUEUE_SIZE. lia.
Qed.

Lemma queues_wf_insert qs tabId q :
  queues_wf qs → Forall (λ i, good_cmd (Item.message i)) q →
  queues_wf (<[tabId := q]> qs).
Proof.
  intros Hqs Hq t q'. rewrite lookup_insert.
  case_decide; [by intros [= <-] | apply Hqs].
Qed.

Lemma queues_wf_delete qs tabId : queues_wf qs → queues_wf (delete tabId qs).
Proof.
  intros Hqs t q'. rewrite lookup_delete.
  case_decide; [done | apply Hqs].
Qed.

Lemma queues_wf_total qs tabId :
  queues_wf qs → Forall (λ i, good_cmd (Item.message i)) (qs !!! tabId).
Proof.
  intros Hqs. rewrite lookup_total_alt.
  destruct (qs !! tabId) as [q|] eqn:Hq; simpl; [by eapply Hqs | constructor].
Qed.

(** [alloc] returns a location that no object occupies. *)
Lemma alloc_fresh d s : heap s !! val (alloc d s) = None.
Proof. apply not_elem_of_dom, is_fresh. Qed.

Lemma is_Some_insert (h : gmap loc TabVolumeData) l l' d :
  is_Some (h !! l) → is_Some (<[l' := d]> h !! l).
Proof.
  intros Hl. rewrite lookup_insert. by case_decide.
Qed.

Lemma is_Some_insert_eq (h : gmap loc TabVolumeData) l d :
  is_Some (<[l := d]> h !! l).
Proof. rewrite lookup_insert_eq. by eexists. Qed.

Lemma allocated_lookup {K} `{Countable K} h (m : gmap K loc) k l :
  allocated h m → m !! k = Some l → is_Some (h !! l).
Proof. intros Hm. apply Hm. Qed.

Lemma allocated_heap_insert {K} `{Countable K} h (m : gmap K loc) l d :
  allocated h m → allocated (<[l := d]> h) m.
Proof.
  intros Hm k l' Hk. apply is_Some_insert. by eapply Hm.
Qed.

Lemma allocated_insert {K} `{Countable K} h (m : gmap K loc) k l :
  allocated h m → is_Some (h !! l) → allocated h (<[k := l]> m).
Proof.
  intros Hm Hl k' l'. rewrite lookup_insert.
  case_decide; [by intros [= <-] | apply Hm].
Qed.

Lemma allocated_delete {K} `{Countable K} h (m : gmap K loc) k :
  allocated h m → allocated h (delete k m).
Proof.
  intros Hm k' l'. rewrite lookup_delete.
  case_decide; [done | apply Hm].
Qed.

Lemma allocated_url_entry h urls url l :
  allocated h urls → url_entry urls url = Some l → is_Some (h !! l).
Proof.
  intros Hm. unfold url_entry.
  destruct url as [u|]; [| done]. destruct (truthy_str u); [| done]. apply Hm.
Qed.

Lemma good_cmd_truthy m : good_cmd m → truthy_str (Cmd.action m) = true.
Proof. unfold good_cmd. intros ->. by destruct (Cmd.muted m). Qed.

Create HintDb inv discriminated.
#[local] Hint Resolve valid_default valid_validateVolumeData valid_set_hasAudio
  valid_set_tabUrl heap_ok_total heap_ok_insert queues_ok_insert
  queues_ok_delete queues_wf_insert queues_wf_delete queues_wf_total
  is_Some_insert is_Some_insert_eq allocated_lookup allocated_heap_insert
  allocated_insert allocated_delete allocated_url_entry : inv.

(* ================================================================== *)
(** * Every function preserves the invariant *)
(* ================================================================== *)

(** Closes the state goals left by symbolic execution. *)
Ltac inv_auto :=
  repeat match goal with
         | H : Inv _ |- _ => destruct H as (? & ? & ? & ? & ?)
         end;
  try (unfold Inv; simpl; split_and!); eauto 6 with inv.

Lemma saveTabVolume_inv tabId l url s :
  Inv s → wp quiet (saveTabVolume tabId l url) (λ _, Inv) s.
Proof.
  intros Hs. unfold saveTabVolume. wp_run; inv_auto.
Qed.

Lemma getVolumeDataForTab_inv tabId url s :
  Inv s → wp quiet (getVolumeDataForTab tabId url) (λ _, Inv) s.
Proof.
  intros Hs. unfold getVolumeDataForTab. wp_run; try solve [inv_auto].
  eapply wp_conseq; [apply saveTabVolume_inv | done |]; [inv_auto |].
  intros ? s' Hs'. by wp_run.
Qed.

Lemma sendMessageToTab_inv tabId m rc s :
  good_cmd m → Inv s → wp quiet (sendMessageToTab tabId m rc) (λ _, Inv) s.
Proof.
  intros Hm Hs. unfold sendMessageToTab. by wp_run.
Qed.

Lemma applyVolumeToTab_inv tabId l s :
  Inv s → wp quiet (applyVolumeToTab tabId l) (λ _, Inv) s.
Proof.
  intros Hs. unfold applyVolumeToTab. wp_run; [done |].
  by apply sendMessageToTab_inv.
Qed.

(** Length and shape goals on queues, from the bound checks of the code. *)
Ltac queue_auto :=
  repeat match goal with
         | H : Inv _ |- _ => destruct H as (? & ? & ? & ? & ?)
         | H : (_ <? _)%nat = true |- _ => apply Nat.ltb_lt in H; simpl in H
         end;
  try (unfold Inv; simpl; split_and!); try done;
  repeat first
    [ apply queues_ok_insert; try done
    | apply queues_wf_insert; try done
    | apply Forall_app; split
    | apply queues_wf_total; try done
    | match goal with |- Forall _ (_ :: _) => constructor end
    | match goal with |- Forall _ [] => constructor end ];
  try done;
  rewrite ?length_app; simpl; unfold MAX_QUEUE_SIZE in *; try lia.

Lemma sendMessageCallback_inv tabId m rc e now s :
  good_cmd m →
  Inv s → wp quiet (sendMessageCallback tabId m rc e now) (λ _, Inv) s.
Proof.
  intros Hm Hs. unfold sendMessageCallback. wp_run; queue_auto.
Qed.

Lemma processItem_inv tabId now item s :
  good_cmd (Item.message item) →
  Inv s → wp quiet (processItem tabId now item) (λ _, Inv) s.
Proof.
  intros Hm Hs. unfold processItem. wp_run; try done; [| queue_auto].
  by apply sendMessageToTab_inv.
Qed.

Lemma processMessageQueue_inv tabId now s :
  Inv s → wp quiet (processMessageQueue tabId now) (λ _, Inv) s.
Proof.
  intros Hs. unfold processMessageQueue. wp_run; try done.
  apply wp_forEach; [| queue_auto].
  intros item s' Hitem Hs'. apply processItem_inv; [| done].
  destruct Hs as (_ & _ & Hwf & _).
  apply (queues_wf_total _ tabId) in Hwf.
  change (item ∈ take MAX_QUEUE_SIZE (messageQueues s !!! tabId)) in Hitem.
  apply elem_of_take in Hitem as (i & Hitem & _).
  by eapply Forall_lookup_1 in Hwf.
Qed.

Lemma quiet_good e : quiet e → good_effect e.
Proof. by intros [_ H]. Qed.

(** Calls a function whose specification is known, in the middle of a
    symbolic execution, and goes on with the continuation. *)
Ltac wp_call lem :=
  lazymatch goal with
  | |- wp _ (bind _ _) _ _ => apply wp_bind
  | |- _ => idtac
  end;
  eapply wp_conseq;
  [ apply lem
  | first [ done | exact quiet_good ]
  | cbv beta; intros ? ? ? ].

Lemma onInterval_inv clock s :
  Inv s → wp quiet (onInterval clock) (λ _, Inv) s.
Proof.
  intros Hs. unfold onInterval. wp_run.
  apply wp_forEach; [| done].
  intros tabId s' _ Hs'. by apply processMessageQueue_inv.
Qed.

Lemma hydrateKey_inv key value s :
  Inv s → wp quiet (hydrateKey key value) (λ _, Inv) s.
Proof.
  intros Hs. unfold hydrateKey. wp_run; inv_auto.
Qed.

Lemma onStorageLoaded_inv lastError items s :
  Inv s → wp quiet (onStorageLoaded lastError items) (λ _, Inv) s.
Proof.
  intros Hs. unfold onStorageLoaded. wp_run; [done |].
  apply wp_forEach; [| done].
  intros [key value] s' _ Hs'. by apply hydrateKey_inv.
Qed.

Lemma onRemoved_inv tabId s :
  Inv s → wp quiet (onRemoved tabId) (λ _, Inv) s.
Proof.
  intros Hs. unfold onRemoved. wp_run; inv_auto.
Qed.

Lemma onUpdated_inv tabId changeInfo tab s :
  Inv s → wp good_effect (onUpdated tabId changeInfo tab) (λ _, Inv) s.
Proof.
  intros Hs. unfold onUpdated. wp_run; try done.
  all: try (wp_call getVolumeDataForTab_inv; [inv_auto |]; wp_run).
  all: try (wp_call saveTabVolume_inv; [inv_auto |]; wp_run).
  all: inv_auto.
Qed.

Lemma tabsGetCallback_inv tabId v m pv result s :
  opt_in_range v → opt_in_range pv →
  Inv s → wp good_effect (tabsGetCallback tabId v m pv result) (λ _, Inv) s.
Proof.
  intros Hv Hpv Hs. unfold tabsGetCallback. wp_run; [done |].
  wp_call getVolumeDataForTab_inv; [done |]. wp_run.
  wp_call saveTabVolume_inv.
  - destruct H as (Hh & Hq & Hwf & Htabs & Hurls).
    split_and!; simpl; [| done | done | eauto 6 with inv..].
    apply heap_ok_insert; [done |].
    pose proof (heap_ok_total _ a Hh) as [Hd1 Hd2].
    split; simpl; [by destruct v | by destruct pv].
  - wp_call applyVolumeToTab_inv; [done |]. by wp_run.
Qed.

Lemma tabsQueryCallback_inv tabs s :
  Inv s → wp good_effect (tabsQueryCallback tabs) (λ _, Inv) s.
Proof.
  intros Hs. unfold tabsQueryCallback. wp_run.
  eapply wp_conseq; [apply (wp_mapM quiet Inv) | exact quiet_good |].
  - intros tab s' Hs'. wp_run.
    wp_call getVolumeDataForTab_inv; [done |]. by wp_run.
  - done.
  - cbv beta. intros ? ? ?. by wp_run.
Qed.

Lemma validated_opt_in_range v :
  negb (is_undefined v) && negb (isValidVolume v) = false →
  opt_in_range (opt_num v).
Proof.
  destruct (isValidVolume v) eqn:Hv.
  - intros _. apply isValidVolume_spec in Hv as (q & -> & H). by exists q.
  - by destruct v.
Qed.

Lemma dispatch_inv message sender throws now s :
  Inv s → wp good_effect (dispatch message sender throws now) (λ _, Inv) s.
Proof.
  intros Hs. unfold dispatch. wp_run; try done.
  - wp_call processMessageQueue_inv; [done |]. by wp_run.
  - split; by apply validated_opt_in_range.
  - wp_call getVolumeDataForTab_inv; [done |]. by wp_run.
  - wp_call getVolumeDataForTab_inv; [done |]. wp_run.
    wp_call saveTabVolume_inv; [inv_auto |]. by wp_run.
Qed.

Lemma onMessage_inv runtime_id message sender throws now s :
  Inv s →
  wp good_effect (onMessage runtime_id message sender throws now) (λ _, Inv) s.
Proof.
  intros Hs. unfold onMessage. wp_run; try done.
  wp_call dispatch_inv; [done |]. by wp_run.
Qed.

(** ** The invariant of the event loop *)

Lemma calls_good es : Forall good_effect es → Forall good_pending (calls es).
Proof.
  induction 1 as [|e es He _ IH]; [constructor |].
  unfold calls in *. destruct e; simpl; try exact IH.
  constructor; [exact He | exact IH].
Qed.

Lemma runCallback_inv p reply c s :
  good_pending p → runCallback p reply = Some c →
  Inv s → wp good_effect c (λ _, Inv) s.
Proof.
  intros Hp Hc Hs.
  destruct p, reply; simpl in Hc; try discriminate; injection Hc as <-.
  - eapply wp_conseq; [by apply onStorageLoaded_inv | exact quiet_good | done].
  - eapply wp_conseq; [by apply sendMessageCallback_inv | exact quiet_good | done].
  - destruct Hp. by apply tabsGetCallback_inv.
  - by apply tabsQueryCallback_inv.
  - eapply wp_conseq; [by apply processMessageQueue_inv | exact quiet_good | done].
  - eapply wp_conseq; [by apply applyVolumeToTab_inv | exact quiet_good | done].
Qed.

Lemma step_inv runtime_id sys ev sys' es :
  SysInv sys → step runtime_id sys ev = Some (sys', es) → SysInv sys'.
Proof.
  intros [Hs Hp] Hstep.
  assert (Hfin : ∀ (old : list Pending) (c : M unit),
             Forall good_pending old →
             wp good_effect c (λ _, Inv) (prog sys) →
             SysInv (mkSys (state (c (prog sys)))
                           (old ++ calls (effs (c (prog sys)))))).
  { intros old c Hold [HI HE]. split; [exact HI |]. simpl.
    apply Forall_app; split; [exact Hold | by apply calls_good]. }
  destruct ev as [tabId ci tab | tabId | message sender throws now | clock | i reply];
    simpl in Hstep.
  - injection Hstep as <- <-. apply Hfin; [done | by apply onUpdated_inv].
  - injection Hstep as <- <-. apply Hfin; [done |].
    eapply wp_conseq; [by apply onRemoved_inv | exact quiet_good | done].
  - injection Hstep as <- <-.
    assert (Hm := onMessage_inv runtime_id message sender throws now _ Hs).
    destruct Hm as [HI HE]. split; [exact HI |]. simpl.
    apply Forall_app; split; [exact Hp | by apply calls_good].
  - injection Hstep as <- <-. apply Hfin; [done |].
    eapply wp_conseq; [by apply onInterval_inv | exact quiet_good | done].
  - destruct (inflight sys !! i) as [p|] eqn:Hi; [| discriminate].
    destruct (runCallback p reply) as [c|] eqn:Hc; [| discriminate].
    injection Hstep as <- <-. apply Hfin.
    + by apply Forall_delete.
    + eapply runCallback_inv; [| exact Hc | exact Hs].
      eapply Forall_lookup_1; eauto.
Qed.

Lemma reachable_inv runtime_id sys : reachable runtime_id sys → SysInv sys.
Proof.
  induction 1 as [| sys ev sys' es _ IH Hstep].
  - split; [| by repeat constructor].
    split_and!; intros ? ?; simpl; by rewrite lookup_empty.
  - by eapply step_inv.
Qed.

Lemma run_reachable runtime_id evs : ∀ sys sys' es,
  reachable runtime_id sys → run runtime_id sys evs = Some (sys', es) →
  reachable runtime_id sys'.
Proof.
  induction evs as [|ev evs IH]; intros sys sys' es Hr Hrun; simpl in Hrun.
  - by injection Hrun as <- _.
  - destruct (step runtime_id sys ev) as [[sys1 es1]|] eqn:Hstep; [| discriminate].
    destruct (run runtime_id sys1 evs) as [[sys2 es2]|] eqn:Hrest; [| discriminate].
    injection Hrun as <- _.
    eapply IH; [| exact Hrest]. by eapply reach_step.
Qed.

Lemma after_reachable evs : reachable ext_id (after evs).
Proof.
  unfold after.
  destruct (run ext_id boot evs) as [[sys es]|] eqn:Hrun; [| constructor].
  eapply run_reachable; [constructor | exact Hrun].
Qed.

(* ================================================================== *)
(** * Running the combinators *)
(* ================================================================== *)

Lemma bind_run {A B} (c : M A) (k : A → M B) s :
  bind c k s = mkRes (val (k (val (c s)) (state (c s))))
                     (state (k (val (c s)) (state (c s))))
                     (effs (c s) ++ effs (k (val (c s)) (state (c s)))).
Proof. reflexivity. Qed.

Lemma gets_run {A} (f : State → A) s : gets f s = mkRes (f s) s [].
Proof. reflexivity. Qed.

Lemma modify_run f s : modify f s = mkRes tt (f s) [].
Proof. reflexivity. Qed.

Lemma emit_run e s : emit e s = mkRes tt s [e].
Proof. reflexivity. Qed.

Lemma ret_run {A} (a : A) s : ret a s = mkRes a s [].
Proof. reflexivity. Qed.

(** Runs the monadic combinators that are applied to a state. *)
Ltac mrun :=
  repeat (rewrite ?bind_run, ?gets_run, ?modify_run, ?emit_run, ?ret_run;
          progress cbn [val state effs app]).

(** Reads a module variable of an updated state. *)
Ltac sproj :=
  cbn [heap tabVolumeSettings urlVolumeSettings messageQueues audibleTabs
       with_heap with_tabVolumeSettings with_urlVolumeSettings
       with_messageQueues with_audibleTabs].

Lemma truthy_str_true u : truthy_str u = true ↔ u ≠ ""%string.
Proof.
  unfold truthy_str. rewrite negb_true_iff. apply String.eqb_neq.
Qed.

Lemma sent_app es1 es2 : sent (es1 ++ es2) = sent es1 ++ sent es2.
Proof. apply omap_app. Qed.

Lemma forEach_cons {A} (x : A) l f s :
  forEach (x :: l) f s =
  mkRes (val (forEach l f (state (f x s))))
        (state (forEach l f (state (f x s))))
        (effs (f x s) ++ effs (forEach l f (state (f x s)))).
Proof. reflexivity. Qed.

(* ================================================================== *)
(** * The delivery queue *)
(* ================================================================== *)

Lemma sendMessageToTab_run tabId m rc s :
  isValidTabId (JNum tabId) = true →
  truthy_str (Cmd.action m) = true →
  sendMessageToTab tabId m rc s =
  mkRes tt s (if MAX_RETRIES <=? rc
              then [Console LogInfo "Max retries reached, giving up."]
              else [Call (PTabsSendMessage tabId m rc)]).
Proof.
  intros Ht Hm. unfold sendMessageToTab. rewrite Ht, Hm. simpl.
  by destruct (MAX_RETRIES <=? rc).
Qed.

Lemma processItem_retry tabId now item s :
  isValidTabId (JNum tabId) = true →
  truthy_str (Cmd.action (Item.message item)) = true →
  1000 ≤ now - Item.time item < 60000 →
  processItem tabId now item s =
  mkRes tt s (if MAX_RETRIES <=? Item.retryCount item
              then [Console LogInfo "Max retries reached, giving up."]
              else [Call (PTabsSendMessage tabId (Item.message item)
                                           (Item.retryCount item))]).
Proof.
  intros Ht Hm [Hlo Hhi]. unfold processItem. rewrite Hm. simpl.
  assert ((1000 <=? now - Item.time item) = true) as -> by lia.
  assert ((now - Item.time item <? 60000) = true) as -> by lia.
  simpl. by apply sendMessageToTab_run.
Qed.

Lemma processItem_young tabId now item s acc :
  truthy_str (Cmd.action (Item.message item)) = true →
  now - Item.time item < 1000 →
  messageQueues s !! tabId = Some acc →
  processItem tabId now item s =
  if (length acc <? MAX_QUEUE_SIZE)%nat
  then mkRes tt (with_messageQueues (insert tabId (acc ++ [item])) s) []
  else mkRes tt s [Console LogWarn "Message queue overflow for tab"].
Proof.
  intros Hm Hage Hq. unfold processItem. rewrite Hm. simpl.
  assert ((1000 <=? now - Item.time item) = false) as -> by lia.
  assert ((now - Item.time item <? 1000) = true) as -> by lia.
  simpl. unfold bind, gets. simpl.
  rewrite (lookup_total_correct _ _ _ Hq).
  by destruct (length acc <? MAX_QUEUE_SIZE)%nat.
Qed.

Lemma processItem_expired tabId now item s :
  truthy_str (Cmd.action (Item.message item)) = true →
  60000 ≤ now - Item.time item →
  processItem tabId now item s =
  mkRes tt s [Console LogWarn "Discarding old message for tab"].
Proof.
  intros Hm Hage. unfold processItem. rewrite Hm. simpl.
  assert ((1000 <=? now - Item.time item) = true) as -> by lia.
  assert ((now - Item.time item <? 60000) = false) as -> by lia.
  assert ((now - Item.time item <? 1000) = false) as -> by lia.
  reflexivity.
Qed.

(** The loop of [processMessageQueue], started with [acc] already put
    back in the queue. *)
Lemma forEach_processItem tabId now items : ∀ s acc,
  isValidTabId (JNum tabId) = true →
  messageQueues s !! tabId = Some acc →
  (length acc + length items ≤ MAX_QUEUE_SIZE)%nat →
  Forall (λ i, truthy_str (Cmd.action (Item.message i)) = true) items →
  messageQueues (state (forEach items (processItem tabId now) s))
    = <[tabId := acc ++ List.filter (λ i, now - Item.time i <? 1000) items]>
        (messageQueues s)
  ∧ sent (effs (forEach items (processItem tabId now) s))
    = map (λ i, (tabId, Item.message i, Item.retryCount i))
          (List.filter (λ i, (1000 <=? now - Item.time i)
                             && (now - Item.time i <? 60000)
                             && (Item.retryCount i <? MAX_RETRIES)) items).
Proof.
  induction items as [|item items IH]; intros s acc Ht Hq Hlen Hok.
  - simpl. split; [| done]. rewrite app_nil_r. by rewrite insert_id.
  - inversion Hok as [|? ? Hitem Hok']; subst.
    rewrite forEach_cons. simpl in Hlen. simpl.
    destruct (Z.lt_ge_cases (now - Item.time item) 1000) as [Hy | Hlo].
    + rewrite (processItem_young _ _ _ _ acc) by done.
      assert ((length acc <? MAX_QUEUE_SIZE)%nat = true) as ->
        by (apply Nat.ltb_lt; lia).
      assert ((now - Item.time item <? 1000) = true) as -> by lia.
      assert ((1000 <=? now - Item.time item) = false) as -> by lia.
      simpl.
      destruct (IH (with_messageQueues (insert tabId (acc ++ [item])) s)
                   (acc ++ [item]) Ht) as [IH1 IH2].
      { simpl. by rewrite lookup_insert_eq. }
      { rewrite length_app. simpl. lia. }
      { exact Hok'. }
      split; [| exact IH2].
      rewrite IH1. simpl. rewrite insert_insert_eq. by rewrite <- app_assoc.
    + assert ((now - Item.time item <? 1000) = false) as -> by lia.
      assert ((1000 <=? now - Item.time item) = true) as -> by lia.
      destruct (Z.lt_ge_cases (now - Item.time item) 60000) as [Hhi | Hex].
      * rewrite processItem_retry by (done || lia).
        assert ((now - Item.time item <? 60000) = true) as -> by lia.
        simpl.
        destruct (IH s acc Ht Hq ltac:(lia) Hok') as [IH1 IH2].
        split; [exact IH1 |].
        rewrite sent_app, IH2.
        replace (Item.retryCount item <? MAX_RETRIES)
          with (negb (MAX_RETRIES <=? Item.retryCount item))
          by (unfold MAX_RETRIES; lia).
        by destruct (MAX_RETRIES <=? Item.retryCount item).
      * rewrite processItem_expired by done.
        assert ((now - Item.time item <? 60000) = false) as -> by lia.
        simpl. by apply IH; [| | lia |].
Qed.

Lemma processMessageQueue_spec s tabId now q :
  isValidTabId (JNum tabId) = true →
  messageQueues s !! tabId = Some q →
  (length q ≤ MAX_QUEUE_SIZE)%nat →
  Forall (λ i, truthy_str (Cmd.action (Item.message i)) = true) q →
  messageQueues (state (processMessageQueue tabId now s)) !! tabId
    = Some (List.filter (λ i, now - Item.time i <? 1000) q)
  ∧ sent (effs (processMessageQueue tabId now s))
    = map (λ i, (tabId, Item.message i, Item.retryCount i))
          (List.filter (λ i, (1000 <=? now - Item.time i)
                             && (now - Item.time i <? 60000)
                             && (Item.retryCount i <? MAX_RETRIES)) q).
Proof.
  intros Ht Hq Hlen Hok. unfold processMessageQueue. mrun.
  rewrite Ht, Hq, (lookup_total_correct _ _ _ Hq).
  rewrite (bool_decide_eq_true_2 _ (mk_is_Some _ _ eq_refl)).
  cbn [negb orb].
  destruct q as [|item q']; [by simpl |].
  set (q := item :: q') in *.
  change (length q =? 0)%nat with false. cbv iota.
  rewrite firstn_all2 by exact Hlen. mrun.
  destruct (forEach_processItem tabId now q
              (with_messageQueues (insert tabId []) s) [] Ht) as [H1 H2].
  { simpl. by rewrite lookup_insert_eq. }
  { simpl. exact Hlen. }
  { exact Hok. }
  split; [| exact H2].
  rewrite H1. simpl. by rewrite lookup_insert_eq.
Qed.

Lemma sent_to_app t es1 es2 : sent_to t (es1 ++ es2) = sent_to t es1 ++ sent_to t es2.
Proof. unfold sent_to. by rewrite sent_app, filter_app. Qed.

Lemma sent_to_other t t' es :
  t' ≠ t → Forall (sends_only_to t') es → sent_to t es = [].
Proof.
  intros Hne. induction 1 as [|e es He _ IH]; [done |].
  change (e :: es) with ([e] ++ es). rewrite sent_to_app, IH, app_nil_r.
  destruct e as [p| | | |]; try done. destruct p; try done.
  simpl in He. subst. unfold sent_to. simpl.
  by rewrite bool_decide_eq_false_2.
Qed.

Lemma sent_to_same t es :
  Forall (sends_only_to t) es → sent_to t es = sent es.
Proof.
  induction 1 as [|e es He _ IH]; [done |].
  change (e :: es) with ([e] ++ es). rewrite sent_to_app, sent_app, IH.
  f_equal. destruct e as [p| | | |]; try done. destruct p; try done.
  simpl in He. subst. unfold sent_to. simpl.
  by rewrite bool_decide_eq_true_2.
Qed.

Lemma processMessageQueue_frame t t' now s :
  t' ≠ t →
  wp (sends_only_to t') (processMessageQueue t' now)
     (λ _ s', messageQueues s' !! t = messageQueues s !! t) s.
Proof.
  intros Hne. unfold processMessageQueue. wp_run; try done.
  apply (wp_forEach _ (λ s', messageQueues s' !! t = messageQueues s !! t)).
  - intros item s' _ Hs'. unfold processItem, sendMessageToTab. wp_run; try done.
    simpl. by rewrite lookup_insert_ne.
  - simpl. by rewrite lookup_insert_ne.
Qed.

Lemma processMessageQueue_sends t now s :
  wp (sends_only_to t) (processMessageQueue t now) (λ _ _, True) s.
Proof.
  unfold processMessageQueue. wp_run; try done.
  apply (wp_forEach _ (λ _, True)); [| done].
  intros item s' _ _. unfold processItem, sendMessageToTab. wp_run; done.
Qed.

Lemma sweep_other_tabs t clock l : ∀ s,
  t ∉ l →
  messageQueues (state (forEach l (λ t', processMessageQueue t' (clock t')) s)) !! t
    = messageQueues s !! t
  ∧ sent_to t (effs (forEach l (λ t', processMessageQueue t' (clock t')) s)) = [].
Proof.
  induction l as [|t' l IH]; intros s Hnot; [done |].
  apply not_elem_of_cons in Hnot as [Hne Hnot].
  rewrite forEach_cons. cbn [state effs].
  destruct (processMessageQueue_frame t t' (clock t') s) as [Hq He]; [done |].
  destruct (IH (state (processMessageQueue t' (clock t') s)) Hnot) as [IH1 IH2].
  split.
  - by rewrite IH1.
  - rewrite sent_to_app, IH2, app_nil_r. by eapply sent_to_other.
Qed.

Lemma sweep_one_tab t clock q l : ∀ s,
  NoDup l → t ∈ l →
  isValidTabId (JNum t) = true →
  messageQueues s !! t = Some q →
  (length q ≤ MAX_QUEUE_SIZE)%nat →
  Forall (λ i, truthy_str (Cmd.action (Item.message i)) = true) q →
  let r := forEach l (λ t', processMessageQueue t' (clock t')) s in
  messageQueues (state r) !! t
    = Some (List.filter (λ i, clock t - Item.time i <? 1000) q)
  ∧ sent_to t (effs r)
    = map (λ i, (t, Item.message i, Item.retryCount i))
          (List.filter (λ i, (1000 <=? clock t - Item.time i)
                             && (clock t - Item.time i <? 60000)
                             && (Item.retryCount i <? MAX_RETRIES)) q).
Proof.
  induction l as [|t' l IH]; intros s Hnd Hin Ht Hq Hlen Hok r;
    [by apply elem_of_nil in Hin |].
  subst r. pose proof (NoDup_cons_1_1 _ _ Hnd) as Hnotin.
  apply NoDup_cons_1_2 in Hnd.
  rewrite forEach_cons. cbn [state effs]. rewrite sent_to_app.
  destruct (decide (t' = t)) as [-> | Hne].
  - destruct (processMessageQueue_spec s t (clock t) q Ht Hq Hlen Hok) as [H1 H2].
    destruct (sweep_other_tabs t clock l
                (state (processMessageQueue t (clock t) s)) Hnotin) as [H3 H4].
    destruct (processMessageQueue_sends t (clock t) s) as [_ H5].
    rewrite H3, H4, app_nil_r, (sent_to_same _ _ H5). by split.
  - apply elem_of_cons in Hin as [-> | Hin]; [done |].
    destruct (processMessageQueue_frame t t' (clock t') s Hne) as [H1 H2].
    rewrite (sent_to_other t t' _ Hne H2). cbn [app]. cbv beta in H1.
    apply IH; [done | done | done | by rewrite H1 | done | done].
Qed.

Lemma onInterval_spec s clock t q :
  isValidTabId (JNum t) = true →
  messageQueues s !! t = Some q →
  (length q ≤ MAX_QUEUE_SIZE)%nat →
  Forall (λ i, truthy_str (Cmd.action (Item.message i)) = true) q →
  messageQueues (state (onInterval clock s)) !! t
    = Some (List.filter (λ i, clock t - Item.time i <? 1000) q)
  ∧ sent_to t (effs (onInterval clock s))
    = map (λ i, (t, Item.message i, Item.retryCount i))
          (List.filter (λ i, (1000 <=? clock t - Item.time i)
                             && (clock t - Item.time i <? 60000)
                             && (Item.retryCount i <? MAX_RETRIES)) q).
Proof.
  intros Ht Hq Hlen Hok. unfold onInterval. mrun.
  apply sweep_one_tab; try done.
  - apply NoDup_elements.
  - apply elem_of_elements, elem_of_dom. by eexists.
Qed.

(** C8. In every state the event loop can reach, the delivery queue of
    every tab holds at most [MAX_QUEUE_SIZE] = 50 entries.  When a send
    fails and the queue of its tab is below the cap, the new entry is
    appended behind the existing ones; when the queue is full, the new
    entry is dropped, a warning is logged and the state is unchanged, so
    no existing entry is evicted.  The same holds where the sweep puts a
    too-young entry back. *)
Theorem queue_never_exceeds_cap runtime_id sys tabId q message retryCount now :
  reachable runtime_id sys →
  messageQueues (prog sys) !! tabId = Some q →
  let r := sendMessageCallback tabId message retryCount true now (prog sys) in
  (length q ≤ 50)%nat
  ∧ ((length q < 50)%nat →
     messageQueues (state r) !! tabId
       = Some (q ++ [Item.mk message (retryCount + 1) now]))
  ∧ (length q = 50%nat →
     state r = prog sys
     ∧ warnings (effs r) = ["Message queue overflow for tab"%string]
     ∧ ∀ item t,
         Cmd.action (Item.message item) ≠ ""%string →
         t - Item.time item < 1000 →
         state (processItem tabId t item (prog sys)) = prog sys
         ∧ warnings (effs (processItem tabId t item (prog sys)))
           = ["Message queue overflow for tab"%string]).
Proof.
  intros Hreach Hq r.
  destruct (reachable_inv _ _ Hreach) as [(_ & Hbound & _) _].
  split; [exact (Hbound _ _ Hq) |].
  assert (Hr : r = if (length q <? MAX_QUEUE_SIZE)%nat
                   then mkRes tt (with_messageQueues
                          (insert tabId (q ++ [Item.mk message (retryCount + 1) now]))
                          (prog sys))
                          [Console LogInfo "Error sending message to tab"]
                   else mkRes tt (prog sys)
                          [Console LogInfo "Error sending message to tab";
                           Console LogWarn "Message queue overflow for tab"]).
  { subst r. unfold sendMessageCallback. cbv iota. unfold console. mrun.
    rewrite Hq, (bool_decide_eq_true_2 _ (mk_is_Some _ _ eq_refl)).
    unfold skip. mrun. rewrite (lookup_total_correct _ _ _ Hq).
    by destruct (length q <? MAX_QUEUE_SIZE)%nat. }
  split.
  - intros Hlt. rewrite Hr.
    assert ((length q <? MAX_QUEUE_SIZE)%nat = true) as ->
      by (apply Nat.ltb_lt; exact Hlt).
    simpl. by rewrite lookup_insert_eq.
  - intros Hfull. rewrite Hr.
    assert ((length q <? MAX_QUEUE_SIZE)%nat = false) as Hge
      by (apply Nat.ltb_ge; unfold MAX_QUEUE_SIZE; lia).
    rewrite Hge. split_and!; [done | done |].
    intros item t Hact Hyoung.
    rewrite (processItem_young _ _ _ _ q); [| | done | done].
    + by rewrite Hge.
    + unfold truthy_str. apply negb_true_iff, String.eqb_neq, Hact.
Qed.

Lemma queue_never_exceeds_cap_witness :
  let sys := after (failures 50) in
  let message := Cmd.mk "setVolume" (num 100) false (num 100) in
  let r := sendMessageCallback (num 42) message 0 true 7 (prog sys) in
  (length (replicate 50 (Item.mk message 1 0)) ≤ 50)%nat
  ∧ state r = prog sys
  ∧ warnings (effs r) = ["Message queue overflow for tab"%string].
Proof.
  intros sys message r.
  destruct (queue_never_exceeds_cap ext_id sys (num 42)
              (replicate 50 (Item.mk message 1 0)) message 0 7)
    as (Hle & _ & Hfull).
  - apply after_reachable.
  - vm_compute. reflexivity.
  - split; [exact Hle |].
    destruct (Hfull ltac:(vm_compute; reflexivity)) as (Hst & Hw & _).
    split; [exact Hst | exact Hw].
Defined.

(** C9 (amended).  One run of [processMessageQueue] for a valid tab, at
    time [now], partitions the queue [q] of a reachable state by age:
    the entries younger than 1 s (1000 ms) are left in the queue, in
    order; the entries aged from 1 s up to, but not including, 60 s are
    re-sent in order, provided their retry count is below
    [MAX_RETRIES] = 3; every other entry, and in particular every entry
    aged 60 s or more, is neither re-sent nor kept.  The periodic sweep
    does exactly this to the queue of every valid tab, with the time read
    when that queue is processed. *)
Theorem sweep_partition runtime_id sys tabId q now clock :
  reachable runtime_id sys →
  isValidTabId (JNum tabId) = true →
  messageQueues (prog sys) !! tabId = Some q →
  let kept t := List.filter (λ i, t - Item.time i <? 1000) q in
  let resent t :=
    map (λ i, (tabId, Item.message i, Item.retryCount i))
        (List.filter (λ i, (1000 <=? t - Item.time i)
                           && (t - Item.time i <? 60000)
                           && (Item.retryCount i <? 3)) q) in
  let r := processMessageQueue tabId now (prog sys) in
  let w := onInterval clock (prog sys) in
  messageQueues (state r) !! tabId = Some (kept now)
  ∧ sent (effs r) = resent now
  ∧ messageQueues (state w) !! tabId = Some (kept (clock tabId))
  ∧ sent_to tabId (effs w) = resent (clock tabId).
Proof.
  intros Hreach Ht Hq kept resent r w.
  destruct (reachable_inv _ _ Hreach) as [(_ & Hbound & Hwf & _) _].
  assert (Hok : Forall (λ i, truthy_str (Cmd.action (Item.message i)) = true) q).
  { eapply Forall_impl; [| exact (Hwf _ _ Hq)].
    intros i Hi. by apply good_cmd_truthy. }
  destruct (processMessageQueue_spec (prog sys) tabId now q Ht Hq
              (Hbound _ _ Hq) Hok) as [H1 H2].
  destruct (onInterval_spec (prog sys) clock tabId q Ht Hq
              (Hbound _ _ Hq) Hok) as [H3 H4].
  by split_and!.
Qed.

Lemma sweep_partition_witness :
  let message := Cmd.mk "setVolume" (num 100) false (num 100) in
  let r := processMessageQueue (num 42) 500 (prog (after (failures 2))) in
  messageQueues (state r) !! num 42
    = Some [Item.mk message 1 0; Item.mk message 1 0]
  ∧ sent (effs r) = [].
Proof.
  intros message r.
  destruct (sweep_partition ext_id (after (failures 2)) (num 42)
              [Item.mk message 1 0; Item.mk message 1 0] 500 (λ _, 500))
    as (H1 & H2 & _).
  - apply after_reachable.
  - vm_compute. reflexivity.
  - vm_compute. reflexivity.
  - split; [exact H1 | exact H2].
Defined.

(** The entry left after three failed attempts is two seconds old at the
    next sweep, within the retry window, and is discarded, not re-sent. *)
Lemma sweep_partition_counterexample :
  let message := Cmd.mk "setVolume" (num 100) false (num 100) in
  let s := prog (after three_failures) in
  let r := onInterval (λ _, 6000) s in
  messageQueues s !! num 42 = Some [Item.mk message 3 4000]
  ∧ 1000 ≤ 6000 - 4000 < 60000
  ∧ sent (effs r) = []
  ∧ messageQueues (state r) !! num 42 = Some [].
Proof.
  vm_compute. split_and!; reflexivity || discriminate.
Qed.

(** Every command waiting in a queue or handed to the platform, in any
    reachable state, has the shape [applyVolumeToTab] gave it. *)
Lemma reachable_commands runtime_id sys :
  reachable runtime_id sys →
  (∀ tabId q item, messageQueues (prog sys) !! tabId = Some q → item ∈ q →
     Cmd.action (Item.message item)
     = if Cmd.muted (Item.message item) then "toggleMute"%string
       else "setVolume"%string)
  ∧ (∀ tabId m rc, PTabsSendMessage tabId m rc ∈ inflight sys →
     Cmd.action m = if Cmd.muted m then "toggleMute"%string else "setVolume"%string).
Proof.
  intros Hreach.
  destruct (reachable_inv _ _ Hreach) as [(_ & _ & Hwf & _) Hp]. split.
  - intros tabId q item Hq Hitem.
    apply list_elem_of_lookup in Hitem as [i Hi].
    exact (Forall_lookup_1 _ _ _ _ (Hwf _ _ Hq) Hi).
  - intros tabId m rc Hin.
    apply list_elem_of_lookup in Hin as [i Hi].
    exact (Forall_lookup_1 _ _ _ _ Hp Hi).
Qed.

(** C10. For every valid tab and every record, [applyVolumeToTab] hands
    exactly one command to [chrome.tabs.sendMessage]: its action is
    [toggleMute] when the record is muted and [setVolume] when it is
    not, and in both cases it carries the record's [volume], [muted] and
    [previousVolume].  The state is not changed. *)
Theorem applyVolumeToTab_command s tabId volumeData :
  isValidTabId (JNum tabId) = true →
  let d := heap s !!! volumeData in
  let r := applyVolumeToTab tabId volumeData s in
  ∃ m, sent (effs r) = [(tabId, m, 0)]
       ∧ (muted d = true → Cmd.action m = "toggleMute"%string)
       ∧ (muted d = false → Cmd.action m = "setVolume"%string)
       ∧ Cmd.volume m = volume d
       ∧ Cmd.muted m = muted d
       ∧ Cmd.previousVolume m = previousVolume d
       ∧ state r = s.
Proof.
  intros Ht d r. subst r. unfold applyVolumeToTab. rewrite Ht. cbn [negb].
  unfold read. mrun. fold d.
  rewrite sendMessageToTab_run; [| done | by destruct (muted d)].
  eexists. split; [reflexivity |]. simpl.
  split_and!; try done; by intros ->.
Qed.

Lemma applyVolumeToTab_command_witness :
  ∃ m, sent (effs (applyVolumeToTab (num 42) 1%positive one_record))
         = [(num 42, m, 0)]
       ∧ (true = true → Cmd.action m = "toggleMute"%string)
       ∧ (true = false → Cmd.action m = "setVolume"%string)
       ∧ Cmd.volume m = num 0
       ∧ Cmd.muted m = true
       ∧ Cmd.previousVolume m = num 80
       ∧ state (applyVolumeToTab (num 42) 1%positive one_record) = one_record.
Proof.
  apply (applyVolumeToTab_command one_record (num 42) 1%positive).
  vm_compute. reflexivity.
Defined.

(* ================================================================== *)
(** * The state cache *)
(* ================================================================== *)

Lemma saveTabVolume_run tabId l url s :
  isValidTabId (JNum tabId) = true →
  saveTabVolume tabId l url s =
  match url with
  | Some u =>
      if truthy_str u then
        mkRes tt
          (with_urlVolumeSettings (insert u l)
             (with_heap (insert l (set_tabUrl u (heap s !!! l))) s))
          [StorageSet (TabKey tabId) (heap s !!! l);
           StorageSet (UrlKey u) (set_tabUrl u (heap s !!! l))]
      else mkRes tt s [StorageSet (TabKey tabId) (heap s !!! l)]
  | None => mkRes tt s [StorageSet (TabKey tabId) (heap s !!! l)]
  end.
Proof.
  intros Ht. unfold saveTabVolume. rewrite Ht. cbn [negb].
  unfold read, write. mrun.
  destruct url as [u|]; [| by mrun].
  destruct (truthy_str u); mrun; [| done].
  sproj. by rewrite lookup_total_insert_eq.
Qed.

(* ================================================================== *)
(** * Hydration and the range invariant *)
(* ================================================================== *)

Lemma prefixes_exclusive key :
  startsWith key "tab-volume-" = true → startsWith key "url-volume-" = false.
Proof.
  destruct key as [|c key]; [discriminate |].
  unfold startsWith.
  change (String.prefix "tab-volume-" (String c key))
    with (if Ascii.ascii_dec "t" c then String.prefix "ab-volume-" key else false).
  change (String.prefix "url-volume-" (String c key))
    with (if Ascii.ascii_dec "u" c then String.prefix "rl-volume-" key else false).
  destruct (Ascii.ascii_dec "t" c) as [<- | ?]; [intros _ | discriminate].
  by destruct (Ascii.ascii_dec "u" "t").
Qed.

Lemma hydrateKey_tab s key value :
  startsWith key "tab-volume-" = true →
  isValidTabId (JNum (parseInt (remove_first "tab-volume-" key))) = true →
  ∃ l, tabVolumeSettings (state (hydrateKey key value s))
         !! parseInt (remove_first "tab-volume-" key) = Some l
       ∧ heap (state (hydrateKey key value s)) !!! l = validateVolumeData value.
Proof.
  intros Hp Ht. unfold hydrateKey.
  rewrite Hp, (prefixes_exclusive _ Hp).
  change (isValidTabId (JNum ?n)) with (negb (isNaN n) && num_lt (num 0) n) in Ht.
  rewrite Ht. unfold alloc, skip. mrun. sproj.
  eexists. rewrite lookup_insert_eq. split; [reflexivity |].
  by rewrite lookup_total_insert_eq.
Qed.

Lemma hydrateKey_url s key value :
  startsWith key "url-volume-" = true →
  remove_first "url-volume-" key ≠ ""%string →
  ∃ l, urlVolumeSettings (state (hydrateKey key value s))
         !! remove_first "url-volume-" key = Some l
       ∧ heap (state (hydrateKey key value s)) !!! l = validateVolumeData value.
Proof.
  intros Hp Hu. unfold hydrateKey.
  assert (startsWith key "tab-volume-" = false) as ->.
  { destruct (startsWith key "tab-volume-") eqn:H; [| done].
    apply prefixes_exclusive in H. congruence. }
  rewrite Hp, (proj2 (truthy_str_true _) Hu). unfold alloc, skip. mrun. sproj.
  eexists. rewrite lookup_insert_eq. split; [reflexivity |].
  by rewrite lookup_total_insert_eq.
Qed.

Lemma validateVolumeData_non_object data :
  (∀ fields, data ≠ JObj fields) → validateVolumeData data = getDefaultVolumeData.
Proof.
  intros H. destruct data as [| |b|n|str|fields]; try done.
  - unfold validateVolumeData. simpl. by destruct b.
  - unfold validateVolumeData. simpl. by destruct (truthy_num n).
  - unfold validateVolumeData. simpl. by destruct (truthy_str str).
  - by destruct (H fields).
Qed.




(* ================================================================== *)
(** * Counting the answers of the router *)
(* ================================================================== *)

Lemma writes_app es1 es2 : writes (es1 ++ es2) = writes es1 ++ writes es2.
Proof. apply omap_app. Qed.
Lemma responses_app es1 es2 : responses (es1 ++ es2) = responses es1 ++ responses es2.
Proof. apply omap_app. Qed.
Lemma calls_app es1 es2 : calls (es1 ++ es2) = calls es1 ++ calls es2.
Proof. apply omap_app. Qed.

Lemma answers_app es1 es2 : answers (es1 ++ es2) = (answers es1 + answers es2)%nat.
Proof.
  unfold answers, responders.
  rewrite responses_app, calls_app, filter_app, !length_app. lia.
Qed.

Lemma answers_cons e es : answers (e :: es) = (answers [e] + answers es)%nat.
Proof. apply (answers_app [e] es). Qed.

Lemma silent_answers es : Forall silent es → answers es = 0%nat.
Proof.
  induction 1 as [|e es He _ IH]; [done |].
  rewrite answers_cons, IH.
  destruct e as [p| | | |]; try done.
  unfold answers, responders. simpl in *. by rewrite He.
Qed.

Lemma storage_only_silent e : storage_only e → silent e.
Proof. by destruct e. Qed.

Lemma saveTabVolume_effects tabId l url s :
  wp storage_only (saveTabVolume tabId l url) (λ _ _, True) s.
Proof. unfold saveTabVolume. wp_run; done. Qed.

Lemma getVolumeDataForTab_effects tabId url s :
  wp storage_only (getVolumeDataForTab tabId url) (λ _ _, True) s.
Proof.
  unfold getVolumeDataForTab. wp_run; try done.
  eapply wp_conseq; [apply saveTabVolume_effects | done |].
  intros ? ? _. by wp_run.
Qed.

Lemma sendMessageToTab_silent tabId m rc s :
  wp silent (sendMessageToTab tabId m rc) (λ _ _, True) s.
Proof. unfold sendMessageToTab. wp_run; done. Qed.

Lemma applyVolumeToTab_silent tabId l s :
  wp silent (applyVolumeToTab tabId l) (λ _ _, True) s.
Proof.
  unfold applyVolumeToTab. wp_run; [done |]. apply sendMessageToTab_silent.
Qed.

Lemma sendMessageCallback_silent tabId m rc e now s :
  wp silent (sendMessageCallback tabId m rc e now) (λ _ _, True) s.
Proof. unfold sendMessageCallback. wp_run; done. Qed.

Lemma processMessageQueue_silent tabId now s :
  wp silent (processMessageQueue tabId now) (λ _ _, True) s.
Proof.
  unfold processMessageQueue. wp_run; try done.
  apply (wp_forEach silent (λ _, True)); [| done].
  intros item s' _ _. unfold processItem. wp_run; try done.
  apply sendMessageToTab_silent.
Qed.

Lemma onStorageLoaded_silent lastError items s :
  wp silent (onStorageLoaded lastError items) (λ _ _, True) s.
Proof.
  unfold onStorageLoaded. wp_run; [done |].
  apply (wp_forEach silent (λ _, True)); [| done].
  intros [key value] s' _ _. unfold hydrateKey. wp_run; done.
Qed.

Lemma answers_of {A} (c : M A) s :
  wp silent c (λ _ _, True) s → answers (effs (c s)) = 0%nat.
Proof. intros [_ H]. by apply silent_answers. Qed.

Lemma answers_of_storage {A} (c : M A) s :
  wp storage_only c (λ _ _, True) s → answers (effs (c s)) = 0%nat.
Proof.
  intros [_ H]. apply silent_answers.
  eapply Forall_impl; [exact storage_only_silent | exact H].
Qed.

(** ** Entry checks of the listener *)

Lemma authorized_guard runtime_id sender :
  truthy_opt truthy_str (sender_id sender)
  && negb (bool_decide (sender_id sender = Some runtime_id)) = false
  ↔ authorized runtime_id sender.
Proof.
  unfold authorized. destruct (sender_id sender) as [x|]; simpl.
  - destruct (truthy_str x) eqn:Hx; simpl.
    + rewrite negb_false_iff, bool_decide_eq_true.
      split; [by auto |]. intros [? | [[= ->] | ?]]; done.
    + split; [| done]. intros _. right; left. f_equal.
      unfold truthy_str in Hx. apply negb_false_iff in Hx.
      by apply String.eqb_eq in Hx.
  - split; [by left | done].
Qed.

Lemma well_formed_guard message :
  negb (truthy message) || negb (String.eqb (typeof message) "object")
  || negb (truthy (prop message "action")) = false
  ↔ well_formed message.
Proof.
  unfold well_formed. split.
  - destruct message as [| |b|n|str|fields]; simpl; try done.
    + by destruct b.
    + by destruct (truthy_num n).
    + by destruct (truthy_str str).
    + intros H%negb_false_iff. by exists fields.
  - intros (fields & -> & H). simpl. by rewrite H.
Qed.

Lemma onMessage_dropped runtime_id message sender throws now s :
  ¬ (authorized runtime_id sender ∧ well_formed message) →
  let r := onMessage runtime_id message sender throws now s in
  val r = false ∧ responses (effs r) = [] ∧ calls (effs r) = [] ∧ state r = s.
Proof.
  intros Hno r. subst r. unfold onMessage.
  destruct (truthy_opt truthy_str (sender_id sender)
            && negb (bool_decide (sender_id sender = Some runtime_id))) eqn:Ha.
  { unfold console. by mrun. }
  apply authorized_guard in Ha.
  destruct (negb (truthy message) || negb (String.eqb (typeof message) "object")
            || negb (truthy (prop message "action"))) eqn:Hw.
  { unfold console. by mrun. }
  apply well_formed_guard in Hw. by destruct Hno.
Qed.

Lemma onMessage_run runtime_id message sender throws now s :
  authorized runtime_id sender → well_formed message →
  let d := dispatch message sender throws now s in
  let r := onMessage runtime_id message sender throws now s in
  val r = default true (val d)
  ∧ state r = state d
  ∧ effs r = effs d ++ match val d with
                       | Some _ => []
                       | None => [SendResponse (Failure "Unknown action")]
                       end.
Proof.
  intros Ha Hw d r. subst r. unfold onMessage.
  rewrite (proj2 (authorized_guard _ _) Ha), (proj2 (well_formed_guard _) Hw).
  mrun. fold d. unfold respond. destruct (val d); by mrun.
Qed.

(** Case analysis on every test of an unfolded handler. *)
Ltac branches :=
  repeat match goal with
         | |- context [if ?b then _ else _] => destruct b eqn:?
         | |- context [match ?x with JBool _ => _ | _ => _ end] => destruct x eqn:?
         end.

(** Counts the answers in a list of effects whose unknown segments come
    from silent functions. *)
Ltac count :=
  unfold console, respond, read, write, alloc; mrun;
  repeat match goal with
         | |- context [answers (?e :: ?es)] =>
             lazymatch es with
             | [] => fail
             | _ => rewrite (answers_cons e es)
             end
         end;
  rewrite ?answers_app;
  rewrite ?(answers_of _ _ (processMessageQueue_silent _ _ _)),
          ?(answers_of_storage _ _ (getVolumeDataForTab_effects _ _ _)),
          ?(answers_of_storage _ _ (saveTabVolume_effects _ _ _ _)),
          ?(answers_of _ _ (applyVolumeToTab_silent _ _ _));
  try reflexivity.

Lemma dispatch_answers message sender now s :
  let d := dispatch message sender None now s in
  (val d = Some true ∧ answers (effs d) = 1%nat)
  ∨ (val d = None ∧ answers (effs d) = 0%nat).
Proof.
  intros d. subst d. unfold dispatch. cbv zeta.
  branches; first [ left; split; [by mrun | count] | right; split; [by mrun | count] ].
Qed.

Lemma mapM_get_silent tabs s :
  wp silent
     (mapM (λ tab : Tab.t,
              do volumeData <- getVolumeDataForTab (default NaN (Tab.id tab))
                                                   (Tab.url tab);
              ret (tab, volumeData)) tabs)
     (λ _ _, True) s.
Proof.
  apply (wp_mapM silent (λ _, True)); [| done].
  intros tab s' _. wp_run.
  eapply wp_conseq;
    [apply getVolumeDataForTab_effects | exact storage_only_silent |].
  intros ? ? _. by wp_run.
Qed.

Lemma silent_no_promise e : silent e → no_promise e.
Proof. by destruct e. Qed.

Lemma no_promise_responders es : Forall no_promise es → responders es = [].
Proof.
  induction 1 as [|e es He _ IH]; [done |].
  destruct e as [p| | | |]; try exact IH.
  unfold responders in *. simpl in *. by rewrite He.
Qed.

Lemma callback_no_promise p reply c s :
  runCallback p reply = Some c → wp no_promise c (λ _ _, True) s.
Proof.
  intros Hc.
  assert (Hsil : ∀ c' : M unit, wp silent c' (λ _ _, True) s →
                                 wp no_promise c' (λ _ _, True) s).
  { intros c' H. eapply wp_conseq; [exact H | exact silent_no_promise | done]. }
  destruct p, reply; simpl in Hc; try discriminate; injection Hc as <-.
  - apply Hsil, onStorageLoaded_silent.
  - apply Hsil, sendMessageCallback_silent.
  - unfold tabsGetCallback. wp_run; [done |].
    eapply wp_conseq; [apply getVolumeDataForTab_effects
                      | intros e He; by destruct e |].
    intros ? ? _. wp_run.
    eapply wp_conseq; [apply saveTabVolume_effects
                      | intros e He; by destruct e |].
    intros ? ? _. wp_run.
    eapply wp_conseq; [apply applyVolumeToTab_silent | exact silent_no_promise |].
    intros ? ? _. by wp_run.
  - unfold tabsQueryCallback. wp_run.
    eapply wp_conseq; [apply mapM_get_silent | exact silent_no_promise |].
    intros ? ? _. by wp_run.
  - apply Hsil, processMessageQueue_silent.
  - apply Hsil, applyVolumeToTab_silent.
Qed.

Lemma callback_answers p reply c s :
  runCallback p reply = Some c →
  answers (effs (c s)) = if is_responder p then 1%nat else 0%nat.
Proof.
  intros Hc.
  destruct p, reply; simpl in Hc; try discriminate; injection Hc as <-; simpl.
  - apply answers_of, onStorageLoaded_silent.
  - apply answers_of, sendMessageCallback_silent.
  - unfold tabsGetCallback. destruct result as [err | tab]; [count |].
    remember (getVolumeDataForTab tabId (Tab.url tab)) as G eqn:HG.
    remember (saveTabVolume tabId) as S eqn:HS.
    remember (applyVolumeToTab tabId) as P eqn:HP.
    cbv beta iota zeta delta [bind gets modify emit ret skip respond read alloc].
    cbn [val state effs app]. subst G S P. count.
  - unfold tabsQueryCallback. count.
    by rewrite (answers_of _ _ (mapM_get_silent _ _)).
  - apply answers_of, processMessageQueue_silent.
  - apply answers_of, applyVolumeToTab_silent.
Qed.

(** C3 (amended).  A message whose sender passes the origin check (no
    sender id, or the extension's own) and that is an object with a
    truthy [action] gets exactly one answer, as long as the platform call
    of its branch does not throw: either the listener answers once
    before it returns [true], or it answers nothing itself and leaves
    exactly one callback holding [sendResponse].  Every such callback
    answers exactly once whatever the platform passes to it, and no
    other callback ever answers.  A message that fails the origin check
    or the shape check is dropped: the listener returns [false], answers
    nothing, starts nothing and leaves the state as it was. *)
Theorem one_response runtime_id message sender now s :
  let r := onMessage runtime_id message sender None now s in
  (authorized runtime_id sender → well_formed message →
     val r = true
     ∧ (length (responses (effs r)) + length (responders (effs r)) = 1)%nat)
  ∧ (¬ (authorized runtime_id sender ∧ well_formed message) →
     val r = false ∧ responses (effs r) = [] ∧ calls (effs r) = []
     ∧ state r = s)
  ∧ (∀ p reply c s', runCallback p reply = Some c →
     length (responses (effs (c s'))) = (if is_responder p then 1 else 0)%nat
     ∧ responders (effs (c s')) = []).
Proof.
  intros r. split_and!.
  - intros Ha Hw.
    destruct (onMessage_run runtime_id message sender None now s Ha Hw)
      as (Hv & _ & He).
    fold r in Hv, He. rewrite Hv, He.
    change (length (responses ?es) + length (responders ?es))%nat
      with (answers es).
    rewrite answers_app.
    destruct (dispatch_answers message sender now s) as [[-> ->] | [-> ->]]; done.
  - apply onMessage_dropped.
  - intros p reply c s' Hc.
    pose proof (callback_answers p reply c s' Hc) as Hn.
    pose proof (callback_no_promise p reply c s' Hc) as [_ Hp].
    apply no_promise_responders in Hp.
    unfold answers in Hn. rewrite Hp in Hn. simpl in Hn.
    split; [lia | exact Hp].
Qed.

(** A request from another extension, and a message without an
    [action], get no answer at all. *)
Lemma one_response_counterexample :
  let r1 := onMessage ext_id (request "getAudioStatus" []) stranger None 0 initial in
  let r2 := onMessage ext_id (JObj [("tabId"%string, JNum (num 42))]) popup None 0 initial in
  (responses (effs r1) = [] ∧ calls (effs r1) = [] ∧ val r1 = false)
  ∧ (responses (effs r2) = [] ∧ calls (effs r2) = [] ∧ val r2 = false).
Proof. vm_compute. split_and!; reflexivity. Qed.

Lemma one_response_witness :
  let r := onMessage ext_id (request "getAudioStatus" []) (content_script 42 "https://a.example/") None 0 initial in
  val r = true
  ∧ (length (responses (effs r)) + length (responders (effs r)) = 1)%nat.
Proof.
  intros r.
  destruct (one_response ext_id (request "getAudioStatus" [])
              (content_script 42 "https://a.example/") 0 initial) as (H & _).
  apply H.
  - right; right. reflexivity.
  - eexists. split; reflexivity.
Defined.

(** When the platform call throws, here on the tab id 1.5, which
    [isValidTabId] lets through, the [catch] clause answers and control
    falls through to the final answer as well. *)
Lemma two_responses_on_throw :
  responses (effs (onMessage ext_id
     (request "updateTabVolume" [("tabId"%string, JNum (Fin (Q2Qc (3 # 2))))])
     popup (Some "TypeError"%string) 0 initial))
  = [Failure "TypeError"; Failure "Unknown action"].
Proof. vm_compute. reflexivity. Qed.

(** Decides the comparisons of a known action with the literals of the
    router. *)
Ltac decide_action :=
  repeat match goal with
         | |- context [is_string (JStr ?a) ?b] =>
             let v := eval vm_compute in (is_string (JStr a) b) in
             change (is_string (JStr a) b) with v
         end;
  cbn [andb orb negb].

Lemma dispatch_updateTabVolume message sender throws now s :
  prop message "action" = JStr "updateTabVolume" →
  let tabId := prop message "tabId" in
  let v := prop message "volume" in
  let m := prop message "muted" in
  let pv := prop message "previousVolume" in
  let reject text reason :=
    mkRes (Some true) s [Console LogError text; SendResponse (Failure reason)] in
  dispatch message sender throws now s =
  if negb (isValidTabId tabId) then
    reject "Invalid tabId in updateTabVolume:"%string "Invalid tabId"%string
  else if negb (is_undefined v) && negb (isValidVolume v) then
    reject "Invalid volume in updateTabVolume:"%string "Invalid volume"%string
  else if negb (is_undefined pv) && negb (isValidVolume pv) then
    reject "Invalid previousVolume in updateTabVolume:"%string
           "Invalid previousVolume"%string
  else if negb (is_undefined m) && negb (String.eqb (typeof m) "boolean") then
    reject "Invalid muted state in updateTabVolume:"%string
           "Invalid muted state"%string
  else
    match throws with
    | Some e => mkRes None s [Console LogError "Error handling message:";
                              SendResponse (Failure e)]
    | None => mkRes (Some true) s
                [Call (PTabsGet (as_num tabId) (opt_num v) (opt_bool m) (opt_num pv))]
    end.
Proof.
  intros Hact. cbv zeta. unfold dispatch. rewrite Hact. decide_action.
  unfold console, respond.
  destruct (negb (isValidTabId (prop message "tabId"))); [by mrun |].
  destruct (negb (is_undefined (prop message "volume"))
            && negb (isValidVolume (prop message "volume"))); [by mrun |].
  destruct (negb (is_undefined (prop message "previousVolume"))
            && negb (isValidVolume (prop message "previousVolume"))); [by mrun |].
  destruct (negb (is_undefined (prop message "muted"))
            && negb (String.eqb (typeof (prop message "muted")) "boolean"));
    [by mrun |].
  destruct throws; by mrun.
Qed.

Lemma is_string_eq a x : is_string a x = true → a = JStr x.
Proof.
  destruct a; try discriminate. simpl. by intros ->%String.eqb_eq.
Qed.

Section Rejection.
Context (runtime_id : string) (message : jsval) (sender : Sender)
        (throws : option string) (now : Z) (s : State).
Hypothesis Hauth : authorized runtime_id sender.
Hypothesis Hshape : well_formed message.

Lemma rejected_by_branch text reason :
  dispatch message sender throws now s
  = mkRes (Some true) s [Console LogError text; SendResponse (Failure reason)] →
  rejected (onMessage runtime_id message sender throws now s) s reason.
Proof.
  intros Hd.
  destruct (onMessage_run runtime_id message sender throws now s Hauth Hshape)
    as (Hv & Hs & He).
  rewrite Hd in Hv, Hs, He. unfold rejected. by rewrite Hv, Hs, He.
Qed.

Lemma rejected_by_fallthrough :
  dispatch message sender throws now s = mkRes None s [] →
  rejected (onMessage runtime_id message sender throws now s) s "Unknown action".
Proof.
  intros Hd.
  destruct (onMessage_run runtime_id message sender throws now s Hauth Hshape)
    as (Hv & Hs & He).
  rewrite Hd in Hv, Hs, He. unfold rejected. by rewrite Hv, Hs, He.
Qed.

Lemma updateTabVolume_rejected :
  prop message "action" = JStr "updateTabVolume" →
  (isValidTabId (prop message "tabId") = false →
   rejected (onMessage runtime_id message sender throws now s) s "Invalid tabId")
  ∧ (isValidTabId (prop message "tabId") = true →
     (prop message "volume" ≠ JUndefined
      ∧ isValidVolume (prop message "volume") = false)
     ∨ (prop message "previousVolume" ≠ JUndefined
        ∧ isValidVolume (prop message "previousVolume") = false)
     ∨ (prop message "muted" ≠ JUndefined
        ∧ ∀ b, prop message "muted" ≠ JBool b) →
     ∃ reason,
       rejected (onMessage runtime_id message sender throws now s) s reason).
Proof.
  intros Hact. pose proof (dispatch_updateTabVolume message sender throws now s Hact)
    as Hd. cbv zeta in Hd.
  split.
  - intros Ht. rewrite Ht in Hd. cbn [negb] in Hd. eapply rejected_by_branch, Hd.
  - intros Ht Hbad. rewrite Ht in Hd. cbn [negb] in Hd.
    destruct (negb (is_undefined (prop message "volume"))
              && negb (isValidVolume (prop message "volume"))) eqn:Hv;
      [eexists; eapply rejected_by_branch, Hd |].
    destruct (negb (is_undefined (prop message "previousVolume"))
              && negb (isValidVolume (prop message "previousVolume"))) eqn:Hpv;
      [eexists; eapply rejected_by_branch, Hd |].
    destruct (negb (is_undefined (prop message "muted"))
              && negb (String.eqb (typeof (prop message "muted")) "boolean"))
      eqn:Hm; [eexists; eapply rejected_by_branch, Hd |].
    exfalso. destruct Hbad as [[H1 H2] | [[H1 H2] | [H1 H2]]].
    + rewrite H2 in Hv. by destruct (prop message "volume").
    + rewrite H2 in Hpv. by destruct (prop message "previousVolume").
    + destruct (prop message "muted") as [| |b| | |]; try done. by destruct (H2 b).
Qed.

Lemma sender_scoped_rejected :
  sender_scoped (prop message "action") = true →
  (truthy_opt truthy_num (sender_tab_id sender) = false →
   rejected (onMessage runtime_id message sender throws now s) s "Unknown action")
  ∧ (truthy_opt truthy_num (sender_tab_id sender) = true →
     isValidTabId (JNum (default NaN (sender_tab_id sender))) = false →
     rejected (onMessage runtime_id message sender throws now s) s "Invalid tabId")
  ∧ (prop message "action" = JStr "updateTabStatus" →
     isValidTabId (JNum (default NaN (sender_tab_id sender))) = true →
     (∀ b, prop message "hasAudio" ≠ JBool b) →
     rejected (onMessage runtime_id message sender throws now s) s
              "Invalid hasAudio value").
Proof.
  intros Hsc. split_and!.
  - intros Hno. apply rejected_by_fallthrough.
    unfold sender_scoped in Hsc.
    apply orb_prop in Hsc as [Hsc | Hsc]; [apply orb_prop in Hsc as [Hsc | Hsc] |];
      apply is_string_eq in Hsc; unfold dispatch; rewrite Hsc, Hno;
      decide_action; reflexivity.
  - intros Hyes Hbad.
    unfold sender_scoped in Hsc.
    apply orb_prop in Hsc as [Hsc | Hsc]; [apply orb_prop in Hsc as [Hsc | Hsc] |];
      apply is_string_eq in Hsc;
      eapply rejected_by_branch; unfold dispatch; rewrite Hsc, Hyes, Hbad;
      decide_action; unfold console, respond; by mrun.
  - intros Hact Hok Hbad.
    assert (truthy_opt truthy_num (sender_tab_id sender) = true) as Hyes.
    { destruct (sender_tab_id sender) as [n|]; [| done].
      simpl in *. destruct n as [| | |q]; try done. simpl.
      unfold num_lt, num in Hok. simpl in Hok.
      apply bool_decide_eq_true in Hok.
      apply negb_true_iff, bool_decide_eq_false. intros Hq.
      apply Qclt_not_eq in Hok. apply Hok. by rewrite Hq. }
    eapply rejected_by_branch. unfold dispatch. rewrite Hact, Hyes, Hok.
    decide_action. unfold console, respond.
    destruct (prop message "hasAudio") as [| |b| | |]; try by mrun.
    by destruct (Hbad b).
Qed.

Lemma unknown_action_rejected :
  recognized (prop message "action") = false →
  rejected (onMessage runtime_id message sender throws now s) s "Unknown action".
Proof.
  intros Hrec. apply rejected_by_fallthrough.
  unfold recognized in Hrec.
  repeat (apply orb_false_elim in Hrec as [Hrec ?]).
  unfold dispatch.
  repeat match goal with H : is_string _ _ = false |- _ => rewrite H; clear H end.
  reflexivity.
Qed.

End Rejection.

(* ================================================================== *)
(** * The [updateTabVolume] callback *)
(* ================================================================== *)

Lemma storage_only_calls es :
  Forall storage_only es → calls es = [] ∧ responses es = [] ∧ sent es = [].
Proof.
  induction 1 as [|e es He _ IH]; [done |].
  destruct e; try done; simpl in *; exact IH.
Qed.

Lemma tabsGetCallback_ok s tabId v m pv tab :
  isValidTabId (JNum tabId) = true →
  let g := getVolumeDataForTab tabId (Tab.url tab) s in
  let new := merged (heap (state g) !!! val g) v m pv in
  let r := tabsGetCallback tabId v m pv (inr tab) s in
  ∃ l, tabVolumeSettings (state r) !! tabId = Some l
    ∧ heap (state r) !!! l
      = match Tab.url tab with
        | Some u => if truthy_str u then set_tabUrl u new else new
        | None => new
        end
    ∧ writes (effs r)
      = writes (effs g) ++ (TabKey tabId, new)
        :: match Tab.url tab with
           | Some u => if truthy_str u then [(UrlKey u, set_tabUrl u new)] else []
           | None => []
           end
    ∧ sent (effs r)
      = [(tabId, Cmd.mk (if muted new then "toggleMute" else "setVolume")
                        (volume new) (muted new) (previousVolume new), 0)]
    ∧ responses (effs r) = [Success].
Proof.
  intros Ht g new r.
  destruct (getVolumeDataForTab_effects tabId (Tab.url tab) s) as [_ Hg].
  apply storage_only_calls in Hg as (Hgc & Hgr & Hgs). fold g in Hgc, Hgr, Hgs.
  exists (fresh (dom (heap (state g)))).
  subst r. unfold tabsGetCallback, read, alloc, respond.
  remember (getVolumeDataForTab tabId (Tab.url tab)) as G eqn:HG.
  remember (saveTabVolume tabId) as S eqn:HS.
  remember (applyVolumeToTab tabId) as P eqn:HP.
  cbv beta iota zeta delta [bind gets modify emit ret skip].
  cbn [val state effs app]. subst G S P. fold g.
  rewrite saveTabVolume_run by done. sproj.
  rewrite !lookup_total_insert_eq. fold (merged (heap (state g) !!! val g) v m pv).
  fold new.
  unfold applyVolumeToTab. rewrite Ht. cbn [negb]. unfold read.
  destruct (Tab.url tab) as [u|]; [destruct (truthy_str u) |];
    mrun; sproj; rewrite ?lookup_total_insert_eq, ?lookup_insert_eq;
    (rewrite sendMessageToTab_run;
       [| done | simpl; by destruct (default (muted (heap (state g) !!! val g)) m)]);
    cbn [val state effs app]; sproj;
    rewrite ?lookup_total_insert_eq, ?lookup_insert_eq;
    rewrite ?writes_app, ?sent_app, ?responses_app, Hgr, Hgs;
    split_and!; try done.
Qed.

(* ================================================================== *)
(** * Validation in the router *)
(* ================================================================== *)

(** C4 (amended).  For a message that passes the entry checks of the
    listener (authorized sender, object with a truthy [action]):
    an [updateTabVolume] request with an invalid [tabId], or with a
    provided [volume] or [previousVolume] that is not a number in
    [0, 100], or with a provided [muted] that is not a boolean; a
    sender-scoped request ([contentScriptReady], [getAudioStatus],
    [updateTabStatus]) whose sender has no tab id or an invalid one; and
    an [updateTabStatus] request whose [hasAudio] is not a boolean: each
    is answered [{success: false, error}] at once, and neither mapping,
    nor any record, nor the store is changed.  A message whose action is
    none of the five recognized strings is answered
    [{success: false, error: "Unknown action"}]. *)
Theorem malformed_rejected runtime_id message sender throws now s :
  authorized runtime_id sender → well_formed message →
  let r := onMessage runtime_id message sender throws now s in
  let action := prop message "action" in
  let tid := sender_tab_id sender in
  (action = JStr "updateTabVolume" →
     (isValidTabId (prop message "tabId") = false → rejected r s "Invalid tabId")
     ∧ (isValidTabId (prop message "tabId") = true →
        (prop message "volume" ≠ JUndefined
         ∧ isValidVolume (prop message "volume") = false)
        ∨ (prop message "previousVolume" ≠ JUndefined
           ∧ isValidVolume (prop message "previousVolume") = false)
        ∨ (prop message "muted" ≠ JUndefined
           ∧ ∀ b, prop message "muted" ≠ JBool b) →
        ∃ reason, rejected r s reason))
  ∧ (sender_scoped action = true →
     (truthy_opt truthy_num tid = false → rejected r s "Unknown action")
     ∧ (truthy_opt truthy_num tid = true →
        isValidTabId (JNum (default NaN tid)) = false →
        rejected r s "Invalid tabId")
     ∧ (action = JStr "updateTabStatus" →
        isValidTabId (JNum (default NaN tid)) = true →
        (∀ b, prop message "hasAudio" ≠ JBool b) →
        rejected r s "Invalid hasAudio value"))
  ∧ (recognized action = false → rejected r s "Unknown action").
Proof.
  intros Ha Hw r action tid. split_and!.
  - by apply updateTabVolume_rejected.
  - by apply sender_scoped_rejected.
  - by apply unknown_action_rejected.
Qed.

Lemma malformed_rejected_witness :
  rejected (onMessage ext_id (request "bogus" []) popup None 0 one_record)
           one_record "Unknown action".
Proof.
  destruct (malformed_rejected ext_id (request "bogus" []) popup None 0 one_record)
    as (_ & _ & H).
  - right; right. reflexivity.
  - eexists. split; reflexivity.
  - apply H. reflexivity.
Defined.

(** An unrecognized action gets no answer when it comes from another
    extension, nor when it is the empty string. *)
Lemma malformed_rejected_counterexample :
  let r1 := onMessage ext_id (request "bogus" []) stranger None 0 initial in
  let r2 := onMessage ext_id (request "" []) popup None 0 initial in
  recognized (JStr "bogus") = false ∧ responses (effs r1) = []
  ∧ recognized (JStr "") = false ∧ responses (effs r2) = [].
Proof. vm_compute. split_and!; reflexivity. Qed.

Lemma updateTabVolume_accepted runtime_id message sender now s :
  authorized runtime_id sender → well_formed message →
  prop message "action" = JStr "updateTabVolume" →
  isValidTabId (prop message "tabId") = true →
  prop message "volume" = JUndefined ∨ isValidVolume (prop message "volume") = true →
  prop message "previousVolume" = JUndefined
    ∨ isValidVolume (prop message "previousVolume") = true →
  prop message "muted" = JUndefined ∨ (∃ b, prop message "muted" = JBool b) →
  let r := onMessage runtime_id message sender None now s in
  val r = true ∧ state r = s
  ∧ effs r = [Call (PTabsGet (as_num (prop message "tabId"))
                             (opt_num (prop message "volume"))
                             (opt_bool (prop message "muted"))
                             (opt_num (prop message "previousVolume")))].
Proof.
  intros Ha Hw Hact Ht Hv Hpv Hm r.
  destruct (onMessage_run runtime_id message sender None now s Ha Hw)
    as (Hval & Hst & Hef).
  fold r in Hval, Hst, Hef.
  pose proof (dispatch_updateTabVolume message sender None now s Hact) as Hd.
  cbv zeta in Hd. rewrite Ht in Hd. cbn [negb] in Hd.
  assert (negb (is_undefined (prop message "volume"))
          && negb (isValidVolume (prop message "volume")) = false) as Hv'.
  { destruct Hv as [-> | ->]; [done | apply andb_false_r]. }
  assert (negb (is_undefined (prop message "previousVolume"))
          && negb (isValidVolume (prop message "previousVolume")) = false) as Hpv'.
  { destruct Hpv as [-> | ->]; [done | apply andb_false_r]. }
  assert (negb (is_undefined (prop message "muted"))
          && negb (String.eqb (typeof (prop message "muted")) "boolean") = false)
    as Hm'.
  { by destruct Hm as [-> | [b ->]]. }
  rewrite Hv', Hpv', Hm' in Hd.
  rewrite Hd in Hval, Hst, Hef. by rewrite Hval, Hst, Hef.
Qed.

(** C5 (amended).  [isValidVolume] accepts exactly the numbers
    [0 <= v <= 100].  In an [updateTabVolume] request for a valid tab, a
    provided [volume] that it does not accept makes the router reject the
    request: the stored volume, like the rest of the state, is unchanged.
    The request is rejected as a whole as well when its [volume] is valid
    but its [previousVolume] or [muted] is not: no field takes effect.
    When every provided field is valid, the request is passed on unchanged
    and, once the tab is found, its [volume] is the one stored. *)
Theorem volume_validation runtime_id message sender now s :
  authorized runtime_id sender → well_formed message →
  prop message "action" = JStr "updateTabVolume" →
  isValidTabId (prop message "tabId") = true →
  let r := onMessage runtime_id message sender None now s in
  let tabId := as_num (prop message "tabId") in
  let v := prop message "volume" in
  let pv := prop message "previousVolume" in
  let m := prop message "muted" in
  (∀ x, isValidVolume x = true
        ↔ ∃ q : Qc, x = JNum (Fin q) ∧ (0 ≤ q)%Qc ∧ (q ≤ Q2Qc 100)%Qc)
  ∧ (v ≠ JUndefined → isValidVolume v = false → rejected r s "Invalid volume")
  ∧ ((pv ≠ JUndefined ∧ isValidVolume pv = false)
     ∨ (m ≠ JUndefined ∧ ∀ b, m ≠ JBool b) →
     ∃ reason, rejected r s reason)
  ∧ (∀ n, v = JNum n → isValidVolume v = true →
     pv = JUndefined ∨ isValidVolume pv = true →
     m = JUndefined ∨ (∃ b, m = JBool b) →
     effs r = [Call (PTabsGet tabId (Some n) (opt_bool m) (opt_num pv))]
     ∧ state r = s
     ∧ ∀ s' tab,
         let c := tabsGetCallback tabId (Some n) (opt_bool m) (opt_num pv)
                                  (inr tab) s' in
         ∃ l, tabVolumeSettings (state c) !! tabId = Some l
              ∧ volume (heap (state c) !!! l) = n).
Proof.
  intros Ha Hw Hact Ht r tabId v pv m. split_and!.
  - apply isValidVolume_spec.
  - intros Hdef Hbad.
    pose proof (dispatch_updateTabVolume message sender None now s Hact) as Hd.
    cbv zeta in Hd. rewrite Ht in Hd. cbn [negb] in Hd.
    fold v in Hd. rewrite Hbad in Hd.
    assert (is_undefined v = false) as Hu by (by destruct v).
    rewrite Hu in Hd. cbn [negb andb] in Hd.
    eapply rejected_by_branch; eauto.
  - intros Hbad.
    destruct (updateTabVolume_rejected runtime_id message sender None now s
                Ha Hw Hact) as [_ H].
    apply H; [done |]. by right.
  - intros n Hn Hvalid Hpv Hm.
    destruct (updateTabVolume_accepted runtime_id message sender now s
                Ha Hw Hact Ht (or_intror Hvalid) Hpv Hm) as (_ & Hst & Hef).
    fold r v pv m tabId in Hst, Hef. rewrite Hn in Hef. simpl in Hef.
    split_and!; [exact Hef | exact Hst |].
    intros s' tab c.
    assert (isValidTabId (JNum tabId) = true) as Ht'.
    { subst tabId. by destruct (prop message "tabId"). }
    destruct (tabsGetCallback_ok s' tabId (Some n) (opt_bool m) (opt_num pv) tab Ht')
      as (l & Hl & Hrec & _).
    exists l. split; [exact Hl |]. fold c in Hrec. rewrite Hrec.
    destruct (Tab.url tab) as [u|]; [destruct (truthy_str u) |]; reflexivity.
Qed.

Lemma volume_validation_witness :
  rejected (onMessage ext_id
              (request "updateTabVolume" [tabId_42; ("volume"%string, JNum (num 150))])
              popup None 0 one_record)
           one_record "Invalid volume".
Proof.
  destruct (volume_validation ext_id
              (request "updateTabVolume" [tabId_42; ("volume"%string, JNum (num 150))])
              popup 0 one_record) as (_ & H & _).
  - right; right. reflexivity.
  - eexists. split; reflexivity.
  - reflexivity.
  - vm_compute. reflexivity.
  - apply H; [discriminate | vm_compute; reflexivity].
Defined.

(** With volume 80 stored, a request carrying the valid volume 50 and
    the invalid previousVolume 200 is refused as a whole: the stored
    volume is still 80. *)
Lemma volume_validation_counterexample :
  let s := prog (after volume_80) in
  let r := onMessage ext_id half_valid popup None 0 s in
  isValidVolume (prop half_valid "volume") = true
  ∧ (volume <$> record_42 s) = Some (num 80)
  ∧ responses (effs r) = [Failure "Invalid previousVolume"]
  ∧ calls (effs r) = []
  ∧ (volume <$> record_42 (state r)) = Some (num 80).
Proof. vm_compute. split_and!; reflexivity. Qed.

(* ================================================================== *)
(** * Merging a volume update *)
(* ================================================================== *)

(** C2 (amended).  When the callback of an [updateTabVolume] request
    finds the tab, the record it stores under the tab id takes [volume],
    [muted] and [previousVolume] from the request where it provides
    them and from the existing record (the one the cache lookup returns)
    where it does not, and keeps the existing [isPlaying].  [hasAudio] is
    set to [true] whatever its prior value, and [tabUrl] becomes the
    tab's current URL when it has a non-empty one.  The record is written
    to the store under the tab key, and under the address key when the
    tab has a non-empty URL, and the request is answered with success. *)
Theorem updateTabVolume_merge s tabId v m pv tab :
  isValidTabId (JNum tabId) = true →
  let g := getVolumeDataForTab tabId (Tab.url tab) s in
  let old := heap (state g) !!! val g in
  let r := tabsGetCallback tabId v m pv (inr tab) s in
  ∃ l saved,
    tabVolumeSettings (state r) !! tabId = Some l
    ∧ volume (heap (state r) !!! l) = default (volume old) v
    ∧ muted (heap (state r) !!! l) = default (muted old) m
    ∧ previousVolume (heap (state r) !!! l) = default (previousVolume old) pv
    ∧ isPlaying (heap (state r) !!! l) = isPlaying old
    ∧ hasAudio (heap (state r) !!! l) = true
    ∧ tabUrl (heap (state r) !!! l)
      = match Tab.url tab with
        | Some u => if String.eqb u "" then tabUrl old else Some u
        | None => tabUrl old
        end
    ∧ (TabKey tabId, saved) ∈ writes (effs r)
    ∧ volume saved = default (volume old) v
    ∧ muted saved = default (muted old) m
    ∧ previousVolume saved = default (previousVolume old) pv
    ∧ hasAudio saved = true
    ∧ (∀ u, Tab.url tab = Some u → u ≠ ""%string →
         (UrlKey u, heap (state r) !!! l) ∈ writes (effs r))
    ∧ responses (effs r) = [Success].
Proof.
  intros Ht g old r.
  destruct (tabsGetCallback_ok s tabId v m pv tab Ht)
    as (l & Hl & Hrec & Hw & _ & Hresp).
  fold g old r in Hl, Hrec, Hw, Hresp.
  exists l, (merged old v m pv).
  rewrite Hrec, Hw. unfold truthy_str.
  split_and!; try done.
  all: try by destruct (Tab.url tab) as [u|]; [destruct (String.eqb u "") |].
  - apply elem_of_app. right. left.
  - intros u -> Hu. apply String.eqb_neq in Hu. rewrite Hu. simpl.
    apply elem_of_app. right. right. left.
Qed.

Lemma updateTabVolume_merge_witness :
  let r := tabsGetCallback (num 42) (Some (num 50)) None None
             (inr (page 42 "https://a.example/")) one_record in
  ∃ l, tabVolumeSettings (state r) !! num 42 = Some l
       ∧ volume (heap (state r) !!! l) = num 50
       ∧ muted (heap (state r) !!! l) = true
       ∧ previousVolume (heap (state r) !!! l) = num 80.
Proof.
  intros r.
  destruct (updateTabVolume_merge one_record (num 42) (Some (num 50)) None None
              (page 42 "https://a.example/"))
    as (l & saved & Hl & Hv & Hm & Hpv & _).
  - vm_compute. reflexivity.
  - exists l. split_and!; [exact Hl | exact Hv | exact Hm | exact Hpv].
Defined.

(** A record with [hasAudio: false] has it set to [true] by a request
    that only provides a volume. *)
Lemma updateTabVolume_merge_counterexample :
  let before := prog (after no_audio) in
  let later := prog (after (no_audio ++ then_volume_50)) in
  (hasAudio <$> record_42 before) = Some false
  ∧ (hasAudio <$> record_42 later) = Some true
  ∧ (volume <$> record_42 later) = Some (num 50).
Proof. vm_compute. split_and!; reflexivity. Qed.

(** C1 (amended).  An [updateTabVolume] request that provides a valid
    [tabId] and [volume: 0] but no [muted] field is passed on with the
    volume 0 and no mute flag.  Once the tab is found, the stored record
    has volume 0, while [muted] keeps the value of the existing record,
    and so does [previousVolume] unless the request provides one.  The
    command delivered carries these three values; its action is
    [toggleMute] if the existing record was muted and [setVolume] if it
    was not. *)
Theorem volume_zero_keeps_mute runtime_id message sender now s :
  authorized runtime_id sender → well_formed message →
  prop message "action" = JStr "updateTabVolume" →
  isValidTabId (prop message "tabId") = true →
  prop message "volume" = JNum (num 0) →
  prop message "muted" = JUndefined →
  prop message "previousVolume" = JUndefined
    ∨ isValidVolume (prop message "previousVolume") = true →
  let tabId := as_num (prop message "tabId") in
  let pv := opt_num (prop message "previousVolume") in
  let r := onMessage runtime_id message sender None now s in
  effs r = [Call (PTabsGet tabId (Some (num 0)) None pv)]
  ∧ state r = s
  ∧ ∀ s' tab,
      let g := getVolumeDataForTab tabId (Tab.url tab) s' in
      let old := heap (state g) !!! val g in
      let c := tabsGetCallback tabId (Some (num 0)) None pv (inr tab) s' in
      ∃ l, tabVolumeSettings (state c) !! tabId = Some l
           ∧ volume (heap (state c) !!! l) = num 0
           ∧ muted (heap (state c) !!! l) = muted old
           ∧ previousVolume (heap (state c) !!! l) = default (previousVolume old) pv
           ∧ sent (effs c)
             = [(tabId,
                 {| Cmd.action := if muted old then "toggleMute" else "setVolume";
                    Cmd.volume := num 0;
                    Cmd.muted := muted old;
                    Cmd.previousVolume := default (previousVolume old) pv |},
                 0)].
Proof.
  intros Ha Hw Hact Ht Hv Hm Hpv tabId pv r.
  destruct (updateTabVolume_accepted runtime_id message sender now s
              Ha Hw Hact Ht) as (_ & Hst & Hef).
  { right. rewrite Hv. by vm_compute. }
  { exact Hpv. }
  { by left. }
  fold r in Hst, Hef. rewrite Hv, Hm in Hef. simpl in Hef.
  split_and!; [exact Hef | exact Hst |].
  intros s' tab g old c.
  assert (isValidTabId (JNum tabId) = true) as Ht'.
  { subst tabId. by destruct (prop message "tabId"). }
  destruct (tabsGetCallback_ok s' tabId (Some (num 0)) None pv tab Ht')
    as (l & Hl & Hrec & _ & Hsent & _).
  fold g old c in Hl, Hrec, Hsent.
  exists l. rewrite Hrec, Hsent.
  split_and!; try done;
    by destruct (Tab.url tab) as [u|]; [destruct (truthy_str u) |].
Qed.

Lemma volume_zero_keeps_mute_witness :
  let message := request "updateTabVolume"
                         [tabId_42; ("volume"%string, JNum (num 0))] in
  effs (onMessage ext_id message popup None 0 one_record)
  = [Call (PTabsGet (num 42) (Some (num 0)) None None)].
Proof.
  intros message.
  destruct (volume_zero_keeps_mute ext_id message popup 0 one_record)
    as (H & _).
  - right; right. reflexivity.
  - eexists. split; reflexivity.
  - reflexivity.
  - vm_compute. reflexivity.
  - reflexivity.
  - reflexivity.
  - by left.
  - exact H.
Defined.

(** On a fresh coordinator, [updateTabVolume({tabId: 42, volume: 0})]
    stores a record that is not muted and delivers [setVolume]. *)
Lemma volume_zero_keeps_mute_counterexample :
  let s := prog (after zero_volume) in
  (volume <$> record_42 s) = Some (num 0)
  ∧ (muted <$> record_42 s) = Some false
  ∧ inflight (after zero_volume)
    = [PTabsSendMessage (num 42)
         {| Cmd.action := "setVolume"; Cmd.volume := num 0;
            Cmd.muted := false; Cmd.previousVolume := num 100 |} 0].
Proof. vm_compute. split_and!; reflexivity. Qed.

(* ================================================================== *)
(** * The empty address is never a key *)
(* ================================================================== *)

Lemma addresses_insert (s : State) u l :
  addresses_nonempty s → truthy_str u = true →
  <[u := l]> (urlVolumeSettings s) !! ""%string = None.
Proof.
  intros Hs Hu%truthy_str_true. by rewrite lookup_insert_ne.
Qed.

(** Closes the state goals of this pass: only an insertion under a
    truthy key changes the address mapping. *)
Ltac addr_auto :=
  lazymatch goal with
  | |- addresses_nonempty _ =>
      unfold addresses_nonempty in *; cbn;
      first [ assumption | by apply addresses_insert ]
  | |- _ => idtac
  end.

Ltac addr_call lem :=
  lazymatch goal with
  | |- wp _ (bind _ _) _ _ => apply wp_bind
  | |- _ => idtac
  end;
  eapply wp_conseq; [apply lem | done | cbv beta; intros ? ? ?].

Lemma wp_mapM_in {A B} E (I : State → Prop) (l : list A) (f : A → M B) s :
  (∀ x s', x ∈ l → I s' → wp E (f x) (λ _, I) s') →
  I s → wp E (mapM f l) (λ _, I) s.
Proof.
  revert s. induction l as [|x l IH]; intros s Hf Hs; simpl.
  - by apply wp_ret.
  - apply wp_bind. eapply wp_conseq; [apply Hf; [left | exact Hs] | done |].
    intros b s' Hs'. apply wp_bind.
    eapply wp_conseq; [apply IH; [| exact Hs'] | done |].
    + intros y s'' Hy. apply Hf. by right.
    + intros bs s'' Hs''. by apply wp_ret.
Qed.

Lemma valid_tab_as_num v :
  isValidTabId v = true → isValidTabId (JNum (as_num v)) = true.
Proof. by destruct v. Qed.

Lemma saveTabVolume_addresses tabId l url s :
  addresses_nonempty s →
  wp guarded (saveTabVolume tabId l url) (λ _, addresses_nonempty) s.
Proof.
  intros Hs. unfold saveTabVolume. wp_run; addr_auto.
Qed.

Lemma getVolumeDataForTab_addresses tabId url s :
  isValidTabId (JNum tabId) = true → addresses_nonempty s →
  wp guarded (getVolumeDataForTab tabId url) (λ _, addresses_nonempty) s.
Proof.
  intros Ht Hs. unfold getVolumeDataForTab. rewrite Ht. cbn [negb].
  wp_run; addr_auto.
  addr_call saveTabVolume_addresses; [addr_auto |]. by wp_run.
Qed.

Lemma sendMessageToTab_addresses tabId m rc s :
  addresses_nonempty s →
  wp guarded (sendMessageToTab tabId m rc) (λ _, addresses_nonempty) s.
Proof.
  intros Hs. unfold sendMessageToTab. wp_run; addr_auto.
Qed.

Lemma applyVolumeToTab_addresses tabId l s :
  addresses_nonempty s →
  wp guarded (applyVolumeToTab tabId l) (λ _, addresses_nonempty) s.
Proof.
  intros Hs. unfold applyVolumeToTab. wp_run; [done |].
  by apply sendMessageToTab_addresses.
Qed.

Lemma sendMessageCallback_addresses tabId m rc e now s :
  addresses_nonempty s →
  wp guarded (sendMessageCallback tabId m rc e now) (λ _, addresses_nonempty) s.
Proof.
  intros Hs. unfold sendMessageCallback. wp_run; addr_auto.
Qed.

Lemma processItem_addresses tabId now item s :
  addresses_nonempty s →
  wp guarded (processItem tabId now item) (λ _, addresses_nonempty) s.
Proof.
  intros Hs. unfold processItem. wp_run; addr_auto.
  by apply sendMessageToTab_addresses.
Qed.

Lemma processMessageQueue_addresses tabId now s :
  addresses_nonempty s →
  wp guarded (processMessageQueue tabId now) (λ _, addresses_nonempty) s.
Proof.
  intros Hs. unfold processMessageQueue. wp_run; addr_auto.
  apply wp_forEach; [| addr_auto].
  intros item s' _ Hs'. by apply processItem_addresses.
Qed.

Lemma onInterval_addresses clock s :
  addresses_nonempty s →
  wp guarded (onInterval clock) (λ _, addresses_nonempty) s.
Proof.
  intros Hs. unfold onInterval. wp_run.
  apply wp_forEach; [| done].
  intros tabId s' _ Hs'. by apply processMessageQueue_addresses.
Qed.

Lemma hydrateKey_addresses key value s :
  addresses_nonempty s →
  wp guarded (hydrateKey key value) (λ _, addresses_nonempty) s.
Proof.
  intros Hs. unfold hydrateKey. wp_run; addr_auto.
Qed.

Lemma onStorageLoaded_addresses lastError items s :
  addresses_nonempty s →
  wp guarded (onStorageLoaded lastError items) (λ _, addresses_nonempty) s.
Proof.
  intros Hs. unfold onStorageLoaded. wp_run; [done |].
  apply wp_forEach; [| done].
  intros [key value] s' _ Hs'. by apply hydrateKey_addresses.
Qed.

Lemma onRemoved_addresses tabId s :
  addresses_nonempty s →
  wp guarded (onRemoved tabId) (λ _, addresses_nonempty) s.
Proof.
  intros Hs. unfold onRemoved. wp_run; addr_auto.
Qed.

Lemma onUpdated_addresses tabId changeInfo tab s :
  addresses_nonempty s →
  wp guarded (onUpdated tabId changeInfo tab) (λ _, addresses_nonempty) s.
Proof.
  intros Hs. unfold onUpdated.
  destruct (isValidTabId (JNum tabId)) eqn:Ht; cbn [negb]; [| by wp_run].
  wp_run; try done.
  all: try (addr_call getVolumeDataForTab_addresses; [done | addr_auto |]; wp_run).
  all: try (addr_call saveTabVolume_addresses; [addr_auto |]; wp_run).
  all: addr_auto.
Qed.

Lemma tabsGetCallback_addresses tabId v m pv result s :
  isValidTabId (JNum tabId) = true → addresses_nonempty s →
  wp guarded (tabsGetCallback tabId v m pv result) (λ _, addresses_nonempty) s.
Proof.
  intros Ht Hs. unfold tabsGetCallback. wp_run; [done |].
  addr_call getVolumeDataForTab_addresses; [done | done |]. wp_run.
  addr_call saveTabVolume_addresses; [addr_auto |].
  addr_call applyVolumeToTab_addresses; [done |]. by wp_run.
Qed.

Lemma tabsQueryCallback_addresses tabs s :
  addresses_nonempty s →
  wp guarded (tabsQueryCallback tabs) (λ _, addresses_nonempty) s.
Proof.
  intros Hs. unfold tabsQueryCallback. wp_run.
  eapply wp_conseq; [apply (wp_mapM_in guarded addresses_nonempty) | done |].
  - intros tab s' Hin Hs'. wp_run.
    apply list_elem_of_In, filter_In in Hin as [_ Hcond].
    apply andb_prop in Hcond as [Hcond _].
    apply andb_prop in Hcond as [_ Hvalid].
    addr_call getVolumeDataForTab_addresses; [done | done |]. by wp_run.
  - done.
  - cbv beta. intros ? ? ?. by wp_run.
Qed.

Lemma dispatch_addresses message sender throws now s :
  addresses_nonempty s →
  wp guarded (dispatch message sender throws now) (λ _, addresses_nonempty) s.
Proof.
  intros Hs. unfold dispatch. wp_run; try done.
  - addr_call processMessageQueue_addresses; [done |]. by wp_run.
  - by apply valid_tab_as_num, negb_false_iff.
  - addr_call getVolumeDataForTab_addresses;
      [by apply negb_false_iff | done |]. by wp_run.
  - addr_call getVolumeDataForTab_addresses;
      [by apply negb_false_iff | done |]. wp_run.
    addr_call saveTabVolume_addresses; [addr_auto |]. by wp_run.
Qed.

Lemma onMessage_addresses runtime_id message sender throws now s :
  addresses_nonempty s →
  wp guarded (onMessage runtime_id message sender throws now)
     (λ _, addresses_nonempty) s.
Proof.
  intros Hs. unfold onMessage. wp_run; try done.
  addr_call dispatch_addresses; [done |]. by wp_run.
Qed.

Lemma runCallback_addresses p reply c s :
  guarded_pending p → runCallback p reply = Some c →
  addresses_nonempty s → wp guarded c (λ _, addresses_nonempty) s.
Proof.
  intros Hp Hc Hs.
  destruct p, reply; simpl in Hc; try discriminate; injection Hc as <-.
  - by apply onStorageLoaded_addresses.
  - by apply sendMessageCallback_addresses.
  - by apply tabsGetCallback_addresses.
  - by apply tabsQueryCallback_addresses.
  - by apply processMessageQueue_addresses.
  - by apply applyVolumeToTab_addresses.
Qed.

Lemma calls_guarded es : Forall guarded es → Forall guarded_pending (calls es).
Proof.
  induction 1 as [|e es He _ IH]; [constructor |].
  unfold calls in *. destruct e; simpl; try exact IH.
  constructor; [exact He | exact IH].
Qed.

Lemma step_addresses runtime_id sys ev sys' es :
  addresses_nonempty (prog sys) → Forall guarded_pending (inflight sys) →
  step runtime_id sys ev = Some (sys', es) →
  addresses_nonempty (prog sys') ∧ Forall guarded_pending (inflight sys')
  ∧ Forall guarded es.
Proof.
  intros Hs Hp Hstep.
  assert (Hfin : ∀ A (old : list Pending) (r : Res A),
             Forall guarded_pending old →
             addresses_nonempty (state r) ∧ Forall guarded (effs r) →
             addresses_nonempty (state r)
             ∧ Forall guarded_pending (old ++ calls (effs r))
             ∧ Forall guarded (effs r)).
  { intros A old r Hold [HI HE]. split; [exact HI |]. split; [| exact HE].
    apply Forall_app; split; [exact Hold | by apply calls_guarded]. }
  destruct ev as [tabId ci tab | tabId | message sender throws now | clock | i reply];
    simpl in Hstep.
  - injection Hstep as <- <-. apply Hfin; [done | by apply onUpdated_addresses].
  - injection Hstep as <- <-. apply Hfin; [done | by apply onRemoved_addresses].
  - injection Hstep as <- <-. apply Hfin; [done | by apply onMessage_addresses].
  - injection Hstep as <- <-. apply Hfin; [done | by apply onInterval_addresses].
  - destruct (inflight sys !! i) as [p|] eqn:Hi; [| discriminate].
    destruct (runCallback p reply) as [c|] eqn:Hc; [| discriminate].
    injection Hstep as <- <-. apply Hfin.
    + by apply Forall_delete.
    + eapply runCallback_addresses; [| exact Hc | exact Hs].
      eapply Forall_lookup_1; eauto.
Qed.

Lemma reachable_addresses runtime_id sys :
  reachable runtime_id sys →
  addresses_nonempty (prog sys) ∧ Forall guarded_pending (inflight sys).
Proof.
  induction 1 as [| sys ev sys' es _ [IH1 IH2] Hstep].
  - split; [done | by repeat constructor].
  - destruct (step_addresses _ _ _ _ _ IH1 IH2 Hstep) as (? & ? & _). by split.
Qed.

(** With an invalid tab id the guard logs its warning. *)
Lemma getVolumeDataForTab_guard tabId url s :
  isValidTabId (JNum tabId) = false →
  effs (getVolumeDataForTab tabId url s) = [Console LogWarn lookup_guard_warning].
Proof.
  intros Ht. unfold getVolumeDataForTab. rewrite Ht. reflexivity.
Qed.

(* ================================================================== *)
(** * The lookup order of the state cache *)
(* ================================================================== *)

Lemma lookup_cases s tabId url :
  addresses_nonempty s → isValidTabId (JNum tabId) = true →
  let r := getVolumeDataForTab tabId url s in
  (∀ l, tabVolumeSettings s !! tabId = Some l →
        val r = l ∧ state r = s ∧ effs r = [])
  ∧ (∀ u l, tabVolumeSettings s !! tabId = None →
        url = Some u → urlVolumeSettings s !! u = Some l →
        val r = l
        ∧ heap (state r) !!! l = set_tabUrl u (heap s !!! l)
        ∧ tabVolumeSettings (state r) !! tabId = Some l
        ∧ writes (effs r) = [(TabKey tabId, heap s !!! l);
                             (UrlKey u, set_tabUrl u (heap s !!! l))]
        ∧ getVolumeDataForTab tabId None (state r) = mkRes l (state r) [])
  ∧ (tabVolumeSettings s !! tabId = None →
     (∀ u, url = Some u → urlVolumeSettings s !! u = None) →
     heap (state r) !!! val r = getDefaultVolumeData
     ∧ tabVolumeSettings (state r) = tabVolumeSettings s
     ∧ urlVolumeSettings (state r) = urlVolumeSettings s
     ∧ writes (effs r) = []).
Proof.
  intros Hs Ht r. subst r. split_and!.
  - intros l Hl. unfold getVolumeDataForTab. rewrite Ht. cbn [negb]. mrun.
    rewrite Hl. by mrun.
  - intros u l Htab -> Hurl.
    assert (Hu : u ≠ ""%string).
    { intros ->. unfold addresses_nonempty in Hs. by rewrite Hs in Hurl. }
    unfold getVolumeDataForTab. rewrite Ht. cbn [negb]. mrun.
    rewrite Htab. mrun. unfold url_entry.
    rewrite (proj2 (truthy_str_true u) Hu), Hurl. mrun.
    rewrite saveTabVolume_run by done.
    rewrite (proj2 (truthy_str_true u) Hu). cbn [val state effs app].
    split_and!; try done.
    + simpl. by rewrite lookup_total_insert_eq.
    + simpl. by rewrite lookup_insert_eq.
    + mrun. cbn [tabVolumeSettings with_urlVolumeSettings with_heap
                 with_tabVolumeSettings].
      rewrite lookup_insert_eq. by mrun.
  - intros Htab Hurl.
    assert (url_entry (urlVolumeSettings s) url = None) as Hentry.
    { unfold url_entry. destruct url as [u|]; [| done].
      destruct (truthy_str u); [by apply Hurl | done]. }
    unfold getVolumeDataForTab. rewrite Ht. cbn [negb]. mrun.
    rewrite Htab. mrun. rewrite Hentry. unfold alloc. cbn [val state effs].
    split_and!; try done.
    simpl. by rewrite lookup_total_insert_eq.
Qed.

(** C7.  The lookup order of [getVolumeDataForTab], on every lookup the
    script performs.

    The order.  In a state where the empty string is not a key of the
    address mapping, and for a valid tab id: if the tab mapping holds an
    entry, that object is returned and nothing else happens; otherwise,
    if the address mapping holds an entry for the page address, that
    object is returned, the tab mapping now holds the same object under
    the tab id, both storage keys are written, and a following lookup by
    tab id alone returns the same object without any further effect;
    otherwise a fresh default record is returned and neither mapping nor
    the store is touched.  The lookup leaves the empty string out of the
    address mapping, so the next lookup of the same handler starts from
    such a state again.

    Every lookup is of this kind.  In every state the event loop
    reaches, the empty string is not a key of the address mapping; and
    no step from such a state logs the warning of the guard at the head
    of the function, which is what a lookup with an invalid tab id does:
    each of the five callers has tested the id before. *)
Theorem getVolumeDataForTab_lookup_order :
  (∀ s tabId url,
     addresses_nonempty s → isValidTabId (JNum tabId) = true →
     let r := getVolumeDataForTab tabId url s in
     (∀ l, tabVolumeSettings s !! tabId = Some l →
           val r = l ∧ state r = s ∧ effs r = [])
     ∧ (∀ u l, tabVolumeSettings s !! tabId = None →
           url = Some u → urlVolumeSettings s !! u = Some l →
           val r = l
           ∧ heap (state r) !!! l = set_tabUrl u (heap s !!! l)
           ∧ tabVolumeSettings (state r) !! tabId = Some l
           ∧ writes (effs r) = [(TabKey tabId, heap s !!! l);
                                (UrlKey u, set_tabUrl u (heap s !!! l))]
           ∧ getVolumeDataForTab tabId None (state r) = mkRes l (state r) [])
     ∧ (tabVolumeSettings s !! tabId = None →
        (∀ u, url = Some u → urlVolumeSettings s !! u = None) →
        heap (state r) !!! val r
        = {| volume := num 100; previousVolume := num 100; muted := false;
             hasAudio := true; isPlaying := None; tabUrl := None |}
        ∧ tabVolumeSettings (state r) = tabVolumeSettings s
        ∧ urlVolumeSettings (state r) = urlVolumeSettings s
        ∧ writes (effs r) = [])
     ∧ addresses_nonempty (state r))
  ∧ (∀ runtime_id sys,
       reachable runtime_id sys →
       addresses_nonempty (prog sys)
       ∧ ∀ ev sys' es, step runtime_id sys ev = Some (sys', es) →
                       Console LogWarn lookup_guard_warning ∉ es)
  ∧ (∀ s tabId url,
       isValidTabId (JNum tabId) = false →
       effs (getVolumeDataForTab tabId url s)
       = [Console LogWarn lookup_guard_warning]).
Proof.
  split_and!.
  - intros s tabId url Hs Ht r.
    destruct (lookup_cases s tabId url Hs Ht) as (H1 & H2 & H3).
    split_and!; [exact H1 | exact H2 | exact H3 |].
    by apply (getVolumeDataForTab_addresses tabId url s).
  - intros runtime_id sys [Hs Hp]%reachable_addresses. split; [exact Hs |].
    intros ev sys' es Hstep Hin.
    destruct (step_addresses _ _ _ _ _ Hs Hp Hstep) as (_ & _ & Hes).
    apply list_elem_of_lookup in Hin as [i Hi].
    by apply (Forall_lookup_1 _ _ _ _ Hes Hi).
  - intros s tabId url. apply getVolumeDataForTab_guard.
Qed.

Lemma getVolumeDataForTab_lookup_order_witness :
  let url := "https://a.example/"%string in
  let s := prog (after closed_after_volume_80) in
  let r := getVolumeDataForTab (num 77) (Some url) s in
  tabVolumeSettings s !! num 77 = None
  ∧ volume (heap s !!! val r) = num 80
  ∧ tabVolumeSettings (state r) !! num 77 = Some (val r)
  ∧ map fst (writes (effs r)) = [TabKey (num 77); UrlKey url]
  ∧ getVolumeDataForTab (num 77) None (state r) = mkRes (val r) (state r) [].
Proof.
  intros url s r.
  destruct getVolumeDataForTab_lookup_order as (Horder & Hreach & _).
  destruct (Hreach ext_id (after closed_after_volume_80)) as [Hs _];
    [apply after_reachable |].
  destruct (Horder s (num 77) (Some url)) as (_ & H & _);
    [exact Hs | by vm_compute |].
  destruct (urlVolumeSettings s !! url) as [l|] eqn:Hl;
    [| vm_compute in Hl; discriminate].
  destruct (H url l) as (Hv & _ & Htab & Hw & Hnext);
    [by vm_compute | reflexivity | exact Hl |].
  fold r in Hv, Htab, Hw, Hnext.
  split_and!.
  - by vm_compute.
  - rewrite Hv. vm_compute in Hl. injection Hl as <-. by vm_compute.
  - by rewrite Hv.
  - by rewrite Hw.
  - by rewrite Hv.
Defined.

(** The guard of the function itself: with the tab id -1
    ([chrome.tabs.TAB_ID_NONE]) the default record is returned and
    neither mapping is consulted. *)
Lemma getVolumeDataForTab_invalid_id :
  let url := "https://a.example/"%string in
  let r := getVolumeDataForTab (num (-1)) (Some url) address_only in
  tabVolumeSettings address_only !! num (-1) = None
  ∧ urlVolumeSettings address_only !! url = Some 1%positive
  ∧ volume (heap address_only !!! 1%positive) = num 30
  ∧ volume (heap (state r) !!! val r) = num 100
  ∧ tabVolumeSettings (state r) !! num (-1) = None
  ∧ writes (effs r) = [].
Proof. vm_compute. split_and!; reflexivity. Qed.

Lemma counts_insert qs t q :
  queue_counts_ok qs → isValidTabId (JNum t) = true →
  Forall item_ok q →
  queue_counts_ok (<[t := q]> qs).
Proof.
  intros Hqs Ht Hq t' q'. rewrite lookup_insert.
  case_decide; [by intros [= <-]; subst | apply Hqs].
Qed.

Lemma counts_delete qs t : queue_counts_ok qs → queue_counts_ok (delete t qs).
Proof.
  intros Hqs t' q'. rewrite lookup_delete. case_decide; [done | apply Hqs].
Qed.

Lemma counts_total qs t :
  queue_counts_ok qs → Forall item_ok (qs !!! t).
Proof.
  intros Hqs. rewrite lookup_total_alt.
  destruct (qs !! t) as [q|] eqn:Hq; simpl; [by apply (Hqs _ _ Hq) | constructor].
Qed.

#[local] Hint Resolve counts_insert counts_delete counts_total : inv.

(** Closes the side goals of the second pass. *)
Ltac sound_auto :=
  repeat match goal with
         | H : Sound _ |- _ => destruct H as [? ?]
         | H : Inv _ |- _ => destruct H as (? & ? & ? & ? & ?)
         end;
  lazymatch goal with
  | |- sound_effect _ => simpl; eauto 6 with inv
  | |- Sound _ =>
      unfold Sound, Inv; simpl; split_and!; eauto 6 with inv
  | |- _ => idtac
  end.

Lemma saveTabVolume_sound tabId l url s :
  Sound s → wp sound_effect (saveTabVolume tabId l url) (λ _, Sound) s.
Proof.
  intros Hs. unfold saveTabVolume. wp_run; sound_auto.
  - split; [eauto with inv | by apply negb_false_iff].
  - rewrite lookup_total_insert_eq. split; [eauto with inv |]. split; [| done].
    intros ->. discriminate.
Qed.

Lemma getVolumeDataForTab_sound tabId url s :
  Sound s → wp sound_effect (getVolumeDataForTab tabId url) (λ _, Sound) s.
Proof.
  intros Hs. unfold getVolumeDataForTab. wp_run; try solve [sound_auto].
  eapply wp_conseq; [apply saveTabVolume_sound | done |]; [sound_auto |].
  intros ? s' Hs'. by wp_run.
Qed.

Ltac wp_use lem :=
  lazymatch goal with
  | |- wp _ (bind _ _) _ _ => apply wp_bind
  | |- _ => idtac
  end;
  eapply wp_conseq; [apply lem | done | cbv beta; intros ? ? ?].

Lemma sendMessageToTab_sound tabId m rc s :
  good_cmd m → cmd_in_range m → 0 ≤ rc →
  Sound s → wp sound_effect (sendMessageToTab tabId m rc) (λ _, Sound) s.
Proof.
  intros Hm Hin Hrc Hs. unfold sendMessageToTab. wp_run; try done.
  split; [exact Hm |]. split_and!; [by apply negb_false_iff | done | | done].
  unfold MAX_RETRIES in *. lia.
Qed.

Lemma applyVolumeToTab_sound tabId l s :
  Sound s → wp sound_effect (applyVolumeToTab tabId l) (λ _, Sound) s.
Proof.
  intros Hs. unfold applyVolumeToTab. wp_run; [done |].
  apply sendMessageToTab_sound; [done | | done | done].
  destruct Hs as [(Hh & _) _]. exact (heap_ok_total _ l Hh).
Qed.

Lemma sendMessageCallback_sound tabId m rc e now s :
  sound_pending (PTabsSendMessage tabId m rc) →
  Sound s → wp sound_effect (sendMessageCallback tabId m rc e now) (λ _, Sound) s.
Proof.
  intros [Hm (Ht & Hrc & Hin)] [Hinv Hc]. unfold sendMessageCallback.
  wp_run; try done.
  all: split; [queue_auto | simpl].
  all: repeat (apply counts_insert; try done).
  all: try (apply Forall_app; split; [by apply counts_total |]).
  all: try (apply Forall_app; split; [rewrite lookup_total_insert_eq; constructor |]).
  all: repeat constructor; simpl; try apply Hin; unfold MAX_RETRIES in *; lia.
Qed.

Lemma processItem_sound tabId now item s :
  isValidTabId (JNum tabId) = true →
  good_cmd (Item.message item) → item_ok item →
  Sound s → wp sound_effect (processItem tabId now item) (λ _, Sound) s.
Proof.
  intros Ht Hm Hrc [Hinv Hc]. unfold processItem. wp_run; try done.
  - destruct Hrc as [Hrc Hin]. apply sendMessageToTab_sound; [done | done | lia | done].
  - split; [queue_auto | simpl].
    apply counts_insert; [done | done |].
    apply Forall_app; split; [by apply counts_total |].
    constructor; [exact Hrc | constructor].
Qed.

Lemma processMessageQueue_sound tabId now s :
  Sound s → wp sound_effect (processMessageQueue tabId now) (λ _, Sound) s.
Proof.
  intros Hs. unfold processMessageQueue. wp_run; try done.
  apply orb_false_elim in Heqb as [Ht%negb_false_iff _].
  destruct Hs as [Hinv Hc].
  apply wp_forEach.
  - intros item s' Hitem Hs'.
    change (item ∈ take MAX_QUEUE_SIZE (messageQueues s !!! tabId)) in Hitem.
    apply elem_of_take in Hitem as (i & Hitem & _).
    apply processItem_sound; [done | | | done].
    + destruct Hinv as (_ & _ & Hwf & _).
      exact (Forall_lookup_1 _ _ _ _ (queues_wf_total _ tabId Hwf) Hitem).
    + exact (Forall_lookup_1 _ _ _ _ (counts_total _ tabId Hc) Hitem).
  - split; [queue_auto | simpl]. apply counts_insert; [done | done | constructor].
Qed.

Lemma onInterval_sound clock s :
  Sound s → wp sound_effect (onInterval clock) (λ _, Sound) s.
Proof.
  intros Hs. unfold onInterval. wp_run.
  apply wp_forEach; [| done].
  intros tabId s' _ Hs'. by apply processMessageQueue_sound.
Qed.

Lemma hydrateKey_sound key value s :
  Sound s → wp sound_effect (hydrateKey key value) (λ _, Sound) s.
Proof. intros Hs. unfold hydrateKey. wp_run; sound_auto. Qed.

Lemma onStorageLoaded_sound lastError items s :
  Sound s → wp sound_effect (onStorageLoaded lastError items) (λ _, Sound) s.
Proof.
  intros Hs. unfold onStorageLoaded. wp_run; [done |].
  apply wp_forEach; [| done].
  intros [key value] s' _ Hs'. by apply hydrateKey_sound.
Qed.

Lemma onRemoved_sound tabId s :
  Sound s → wp sound_effect (onRemoved tabId) (λ _, Sound) s.
Proof. intros Hs. unfold onRemoved. wp_run; sound_auto. Qed.

Lemma onUpdated_sound tabId changeInfo tab s :
  Sound s → wp sound_effect (onUpdated tabId changeInfo tab) (λ _, Sound) s.
Proof.
  intros Hs. unfold onUpdated. wp_run; try done.
  all: try (wp_use getVolumeDataForTab_sound; [sound_auto |]; wp_run).
  all: try (wp_use saveTabVolume_sound; [sound_auto |]; wp_run).
  all: try done.
  all: sound_auto.
Qed.

Lemma tabsGetCallback_sound tabId v m pv result s :
  opt_in_range v → opt_in_range pv →
  Sound s → wp sound_effect (tabsGetCallback tabId v m pv result) (λ _, Sound) s.
Proof.
  intros Hv Hpv Hs. unfold tabsGetCallback. wp_run; [done |].
  wp_use getVolumeDataForTab_sound; [done |]. wp_run.
  wp_use saveTabVolume_sound.
  - destruct H as [(Hh & Hq & Hwf & Htabs & Hurls) Hc].
    split; [| done].
    split_and!; simpl; [| done | done | eauto 6 with inv..].
    apply heap_ok_insert; [done |].
    pose proof (heap_ok_total _ a Hh) as [Hd1 Hd2].
    split; simpl; [by destruct v | by destruct pv].
  - wp_use applyVolumeToTab_sound; [done |]. by wp_run.
Qed.

Lemma wp_mapM_val {A B} E (I : State → Prop) (R : A → B → Prop)
    (l : list A) (f : A → M B) s :
  (∀ x s', I s' → wp E (f x) (λ b s'', I s'' ∧ R x b) s') →
  I s → wp E (mapM f l) (λ bs s', I s' ∧ Forall2 R l bs) s.
Proof.
  revert s. induction l as [|x l IH]; intros s Hf Hs; simpl.
  - apply wp_ret. split; [done | constructor].
  - apply wp_bind. eapply wp_conseq; [apply Hf; exact Hs | done |].
    intros b s' [Hs' Hb]. apply wp_bind.
    eapply wp_conseq; [apply IH; [exact Hf | exact Hs'] | done |].
    intros bs s'' [Hs'' Hbs]. apply wp_ret. split; [done | by constructor].
Qed.

Lemma tabsQueryCallback_sound tabs s :
  Sound s → wp sound_effect (tabsQueryCallback tabs) (λ _, Sound) s.
Proof.
  intros Hs. unfold tabsQueryCallback. wp_run.
  eapply wp_conseq;
    [apply (wp_mapM_val sound_effect Sound (λ tab (tv : Tab.t * loc), tv.1 = tab))
    | done |].
  - intros tab s' Hs'. wp_run.
    wp_use getVolumeDataForTab_sound; [done |]. by wp_run.
  - done.
  - cbv beta. intros tvs s' [Hs' Htvs]. wp_run. unfold respond.
    apply wp_emit; [| done]. simpl.
    destruct Hs' as [(Hh & _) _].
    apply Forall_fmap, Forall_lookup. intros i [tab l] Hi. simpl.
    split; [| by apply heap_ok_total].
    destruct (Forall2_lookup_r _ _ _ _ _ Htvs Hi) as (tab' & Hi' & Heq).
    simpl in Heq. subst tab'.
    apply list_elem_of_lookup_2, list_elem_of_In, filter_In in Hi'.
    destruct Hi' as [_ Hcond].
    apply andb_prop in Hcond as [Hcond _].
    by apply andb_prop in Hcond as [_ Hvalid].
Qed.

Lemma dispatch_sound message sender throws now s :
  Sound s → wp sound_effect (dispatch message sender throws now) (λ _, Sound) s.
Proof.
  intros Hs. unfold dispatch. wp_run; try done.
  - wp_use processMessageQueue_sound; [done |]. by wp_run.
  - split; [| done]. split; by apply validated_opt_in_range.
  - wp_use getVolumeDataForTab_sound; [done |]. wp_run.
    unfold respond. wp_run; [| done].
    destruct H as [(Hh & _) _]. exact (heap_ok_total _ a Hh).
  - wp_use getVolumeDataForTab_sound; [done |]. wp_run.
    wp_use saveTabVolume_sound; [sound_auto |]. by wp_run.
Qed.

Lemma onMessage_sound runtime_id message sender throws now s :
  Sound s →
  wp sound_effect (onMessage runtime_id message sender throws now) (λ _, Sound) s.
Proof.
  intros Hs. unfold onMessage. wp_run; try done.
  wp_use dispatch_sound; [done |]. by wp_run.
Qed.

Lemma calls_sound es : Forall sound_effect es → Forall sound_pending (calls es).
Proof.
  induction 1 as [|e es He _ IH]; [constructor |].
  unfold calls in *. destruct e; simpl; try exact IH.
  constructor; [exact He | exact IH].
Qed.

Lemma runCallback_sound p reply c s :
  sound_pending p → runCallback p reply = Some c →
  Sound s → wp sound_effect c (λ _, Sound) s.
Proof.
  intros Hp Hc Hs.
  destruct p, reply; simpl in Hc; try discriminate; injection Hc as <-.
  - by apply onStorageLoaded_sound.
  - by apply sendMessageCallback_sound.
  - destruct Hp as [[] _]. by apply tabsGetCallback_sound.
  - by apply tabsQueryCallback_sound.
  - by apply processMessageQueue_sound.
  - by apply applyVolumeToTab_sound.
Qed.

Lemma step_sound runtime_id sys ev sys' es :
  SysSound sys → step runtime_id sys ev = Some (sys', es) →
  SysSound sys' ∧ Forall sound_effect es.
Proof.
  intros [Hs Hp] Hstep.
  assert (Hfin : ∀ A (old : list Pending) (r : Res A),
             Forall sound_pending old →
             Sound (state r) ∧ Forall sound_effect (effs r) →
             SysSound (mkSys (state r) (old ++ calls (effs r)))
             ∧ Forall sound_effect (effs r)).
  { intros A old r Hold [HI HE]. split; [| exact HE]. split; [exact HI |]. simpl.
    apply Forall_app; split; [exact Hold | by apply calls_sound]. }
  destruct ev as [tabId ci tab | tabId | message sender throws now | clock | i reply];
    simpl in Hstep.
  - injection Hstep as <- <-. apply Hfin; [done | by apply onUpdated_sound].
  - injection Hstep as <- <-. apply Hfin; [done | by apply onRemoved_sound].
  - injection Hstep as <- <-. apply Hfin; [done | by apply onMessage_sound].
  - injection Hstep as <- <-. apply Hfin; [done | by apply onInterval_sound].
  - destruct (inflight sys !! i) as [p|] eqn:Hi; [| discriminate].
    destruct (runCallback p reply) as [c|] eqn:Hc; [| discriminate].
    injection Hstep as <- <-. apply Hfin.
    + by apply Forall_delete.
    + eapply runCallback_sound; [| exact Hc | exact Hs].
      eapply Forall_lookup_1; eauto.
Qed.

Lemma reachable_sound runtime_id sys : reachable runtime_id sys → SysSound sys.
Proof.
  induction 1 as [| sys ev sys' es _ IH Hstep].
  - split; [| by repeat constructor].
    split; [split_and! |]; intros ? ?; simpl; by rewrite lookup_empty.
  - by eapply step_sound.
Qed.

(** In every state the event loop can reach, a command in flight goes to
    a valid tab, has been tried fewer than [MAX_RETRIES] times and
    carries volumes in [0, 100]; every queue belongs to a valid tab and
    each of its entries has failed between one and [MAX_RETRIES] times
    and carries volumes in [0, 100]. *)
Theorem retry_counts_bounded runtime_id sys :
  reachable runtime_id sys →
  (∀ tabId message retryCount,
     PTabsSendMessage tabId message retryCount ∈ inflight sys →
     isValidTabId (JNum tabId) = true ∧ 0 ≤ retryCount < MAX_RETRIES
     ∧ cmd_in_range message)
  ∧ (∀ tabId q item,
     messageQueues (prog sys) !! tabId = Some q → item ∈ q →
     isValidTabId (JNum tabId) = true
     ∧ 1 ≤ Item.retryCount item ≤ MAX_RETRIES
     ∧ cmd_in_range (Item.message item)).
Proof.
  intros [[_ Hq] Hp]%reachable_sound. split.
  - intros tabId message retryCount Hin.
    change (PTabsSendMessage tabId message retryCount ∈ inflight sys) in Hin.
    apply list_elem_of_lookup in Hin as [i Hi].
    exact (proj2 (Forall_lookup_1 _ _ _ _ Hp Hi)).
  - intros tabId q item Hlook Hin. destruct (Hq _ _ Hlook) as [Ht Hall].
    split; [exact Ht |].
    change (item ∈ q) in Hin.
    apply list_elem_of_lookup in Hin as [i Hi].
    destruct (Forall_lookup_1 _ _ _ _ Hall Hi) as [Hrc Hrange]. by split.
Qed.

Lemma retry_counts_bounded_witness :
  let sys := after three_failures in
  messageQueues (prog sys) !! num 42
    = Some [Item.mk (Cmd.mk "setVolume" (num 100) false (num 100)) 3 4000]
  ∧ (∀ tabId q item,
     messageQueues (prog sys) !! tabId = Some q → item ∈ q →
     isValidTabId (JNum tabId) = true
     ∧ 1 ≤ Item.retryCount item ≤ MAX_RETRIES
     ∧ cmd_in_range (Item.message item)).
Proof.
  intros sys. split; [vm_compute; reflexivity |].
  apply (retry_counts_bounded ext_id sys). apply after_reachable.
Defined.

(** Whatever event the loop handles in a reachable state, every record
    it hands to [chrome.storage.local.set] has both volumes in [0, 100];
    a tab key names a valid tab id, and an address key names a non-empty
    address which the stored record carries as its [tabUrl]. *)
Theorem storage_writes_sound runtime_id sys ev sys' es key d :
  reachable runtime_id sys → step runtime_id sys ev = Some (sys', es) →
  (key, d) ∈ writes es → write_ok key d.
Proof.
  intros Hreach%reachable_sound Hstep Hin.
  destruct (step_sound _ _ _ _ _ Hreach Hstep) as [_ Hes].
  unfold writes in Hin. change ((key, d) ∈ omap (λ e, match e with StorageSet k v => Some (k, v) | _ => None end) es) in Hin.
  apply list_elem_of_omap in Hin as (e & He & Heq).
  destruct e; try discriminate. injection Heq as -> ->.
  change (StorageSet key d ∈ es) in He.
  apply list_elem_of_lookup in He as [i Hi].
  exact (Forall_lookup_1 _ _ _ _ Hes Hi).
Qed.

Lemma storage_writes_sound_witness :
  let sys := after [Callback 0 (Loaded false [])] in
  let ev := Updated (num 42) started_audio (page 42 "https://a.example/") in
  let d := set_tabUrl "https://a.example/" getDefaultVolumeData in
  write_ok (UrlKey "https://a.example/") d.
Proof.
  intros sys ev d.
  destruct (step ext_id sys ev) as [[sys' es]|] eqn:Hstep; [| vm_compute in Hstep; discriminate].
  apply (storage_writes_sound ext_id sys ev sys' es).
  - apply after_reachable.
  - exact Hstep.
  - vm_compute in Hstep. injection Hstep as _ <-. vm_compute. 
    right. left.
Defined.

(** Whatever event is handled in a reachable state, an answer that
    reports levels reports them in [0, 100], and a tab list names only
    tabs with a valid id, each with levels in [0, 100]. *)
Theorem responses_sound runtime_id sys ev sys' es r :
  reachable runtime_id sys → step runtime_id sys ev = Some (sys', es) →
  r ∈ responses es → response_ok r.
Proof.
  intros Hreach%reachable_sound Hstep Hin.
  destruct (step_sound _ _ _ _ _ Hreach Hstep) as [_ Hes].
  change (r ∈ omap (λ e, match e with SendResponse r => Some r | _ => None end) es)
    in Hin.
  apply list_elem_of_omap in Hin as (e & He & Heq).
  destruct e; try discriminate. injection Heq as ->.
  change (SendResponse r ∈ es) in He.
  apply list_elem_of_lookup in He as [i Hi].
  exact (Forall_lookup_1 _ _ _ _ Hes Hi).
Qed.

Lemma responses_sound_witness :
  let sys := after volume_80 in
  let ev := Message (request "getAudioStatus" [])
                    (content_script 42 "https://a.example/") None 0 in
  response_ok (AudioStatus (num 80) false (num 100)).
Proof.
  intros sys ev.
  destruct (step ext_id sys ev) as [[sys' es]|] eqn:Hstep;
    [| vm_compute in Hstep; discriminate].
  apply (responses_sound ext_id sys ev sys' es).
  - apply after_reachable.
  - exact Hstep.
  - vm_compute in Hstep. injection Hstep as _ <-. vm_compute. left.
Defined.

(* ================================================================== *)
(** * Footprint of the handlers *)
(* ================================================================== *)

Lemma same_levels_refl d : same_levels d d.
Proof. by repeat split. Qed.

Lemma extends_refl T s : extends T (audibleTabs s) s s.
Proof.
  split_and!; try done. intros l d Hl. exists d. split; [done | apply same_levels_refl].
Qed.

Lemma extends_weaken (T T' : jsnum → Prop) A s0 s :
  (∀ t, T t → T' t) → extends T A s0 s → extends T' A s0 s.
Proof.
  intros HT (Ht & Hd & Hu & Hh & Ha). split_and!; try done.
  intros t l Hn. apply Ht. intros HTt. apply Hn, HT, HTt.
Qed.

Lemma extends_trans T A A' s0 s1 s2 :
  extends T A s0 s1 → extends T A' s1 s2 → extends T A' s0 s2.
Proof.
  intros (Ht & Hd & Hu & Hh & _) (Ht' & Hd' & Hu' & Hh' & Ha'). split_and!; try done.
  - intros t l Hn Hl. by apply Ht', Ht.
  - intros t Hs. by apply Hd', Hd.
  - intros u Hs. by apply Hu', Hu.
  - intros l d Hl. destruct (Hh _ _ Hl) as (d1 & Hl1 & H1 & H2 & H3).
    destruct (Hh' _ _ Hl1) as (d2 & Hl2 & H1' & H2' & H3').
    exists d2. split; [done |]. split_and!; congruence.
Qed.

Lemma ext_queues T A s0 s f :
  extends T A s0 s → extends T A s0 (with_messageQueues f s).
Proof. done. Qed.

Lemma ext_audible T A s0 s f :
  extends T A s0 s → extends T (f A) s0 (with_audibleTabs f s).
Proof. intros (Ht & Hd & Hu & Hh & <-). by split_and!. Qed.

Lemma ext_urls T A s0 s u l :
  extends T A s0 s → extends T A s0 (with_urlVolumeSettings (insert u l) s).
Proof.
  intros (Ht & Hd & Hu & Hh & Ha). split_and!; try done.
  intros u' Hs. simpl. rewrite lookup_insert. case_decide; [done | by apply Hu].
Qed.

Lemma ext_tabs T A s0 s t l :
  T t ∨ tabVolumeSettings s !! t = None ∨ tabVolumeSettings s !! t = Some l →
  extends T A s0 s → extends T A s0 (with_tabVolumeSettings (insert t l) s).
Proof.
  intros Hc (Ht & Hd & Hu & Hh & Ha). split_and!; try done.
  - intros t' l' Hn Hl. simpl. rewrite lookup_insert. case_decide as Heq.
    + subst t'. destruct Hc as [HT | [Hnone | Hsame]]; [done | |].
      * by rewrite (Ht _ _ Hn Hl) in Hnone.
      * rewrite (Ht _ _ Hn Hl) in Hsame. done.
    + by apply Ht.
  - intros t' Hs. simpl. rewrite lookup_insert. case_decide; [done | by apply Hd].
Qed.

Lemma ext_alloc T A s0 s d :
  extends T A s0 s →
  extends T A s0 (with_heap (insert (fresh (dom (heap s))) d) s).
Proof.
  intros (Ht & Hd & Hu & Hh & Ha). split_and!; try done.
  intros l d0 Hl. destruct (Hh _ _ Hl) as (d' & Hl' & Hlev).
  exists d'. split; [| done]. simpl. rewrite lookup_insert. case_decide as Heq; [| done].
  subst l. pose proof (is_fresh (dom (heap s))) as Hfresh.
  apply not_elem_of_dom in Hfresh. congruence.
Qed.

Lemma ext_write T A s0 s l (f : TabVolumeData → TabVolumeData) :
  (∀ d, same_levels d (f d)) →
  extends T A s0 s →
  extends T A s0 (with_heap (λ h, <[l := f (h !!! l)]> h) s).
Proof.
  intros Hf (Ht & Hd & Hu & Hh & Ha). split_and!; try done.
  intros l0 d0 Hl. destruct (Hh _ _ Hl) as (d' & Hl' & H1 & H2 & H3).
  simpl. rewrite lookup_insert. case_decide as Heq; [| by exists d'].
  subst l0. exists (f d'). rewrite (lookup_total_correct _ _ _ Hl'). split; [done |].
  destruct (Hf d') as (F1 & F2 & F3). split_and!; congruence.
Qed.

Lemma levels_set_hasAudio b d : same_levels d (set_hasAudio b d).
Proof. by repeat split. Qed.

Lemma levels_set_tabUrl u d : same_levels d (set_tabUrl u d).
Proof. by repeat split. Qed.

(** Closes the state goals of the footprint pass. *)
Ltac ext_step :=
  lazymatch goal with
  | |- extends _ _ _ (with_messageQueues _ _) => apply ext_queues
  | |- extends _ _ _ (with_urlVolumeSettings (insert _ _) _) => apply ext_urls
  | |- extends _ _ _ (with_heap (insert (fresh _) _) _) => apply ext_alloc
  | |- extends _ _ _ (with_heap _ _) =>
      apply ext_write;
      [first [apply levels_set_hasAudio | apply levels_set_tabUrl] |]
  | |- extends _ _ _ (with_tabVolumeSettings (insert _ _) _) =>
      apply ext_tabs; [by eauto |]
  end.

Ltac ext_auto := repeat ext_step; try assumption.

Tactic Notation "wp_ext" constr(lem) "as" simple_intropattern(pat) :=
  lazymatch goal with
  | |- wp _ (bind _ _) _ _ => apply wp_bind
  | |- _ => idtac
  end;
  eapply wp_conseq; [apply lem | done | cbv beta; intros ? ? pat].

Lemma saveTabVolume_ext T A s0 tabId l url s :
  extends T A s0 s →
  wp any_effect (saveTabVolume tabId l url)
     (λ _ s', extends T A s0 s' ∧ tabVolumeSettings s' = tabVolumeSettings s) s.
Proof. intros Hs. unfold saveTabVolume. wp_run; (split; [ext_auto | done]). Qed.

Lemma getVolumeDataForTab_ext T A s0 tabId url s :
  extends T A s0 s →
  wp any_effect (getVolumeDataForTab tabId url)
     (λ a s', extends T A s0 s'
              ∧ (isValidTabId (JNum tabId) = true →
                 tabVolumeSettings s' !! tabId = None
                 ∨ tabVolumeSettings s' !! tabId = Some a)) s.
Proof.
  intros Hs. unfold getVolumeDataForTab. wp_run.
  - split; [ext_auto |]. intros Hv. by rewrite Hv in Heqb.
  - split; [ext_auto |]. by right.
  - wp_ext (saveTabVolume_ext T A s0) as [He Heq]; [ext_auto |].
    wp_run. split; [done |]. intros _. right.
    rewrite Heq. simpl. by rewrite lookup_insert_eq.
  - split; [ext_auto |]. by left.
Qed.

Lemma sendMessageToTab_ext T A s0 tabId m rc s :
  extends T A s0 s →
  wp any_effect (sendMessageToTab tabId m rc) (λ _, extends T A s0) s.
Proof. intros Hs. unfold sendMessageToTab. by wp_run. Qed.

Lemma applyVolumeToTab_ext T A s0 tabId l s :
  extends T A s0 s →
  wp any_effect (applyVolumeToTab tabId l) (λ _, extends T A s0) s.
Proof.
  intros Hs. unfold applyVolumeToTab. wp_run; [done |].
  by apply sendMessageToTab_ext.
Qed.

Lemma sendMessageCallback_ext T A s0 tabId m rc e now s :
  extends T A s0 s →
  wp any_effect (sendMessageCallback tabId m rc e now) (λ _, extends T A s0) s.
Proof. intros Hs. unfold sendMessageCallback. wp_run; ext_auto. Qed.

Lemma processItem_ext T A s0 tabId now item s :
  extends T A s0 s →
  wp any_effect (processItem tabId now item) (λ _, extends T A s0) s.
Proof.
  intros Hs. unfold processItem. wp_run; ext_auto.
  by apply sendMessageToTab_ext.
Qed.

Lemma processMessageQueue_ext T A s0 tabId now s :
  extends T A s0 s →
  wp any_effect (processMessageQueue tabId now) (λ _, extends T A s0) s.
Proof.
  intros Hs. unfold processMessageQueue. wp_run; try done.
  apply wp_forEach; [| ext_auto].
  intros item s' _ Hs'. by apply processItem_ext.
Qed.

Lemma onInterval_ext T A s0 clock s :
  extends T A s0 s →
  wp any_effect (onInterval clock) (λ _, extends T A s0) s.
Proof.
  intros Hs. unfold onInterval. wp_run.
  apply wp_forEach; [| done].
  intros tabId s' _ Hs'. by apply processMessageQueue_ext.
Qed.

Lemma hydrateKey_ext (T : jsnum → Prop) A s0 key value s :
  (∀ t, T t) → extends T A s0 s →
  wp any_effect (hydrateKey key value) (λ _, extends T A s0) s.
Proof. intros HT Hs. unfold hydrateKey. wp_run; ext_auto. Qed.

Lemma onStorageLoaded_ext (T : jsnum → Prop) A s0 lastError items s :
  (∀ t, T t) → extends T A s0 s →
  wp any_effect (onStorageLoaded lastError items) (λ _, extends T A s0) s.
Proof.
  intros HT Hs. unfold onStorageLoaded. wp_run; [done |].
  apply wp_forEach; [| done].
  intros [key value] s' _ Hs'. by apply hydrateKey_ext.
Qed.

Lemma tabsGetCallback_ext (T : jsnum → Prop) A s0 tabId v m pv result s :
  T tabId → extends T A s0 s →
  wp any_effect (tabsGetCallback tabId v m pv result) (λ _, extends T A s0) s.
Proof.
  intros HT Hs. unfold tabsGetCallback. wp_run; [done |].
  wp_ext (getVolumeDataForTab_ext T A s0) as [He _]; [done |]. wp_run.
  wp_ext (saveTabVolume_ext T A s0) as [He' _]; [ext_auto |].
  wp_ext (applyVolumeToTab_ext T A s0) as He''; [done |]. by wp_run.
Qed.

Lemma tabsQueryCallback_ext T A s0 tabs s :
  extends T A s0 s →
  wp any_effect (tabsQueryCallback tabs) (λ _, extends T A s0) s.
Proof.
  intros Hs. unfold tabsQueryCallback. wp_run.
  eapply wp_conseq; [apply (wp_mapM any_effect (extends T A s0)) | done |].
  - intros tab s' Hs'. wp_run.
    wp_ext (getVolumeDataForTab_ext T A s0) as [He _]; [done |]. by wp_run.
  - done.
  - cbv beta. intros ? ? ?. by wp_run.
Qed.

Lemma dispatch_ext T A s0 message sender throws now s :
  extends T A s0 s →
  wp any_effect (dispatch message sender throws now) (λ _, extends T A s0) s.
Proof.
  intros Hs. unfold dispatch. wp_run; try done.
  - wp_ext (processMessageQueue_ext T A s0) as He; [done |]. by wp_run.
  - wp_ext (getVolumeDataForTab_ext T A s0) as [He _]; [done |]. by wp_run.
  - wp_ext (getVolumeDataForTab_ext T A s0) as [He Hb]; [done |]. wp_run.
    match goal with
    | H : negb (isValidTabId (JNum ?t)) = false |- _ =>
        apply negb_false_iff in H; specialize (Hb H)
    end.
    wp_ext (saveTabVolume_ext T A s0) as [He' _]; [ext_auto |]. by wp_run.
Qed.

Lemma onMessage_ext runtime_id T A s0 message sender throws now s :
  extends T A s0 s →
  wp any_effect (onMessage runtime_id message sender throws now)
     (λ _, extends T A s0) s.
Proof.
  intros Hs. unfold onMessage. wp_run; try done.
  wp_ext (dispatch_ext T A s0) as He; [done |]. by wp_run.
Qed.

Lemma onUpdated_ext (T : jsnum → Prop) A s0 tabId changeInfo tab s :
  (∀ t, Tab.id tab = Some t → T t) → extends T A s0 s →
  wp any_effect (onUpdated tabId changeInfo tab)
     (λ _ s', extends T (audible_after tabId changeInfo A) s0 s'
              ∧ (tabId ∈ audible_after tabId changeInfo A →
                 tabId ∈ A ∨ is_Some (tabVolumeSettings s' !! tabId))) s.
Proof.
  intros HT Hs. unfold onUpdated, audible_after.
  destruct (isValidTabId (JNum tabId)) eqn:Hv; cbn [negb];
    [| wp_run; split; [done | by left]].
  match goal with
  | |- wp _ (bind _ (λ _, bind _ (λ _, ?third))) _ _ => set (adopt := third)
  end.
  assert (Hadopt : ∀ A' s1, extends T A' s0 s1 →
            wp any_effect adopt
               (λ _ s', extends T A' s0 s'
                        ∧ (is_Some (tabVolumeSettings s1 !! tabId) →
                           is_Some (tabVolumeSettings s' !! tabId))) s1).
  { intros A' s1 Hs1. subst adopt. wp_run; try (split; [done | done]).
    all: split;
      [| simpl; intros Hsome; rewrite lookup_insert; by case_decide].
    all: apply ext_tabs; [left | done].
    all: apply HT; destruct (Tab.id tab); [done |];
      by rewrite andb_false_r in Heqb. }
  clearbody adopt.
  destruct (ci_audible changeInfo) as [[|]|].
  - wp_run.
    all: wp_ext (getVolumeDataForTab_ext T ({[tabId]} ∪ A) s0) as [He Hb];
      [by apply (ext_audible T A s0 s (λ a, {[tabId]} ∪ a)) |].
    all: specialize (Hb Hv); wp_run.
    all: wp_ext (saveTabVolume_ext T ({[tabId]} ∪ A) s0) as [He' Heq];
      [ext_auto |].
    all: wp_run.

    all: eapply wp_conseq; [apply (Hadopt _ _ He') | done |].
    all: cbv beta; intros _ s3 [He3 Hk]; split; [done |].
    all: intros _; right; apply Hk; rewrite Heq; simpl.
    all: by rewrite lookup_insert_eq.
  - wp_run.
    all: eapply wp_conseq;
      [apply (Hadopt (A ∖ {[tabId]}));
       by apply (ext_audible T A s0 s (λ a, a ∖ {[tabId]}))
      | done |].
    all: cbv beta; intros _ s3 [He3 Hk]; split; [done |].
    all: intros [Hin _]%elem_of_difference; by left.
  - wp_run.
    all: eapply wp_conseq; [apply (Hadopt A); exact Hs | done |].
    all: cbv beta; intros _ s3 [He3 Hk]; split; [done | by left].
Qed.

Lemma onRemoved_state tabId s :
  state (onRemoved tabId s)
  = if isValidTabId (JNum tabId) then
      mkState (audibleTabs s ∖ {[tabId]}) (delete tabId (messageQueues s))
              (heap s) (delete tabId (tabVolumeSettings s)) (urlVolumeSettings s)
    else s.
Proof. unfold onRemoved. by destruct (isValidTabId (JNum tabId)). Qed.

Lemma runCallback_ext A s0 sys i p reply c s :
  inflight sys !! i = Some p → runCallback p reply = Some c →
  extends (rebinds sys (Callback i reply)) A s0 s →
  wp any_effect c (λ _, extends (rebinds sys (Callback i reply)) A s0) s.
Proof.
  intros Hi Hc Hs. unfold rebinds in *. rewrite Hi in *.
  destruct p, reply; simpl in Hc; try discriminate; injection Hc as <-.
  - by apply onStorageLoaded_ext.
  - by apply sendMessageCallback_ext.
  - by apply tabsGetCallback_ext.
  - by apply tabsQueryCallback_ext.
  - by apply processMessageQueue_ext.
  - by apply applyVolumeToTab_ext.
Qed.

(** What one turn of the event loop may touch. *)
Lemma step_footprint runtime_id sys ev sys' es :
  step runtime_id sys ev = Some (sys', es) →
  (∀ t l, ¬ rebinds sys ev t → tabVolumeSettings (prog sys) !! t = Some l →
          tabVolumeSettings (prog sys') !! t = Some l)
  ∧ (∀ t, ev ≠ Removed t → is_Some (tabVolumeSettings (prog sys) !! t) →
          is_Some (tabVolumeSettings (prog sys') !! t))
  ∧ (∀ u, is_Some (urlVolumeSettings (prog sys) !! u) →
          is_Some (urlVolumeSettings (prog sys') !! u))
  ∧ (∀ l d, heap (prog sys) !! l = Some d →
            ∃ d', heap (prog sys') !! l = Some d' ∧ same_levels d d')
  ∧ (∀ t, ¬ retunes ev t →
          (t ∈ audibleTabs (prog sys') ↔ t ∈ audibleTabs (prog sys)))
  ∧ (∀ t, t ∈ audibleTabs (prog sys') →
          t ∈ audibleTabs (prog sys)
          ∨ isValidTabId (JNum t) = true
            ∧ is_Some (tabVolumeSettings (prog sys') !! t)).
Proof.
  intros Hstep.
  pose proof (extends_refl (rebinds sys ev) (prog sys)) as Hrefl.
  assert (Hfin : ∀ s', extends (rebinds sys ev) (audibleTabs (prog sys))
                               (prog sys) s' → prog sys' = s' →
            (∀ t l, ¬ rebinds sys ev t → tabVolumeSettings (prog sys) !! t = Some l →
                    tabVolumeSettings (prog sys') !! t = Some l)
            ∧ (∀ t, ev ≠ Removed t → is_Some (tabVolumeSettings (prog sys) !! t) →
                    is_Some (tabVolumeSettings (prog sys') !! t))
            ∧ (∀ u, is_Some (urlVolumeSettings (prog sys) !! u) →
                    is_Some (urlVolumeSettings (prog sys') !! u))
            ∧ (∀ l d, heap (prog sys) !! l = Some d →
                      ∃ d', heap (prog sys') !! l = Some d' ∧ same_levels d d')
            ∧ (∀ t, ¬ retunes ev t →
                    (t ∈ audibleTabs (prog sys') ↔ t ∈ audibleTabs (prog sys)))
            ∧ (∀ t, t ∈ audibleTabs (prog sys') →
                    t ∈ audibleTabs (prog sys)
                    ∨ isValidTabId (JNum t) = true
                      ∧ is_Some (tabVolumeSettings (prog sys') !! t))).
  { intros s' (Ht & Hd & Hu & Hh & Ha) ->. split_and!; try done.
    - intros t _. by apply Hd.
    - intros t _. by rewrite Ha.
    - intros t Hin. left. by rewrite <- Ha. }
  destruct ev as [tabId ci tab | tabId | message sender throws now | clock | i reply];
    simpl in Hstep.
  - injection Hstep as <- <-. simpl prog.
    destruct (onUpdated_ext (rebinds sys (Updated tabId ci tab))
                (audibleTabs (prog sys)) (prog sys) tabId ci tab (prog sys))
      as [[(Ht & Hd & Hu & Hh & Ha) Hnew] _]; [by intros | done |].
    split_and!; try done.
    + intros t _. by apply Hd.
    + intros t Hne. rewrite Ha. unfold audible_after. simpl in Hne.
      destruct (isValidTabId (JNum tabId)); [| done].
      destruct (ci_audible ci) as [[|]|]; [| | done].
      * rewrite elem_of_union, elem_of_singleton.
        split; [intros [-> | Hin] | intros Hin]; [done | done | by right].
      * rewrite elem_of_difference, elem_of_singleton.
        split; [by intros [Hin _] | intros Hin; split; [done | congruence]].
    + intros t Hin. rewrite Ha in Hin.
      destruct (decide (t = tabId)) as [-> | Hne].
      * destruct (Hnew Hin) as [Hold | Hsome]; [by left |].
        unfold audible_after in Hin.
        destruct (isValidTabId (JNum tabId)) eqn:Hv; [by right | by left].
      * left. unfold audible_after in Hin.
        destruct (isValidTabId (JNum tabId)); [| done].
        destruct (ci_audible ci) as [[|]|]; [| | done].
        -- apply elem_of_union in Hin as [Hin%elem_of_singleton | Hin]; done.
        -- by apply elem_of_difference in Hin as [Hin _].
  - injection Hstep as <- <-. simpl prog. rewrite onRemoved_state.
    destruct (isValidTabId (JNum tabId)) eqn:Hv.
    + split_and!; simpl; try done.
      * intros t l Hne Hl. by rewrite lookup_delete_ne.
      * intros t Hne Hs. rewrite lookup_delete_ne; [done | congruence].
      * intros l d Hl. exists d. split; [done | apply same_levels_refl].
      * intros t Hne. rewrite elem_of_difference, elem_of_singleton.
        split; [by intros [Hin _] | intros Hin; split; [done | congruence]].
      * intros t Hin. left. by apply elem_of_difference in Hin as [Hin _].
    + split_and!; try done; [| by left].
      intros l d Hl. exists d. split; [done | apply same_levels_refl].
  - injection Hstep as <- <-.
    eapply Hfin; [| reflexivity].
    by apply onMessage_ext.
  - injection Hstep as <- <-.
    eapply Hfin; [| reflexivity].
    by apply onInterval_ext.
  - destruct (inflight sys !! i) as [p|] eqn:Hi; [| discriminate].
    destruct (runCallback p reply) as [c|] eqn:Hc; [| discriminate].
    injection Hstep as <- <-.
    eapply Hfin; [| reflexivity].
    by eapply runCallback_ext.
Qed.

Lemma step_audible_ok runtime_id sys ev sys' es :
  audible_ok (prog sys) → step runtime_id sys ev = Some (sys', es) →
  audible_ok (prog sys').
Proof.
  intros Hok Hstep t Hin.
  destruct (step_footprint _ _ _ _ _ Hstep) as (_ & Hd & _ & _ & _ & Hnew).
  destruct (Hnew t Hin) as [Hold | Hfresh]; [| done].
  destruct (Hok t Hold) as [Hv Hsome]. split; [done |].
  destruct ev as [tabId ci tab | tabId | message sender throws now | clock | i reply];
    try (by apply Hd).
  destruct (decide (tabId = t)) as [-> | Hne]; [| apply Hd; [congruence | done]].
  simpl in Hstep. injection Hstep as <- _. simpl in Hin.
  rewrite onRemoved_state, Hv in Hin. simpl in Hin.
  apply elem_of_difference in Hin as [_ Hin]. by apply not_elem_of_singleton in Hin.
Qed.

(** In every state the event loop can reach, every tab recorded as
    audible has a valid tab id and a volume record. *)
Theorem audible_tabs_have_records runtime_id sys t :
  reachable runtime_id sys → t ∈ audibleTabs (prog sys) →
  isValidTabId (JNum t) = true ∧ is_Some (tabVolumeSettings (prog sys) !! t).
Proof.
  intros Hreach. revert t. change (audible_ok (prog sys)).
  induction Hreach as [| sys ev sys' es _ IH Hstep].
  - intros t Hin. simpl in Hin. by apply elem_of_empty in Hin.
  - by eapply step_audible_ok.
Qed.

Lemma audible_tabs_have_records_witness :
  let sys := after three_failures in
  num 42 ∈ audibleTabs (prog sys)
  ∧ isValidTabId (JNum (num 42)) = true
  ∧ is_Some (tabVolumeSettings (prog sys) !! num 42).
Proof.
  intros sys.
  assert (Hin : num 42 ∈ audibleTabs (prog sys)).
  { apply (bool_decide_unpack (num 42 ∈ audibleTabs (prog sys))).
    vm_compute. exact I. }
  split; [exact Hin |].
  apply (audible_tabs_have_records ext_id sys (num 42)).
  - apply after_reachable.
  - exact Hin.
Defined.

(** One turn of the event loop leaves every tab that the event does not
    address bound to the object it had, and that object keeps its
    volume, mute flag and previous volume.  The events that address a
    tab are: a change of a tab carrying its id, its removal, the callback
    of an [updateTabVolume] request for it, and the startup load. *)
Theorem tab_levels_isolated runtime_id sys ev sys' es t l d :
  step runtime_id sys ev = Some (sys', es) →
  ¬ rebinds sys ev t →
  tabVolumeSettings (prog sys) !! t = Some l →
  heap (prog sys) !! l = Some d →
  tabVolumeSettings (prog sys') !! t = Some l
  ∧ ∃ d', heap (prog sys') !! l = Some d' ∧ same_levels d d'.
Proof.
  intros Hstep Hn Hl Hd.
  destruct (step_footprint _ _ _ _ _ Hstep) as (Ht & _ & _ & Hh & _).
  split; [by apply Ht | by apply Hh].
Qed.

(** Over any run of the event loop: no page address is forgotten; no
    object is dropped or changes its volume, mute flag or previous
    volume (an update allocates a new object); and a tab stays bound
    unless the run contains its removal. *)
Theorem nothing_forgotten runtime_id evs : ∀ sys sys' es,
  run runtime_id sys evs = Some (sys', es) →
  (∀ u, is_Some (urlVolumeSettings (prog sys) !! u) →
        is_Some (urlVolumeSettings (prog sys') !! u))
  ∧ (∀ l d, heap (prog sys) !! l = Some d →
            ∃ d', heap (prog sys') !! l = Some d' ∧ same_levels d d')
  ∧ (∀ t, Forall (λ ev, ev ≠ Removed t) evs →
          is_Some (tabVolumeSettings (prog sys) !! t) →
          is_Some (tabVolumeSettings (prog sys') !! t)).
Proof.
  induction evs as [|ev evs IH]; intros sys sys' es Hrun; simpl in Hrun.
  - injection Hrun as <- _. split_and!; try done.
    intros l d Hl. exists d. split; [done | apply same_levels_refl].
  - destruct (step runtime_id sys ev) as [[sys1 es1]|] eqn:Hstep; [| discriminate].
    destruct (run runtime_id sys1 evs) as [[sys2 es2]|] eqn:Hrest; [| discriminate].
    injection Hrun as <- _.
    destruct (step_footprint _ _ _ _ _ Hstep) as (_ & Hd & Hu & Hh & _).
    destruct (IH _ _ _ Hrest) as (Hu' & Hh' & Hd').
    split_and!.
    + intros u Hs. by apply Hu', Hu.
    + intros l d Hl. destruct (Hh _ _ Hl) as (d1 & Hl1 & H1 & H2 & H3).
      destruct (Hh' _ _ Hl1) as (d2 & Hl2 & H1' & H2' & H3').
      exists d2. split; [done |]. split_and!; congruence.
    + intros t Hall Hs. apply Forall_cons_1 in Hall as [Hev Hall].
      apply Hd'; [done |]. by apply Hd.
Qed.

Lemma tab_levels_isolated_witness :
  let sys := after second_tab in
  let ev := Callback 1 (GotTab (inr (page 7 "https://a.example/"))) in
  ∃ sys' es,
    step ext_id sys ev = Some (sys', es)
    ∧ tabVolumeSettings (prog sys') !! num 42 = Some 2%positive
    ∧ ∃ d', heap (prog sys') !! 2%positive = Some d' ∧ same_levels record_80 d'.
Proof.
  intros sys ev.
  destruct (step ext_id sys ev) as [[sys' es]|] eqn:Hstep;
    [| vm_compute in Hstep; discriminate].
  exists sys', es. split; [reflexivity |].
  apply (tab_levels_isolated ext_id sys ev sys' es (num 42) 2%positive record_80).
  - exact Hstep.
  - vm_compute. intros [=].
  - vm_compute. reflexivity.
  - vm_compute. reflexivity.
Defined.

Lemma nothing_forgotten_witness :
  let sys := after second_tab in
  let evs := [ Callback 1 (GotTab (inr (page 7 "https://a.example/")));
               Removed (num 7) ] in
  ∃ sys' es,
    run ext_id sys evs = Some (sys', es)
    ∧ is_Some (urlVolumeSettings (prog sys') !! "https://a.example/"%string)
    ∧ is_Some (tabVolumeSettings (prog sys') !! num 42).
Proof.
  intros sys evs.
  destruct (run ext_id sys evs) as [[sys' es]|] eqn:Hrun;
    [| vm_compute in Hrun; discriminate].
  exists sys', es. split; [reflexivity |].
  destruct (nothing_forgotten ext_id evs sys sys' es Hrun) as (Hu & _ & Ht).
  split.
  - apply Hu. vm_compute. by eexists.
  - apply Ht.
    + repeat constructor; vm_compute; intros [=].
    + vm_compute. by eexists.
Defined.

(* ================================================================== *)
(** * Running the cache and the listeners *)
(* ================================================================== *)

(** Runs the combinators by computation; the functions called are to
    be abstracted beforehand. *)
Ltac mcbv :=
  cbv beta iota zeta delta [bind gets modify emit ret skip];
  cbn [val state effs app].

(** Big-step evaluation: the result of a sequence is assembled from the
    results of its parts, each computed once. *)
Lemma run_bind {A B} (c : M A) (k : A → M B) s v1 s1 es1 v2 s2 es2 :
  c s = mkRes v1 s1 es1 → k v1 s1 = mkRes v2 s2 es2 →
  bind c k s = mkRes v2 s2 (es1 ++ es2).
Proof. intros H1 H2. unfold bind. rewrite H1. cbn [val state effs]. by rewrite H2. Qed.

Ltac meval :=
  cbv beta;
  lazymatch goal with
  | |- bind _ _ _ = _ => eapply run_bind; [meval | meval]
  | |- gets _ _ = _ => reflexivity
  | |- read _ _ = _ => reflexivity
  | |- modify _ _ = _ => reflexivity
  | |- write _ _ _ = _ => reflexivity
  | |- alloc _ _ = _ => reflexivity
  | |- emit _ _ = _ => reflexivity
  | |- console _ _ _ = _ => reflexivity
  | |- respond _ _ = _ => reflexivity
  | |- ret _ _ = _ => reflexivity
  | |- skip _ = _ => reflexivity
  | |- _ => idtac
  end.

Lemma getVolumeDataForTab_known s tabId url l :
  isValidTabId (JNum tabId) = true → tabVolumeSettings s !! tabId = Some l →
  getVolumeDataForTab tabId url s = mkRes l s [].
Proof.
  intros Ht Hl. unfold getVolumeDataForTab. rewrite Ht. cbn [negb]. mrun.
  rewrite Hl. by mrun.
Qed.

Lemma getVolumeDataForTab_adopt s tabId u l :
  isValidTabId (JNum tabId) = true → tabVolumeSettings s !! tabId = None →
  u ≠ ""%string → urlVolumeSettings s !! u = Some l →
  getVolumeDataForTab tabId (Some u) s
  = mkRes l
      (with_urlVolumeSettings (insert u l)
         (with_heap (insert l (set_tabUrl u (heap s !!! l)))
            (with_tabVolumeSettings (insert tabId l) s)))
      [StorageSet (TabKey tabId) (heap s !!! l);
       StorageSet (UrlKey u) (set_tabUrl u (heap s !!! l))].
Proof.
  intros Ht Htab Hu Hurl.
  unfold getVolumeDataForTab. rewrite Ht. cbn [negb]. mrun.
  rewrite Htab. mrun. unfold url_entry.
  rewrite (proj2 (truthy_str_true u) Hu), Hurl. mrun.
  rewrite saveTabVolume_run by done.
  rewrite (proj2 (truthy_str_true u) Hu). by cbn [val state effs app].
Qed.

Lemma getVolumeDataForTab_fresh s tabId url :
  isValidTabId (JNum tabId) = true → tabVolumeSettings s !! tabId = None →
  url_entry (urlVolumeSettings s) url = None →
  getVolumeDataForTab tabId url s
  = mkRes (fresh (dom (heap s)))
          (with_heap (insert (fresh (dom (heap s))) getDefaultVolumeData) s) [].
Proof.
  intros Ht Htab Hentry.
  unfold getVolumeDataForTab. rewrite Ht. cbn [negb]. mrun.
  rewrite Htab. mrun. by rewrite Hentry.
Qed.

Lemma applyVolumeToTab_run s tabId l :
  isValidTabId (JNum tabId) = true →
  applyVolumeToTab tabId l s
  = mkRes tt s [Call (PTabsSendMessage tabId (command_of (heap s !!! l)) 0)].
Proof.
  intros Ht. unfold applyVolumeToTab. rewrite Ht. cbn [negb]. unfold read. mrun.
  rewrite sendMessageToTab_run; [done | done |].
  simpl. by destruct (muted (heap s !!! l)).
Qed.

(** The state an accepted [updateTabVolume] leaves, for a tab that
    shows a page with a non-empty address. *)
Lemma tabsGetCallback_state s tabId v m pv tab u :
  isValidTabId (JNum tabId) = true → Tab.url tab = Some u → u ≠ ""%string →
  let g := getVolumeDataForTab tabId (Some u) s in
  let l := fresh (dom (heap (state g))) in
  let new := set_tabUrl u (merged (heap (state g) !!! val g) v m pv) in
  state (tabsGetCallback tabId v m pv (inr tab) s)
  = with_urlVolumeSettings (insert u l)
      (with_heap (insert l new)
         (with_tabVolumeSettings (insert tabId l)
            (with_heap (insert l (merged (heap (state g) !!! val g) v m pv))
               (state g)))).
Proof.
  intros Ht Hurl Hu g l new.
  unfold tabsGetCallback, read, alloc, respond. rewrite Hurl.
  remember (getVolumeDataForTab tabId (Some u)) as G eqn:HG.
  remember (saveTabVolume tabId) as S eqn:HS.
  remember (applyVolumeToTab tabId) as P eqn:HP.
  mcbv. subst G S P. fold g.
  rewrite saveTabVolume_run by done.
  rewrite (proj2 (truthy_str_true u) Hu). cbn [val state effs app]. sproj.
  rewrite lookup_total_insert_eq.
  fold (merged (heap (state g) !!! val g) v m pv). fold l.
  rewrite applyVolumeToTab_run by done. by cbn [val state effs app].
Qed.

(** A tab without a record starts playing a page whose address has one:
    the tab adopts that object. *)
Lemma onUpdated_adopts s tabId changeInfo tab u l :
  isValidTabId (JNum tabId) = true →
  ci_audible changeInfo = Some true → ci_url changeInfo = None →
  Tab.url tab = Some u → u ≠ ""%string →
  tabVolumeSettings s !! tabId = None → urlVolumeSettings s !! u = Some l →
  let r := onUpdated tabId changeInfo tab s in
  tabVolumeSettings (state r) !! tabId = Some l
  ∧ urlVolumeSettings (state r) !! u = Some l
  ∧ heap (state r) !!! l = set_tabUrl u (set_hasAudio true (heap s !!! l))
  ∧ audibleTabs (state r) = {[tabId]} ∪ audibleTabs s
  ∧ PTimeoutApply tabId l ∈ calls (effs r)
  ∧ writes (effs r)
    = [(TabKey tabId, heap s !!! l);
       (UrlKey u, set_tabUrl u (heap s !!! l));
       (TabKey tabId, set_hasAudio true (set_tabUrl u (heap s !!! l)));
       (UrlKey u, set_tabUrl u (set_hasAudio true (heap s !!! l)))].
Proof.
  intros Ht Haud Hci Hurl Hu Htab Hknown r.
  subst r. unfold onUpdated. rewrite Ht, Haud, Hci, Hurl.
  cbn [negb truthy_opt andb].
  destruct (bool_decide (ci_status changeInfo = Some "complete"%string)).
  all: match goal with
       | |- tabVolumeSettings (state ?c) !! _ = _ ∧ _ => set (r := c)
       end.
  all: eassert (Hrun : r = mkRes _ _ _);
    [ subst r; meval;
      [ by apply (getVolumeDataForTab_adopt _ tabId u l)
      | rewrite saveTabVolume_run by done;
        by rewrite (proj2 (truthy_str_true u) Hu) ] |].
  all: rewrite Hrun; cbn [val state effs]; sproj.
  all: rewrite !lookup_total_insert_eq, !lookup_insert_eq.
  all: split_and!; try done.
  all: unfold calls; simpl.
  - by right; left.
  - by left.
Qed.

(** The levels set for a tab follow the page address: after an accepted
    [updateTabVolume] for a tab showing [u], the tab is closed; when a
    tab without a record then starts playing [u], it is bound to the very
    object the update stored, the settling timer is armed for it, and
    the command that timer sends carries the levels of the update. *)
Theorem settings_follow_address s tabId tabId' v m pv tab tab' changeInfo u :
  isValidTabId (JNum tabId) = true → isValidTabId (JNum tabId') = true →
  Tab.url tab = Some u → Tab.url tab' = Some u → u ≠ ""%string →
  ci_audible changeInfo = Some true → ci_url changeInfo = None →
  let s1 := state (tabsGetCallback tabId v m pv (inr tab) s) in
  let s2 := state (onRemoved tabId s1) in
  tabVolumeSettings s2 !! tabId' = None →
  let r := onUpdated tabId' changeInfo tab' s2 in
  ∃ l, tabVolumeSettings s1 !! tabId = Some l
     ∧ tabVolumeSettings (state r) !! tabId' = Some l
     ∧ same_levels (heap s1 !!! l) (heap (state r) !!! l)
     ∧ PTimeoutApply tabId' l ∈ calls (effs r)
     ∧ effs (applyVolumeToTab tabId' l (state r))
       = [Call (PTabsSendMessage tabId' (command_of (heap s1 !!! l)) 0)].
Proof.
  intros Ht Ht' Hurl Hurl' Hu Haud Hci s1 s2 Hfree r.
  pose proof (tabsGetCallback_state s tabId v m pv tab u Ht Hurl Hu) as Hs1.
  cbv zeta in Hs1. fold s1 in Hs1.
  set (g := getVolumeDataForTab tabId (Some u) s) in Hs1.
  set (l := fresh (dom (heap (state g)))) in Hs1.
  assert (Htab1 : tabVolumeSettings s1 !! tabId = Some l)
    by (rewrite Hs1; simpl; by rewrite lookup_insert_eq).
  assert (Hurl1 : urlVolumeSettings s1 !! u = Some l)
    by (rewrite Hs1; simpl; by rewrite lookup_insert_eq).
  assert (Hs2 : urlVolumeSettings s2 = urlVolumeSettings s1 ∧ heap s2 = heap s1).
  { subst s2. rewrite onRemoved_state, Ht. done. }
  destruct Hs2 as [Hu2 Hh2].
  destruct (onUpdated_adopts s2 tabId' changeInfo tab' u l)
    as (Htab & _ & Hheap & _ & Hcall & _); try done.
  { by rewrite Hu2. }
  fold r in Htab, Hheap, Hcall.
  exists l. split_and!; try done.
  - rewrite Hheap, Hh2. by repeat split.
  - rewrite applyVolumeToTab_run by done. rewrite Hheap, Hh2.
    unfold command_of. simpl. done.
Qed.

Lemma settings_follow_address_witness :
  let u := "https://a.example/"%string in
  let s1 := state (tabsGetCallback (num 42) (Some (num 30)) None None
                     (inr (page 42 u)) initial) in
  let s2 := state (onRemoved (num 42) s1) in
  let r := onUpdated (num 43) started_audio (page 43 u) s2 in
  ∃ l, tabVolumeSettings (state r) !! num 43 = Some l
     ∧ effs (applyVolumeToTab (num 43) l (state r))
       = [Call (PTabsSendMessage (num 43)
                  (Cmd.mk "setVolume" (num 30) false (num 100)) 0)].
Proof.
  intros u s1 s2 r.
  destruct (settings_follow_address initial (num 42) (num 43)
              (Some (num 30)) None None (page 42 u) (page 43 u) started_audio u)
    as (l & Hl1 & Hl & _ & _ & Hsend);
    [vm_compute; reflexivity | vm_compute; reflexivity | reflexivity
    | reflexivity | discriminate | reflexivity | reflexivity
    | vm_compute; reflexivity |].
  vm_compute in Hl1. injection Hl1 as <-.
  exists 2%positive. split; [exact Hl |].
  etransitivity; [exact Hsend | vm_compute; reflexivity].
Defined.

Lemma valid_tab_truthy t : isValidTabId (JNum t) = true → truthy_num t = true.
Proof.
  destruct t as [| | |q]; try done. unfold isValidTabId, num_lt, num. simpl.
  intros Hq%bool_decide_eq_true. apply negb_true_iff, bool_decide_eq_false.
  intros ->. by apply Qclt_not_eq in Hq.
Qed.

Lemma dispatch_updateTabStatus message sender throws now s t b l :
  prop message "action" = JStr "updateTabStatus" →
  sender_tab_id sender = Some t → isValidTabId (JNum t) = true →
  prop message "hasAudio" = JBool b →
  tabVolumeSettings s !! t = Some l →
  let s1 := with_tabVolumeSettings (insert t l)
              (with_heap (insert l (set_hasAudio b (heap s !!! l))) s) in
  let r := saveTabVolume t l (sender_tab_url sender) s1 in
  dispatch message sender throws now s
  = mkRes (Some true) (state r) (effs r ++ [SendResponse Success]).
Proof.
  intros Hact Hid Ht Hb Hl s1 r. unfold dispatch. rewrite Hact. decide_action.
  rewrite Hid. cbn [truthy_opt default from_option id].
  rewrite (valid_tab_truthy _ Ht), Ht. cbn [negb]. rewrite Hb.
  assert (Hr : ∀ x : Res unit, x = mkRes tt (state x) (effs x))
    by (by intros [[] ? ?]).
  etransitivity.
  { meval; [by apply getVolumeDataForTab_known | exact (Hr r)]. }
  by cbn [app].
Qed.

(** Tabs that show the same page share one record object.  When the
    content script of one of them reports whether the page has audio,
    the flag changes for every tab bound to that object; the levels of
    the object are untouched, the other tab keeps its binding, and the
    request is answered with success. *)
Theorem status_report_is_shared message sender throws now s t t' b l :
  prop message "action" = JStr "updateTabStatus" →
  sender_tab_id sender = Some t → isValidTabId (JNum t) = true →
  prop message "hasAudio" = JBool b →
  tabVolumeSettings s !! t = Some l → tabVolumeSettings s !! t' = Some l →
  let r := dispatch message sender throws now s in
  tabVolumeSettings (state r) !! t' = Some l
  ∧ hasAudio (heap (state r) !!! l) = b
  ∧ same_levels (heap s !!! l) (heap (state r) !!! l)
  ∧ responses (effs r) = [Success].
Proof.
  intros Hact Hid Ht Hb Hl Hl' r. subst r.
  rewrite (dispatch_updateTabStatus _ _ _ _ _ _ _ _ Hact Hid Ht Hb Hl).
  cbn [val state effs]. rewrite saveTabVolume_run by done.
  assert (Hother : <[t := l]> (tabVolumeSettings s) !! t' = Some l).
  { rewrite lookup_insert. by case_decide. }
  rewrite responses_app.
  destruct (sender_tab_url sender) as [u|]; [destruct (truthy_str u) |];
    cbn [val state effs]; sproj; rewrite ?lookup_total_insert_eq;
    by split_and!.
Qed.

Lemma status_report_is_shared_witness :
  let s := prog (after shared_page) in
  let r := dispatch (request "updateTabStatus" [("hasAudio"%string, JBool false)])
                    (content_script 7 "https://a.example/") None 0 s in
  tabVolumeSettings s !! num 42 = Some 1%positive
  ∧ hasAudio (heap s !!! 1%positive) = true
  ∧ tabVolumeSettings (state r) !! num 42 = Some 1%positive
  ∧ hasAudio (heap (state r) !!! 1%positive) = false.
Proof.
  intros s r.
  assert (H42 : tabVolumeSettings s !! num 42 = Some 1%positive)
    by (vm_compute; reflexivity).
  split; [exact H42 |]. split; [vm_compute; reflexivity |].
  destruct (status_report_is_shared
              (request "updateTabStatus" [("hasAudio"%string, JBool false)])
              (content_script 7 "https://a.example/") None 0 s
              (num 7) (num 42) false 1%positive)
    as (Hbind & Hflag & _);
    [reflexivity | reflexivity | vm_compute; reflexivity | reflexivity
    | vm_compute; reflexivity | exact H42 |].
  split; [exact Hbind | exact Hflag].
Defined.

(** [getAudioStatus] from the content script of a valid tab.  If the
    tab has a record, the answer carries the levels of that record and
    nothing else happens: no state change, no storage write, no send.
    If the tab has no record and its address has none either, the answer
    carries the defaults 100 / not muted / 100 and neither mapping
    changes, so the defaults are not remembered. *)
Theorem getAudioStatus_reads message sender throws now s t :
  prop message "action" = JStr "getAudioStatus" →
  sender_tab_id sender = Some t → isValidTabId (JNum t) = true →
  let r := dispatch message sender throws now s in
  (∀ l, tabVolumeSettings s !! t = Some l →
        r = mkRes (Some true) s
              [SendResponse (AudioStatus (volume (heap s !!! l))
                                         (muted (heap s !!! l))
                                         (previousVolume (heap s !!! l)))])
  ∧ (tabVolumeSettings s !! t = None →
     url_entry (urlVolumeSettings s) (sender_tab_url sender) = None →
     val r = Some true
     ∧ effs r = [SendResponse (AudioStatus (num 100) false (num 100))]
     ∧ tabVolumeSettings (state r) = tabVolumeSettings s
     ∧ urlVolumeSettings (state r) = urlVolumeSettings s).
Proof.
  intros Hact Hid Ht r. subst r. unfold dispatch. rewrite Hact. decide_action.
  rewrite Hid. cbn [truthy_opt default from_option id].
  rewrite (valid_tab_truthy _ Ht), Ht. cbn [negb]. split.
  - intros l Hl. etransitivity.
    { meval. by apply getVolumeDataForTab_known. }
    done.
  - intros Hnone Hurl.
    match goal with |- val ?c = _ ∧ _ => set (r := c) end.
    eassert (Hrun : r = mkRes _ _ _).
    { subst r. meval. by apply getVolumeDataForTab_fresh. }
    rewrite Hrun. cbn [val state effs app]. sproj.
    by rewrite lookup_total_insert_eq.
Qed.

Lemma getAudioStatus_reads_witness :
  let s := prog (after volume_80) in
  dispatch (request "getAudioStatus" []) (content_script 42 "https://a.example/")
           None 0 s
  = mkRes (Some true) s [SendResponse (AudioStatus (num 80) false (num 100))].
Proof.
  intros s.
  destruct (getAudioStatus_reads (request "getAudioStatus" [])
              (content_script 42 "https://a.example/") None 0 s (num 42))
    as [Hknown _]; [reflexivity | reflexivity | vm_compute; reflexivity |].
  rewrite (Hknown 2%positive); [| vm_compute; reflexivity].
  vm_compute. reflexivity.
Defined.

(* ================================================================== *)
(** * Restoring what was persisted *)
(* ================================================================== *)

Lemma stored_fields d :
  prop (stored d) "volume" = JNum (volume d)
  ∧ prop (stored d) "previousVolume" = JNum (previousVolume d)
  ∧ prop (stored d) "muted" = JBool (muted d)
  ∧ prop (stored d) "hasAudio" = JBool (hasAudio d)
  ∧ opt_bool (prop (stored d) "isPlaying") = isPlaying d
  ∧ opt_str (prop (stored d) "tabUrl") = tabUrl d.
Proof. destruct d as [vol prev m h [pl|] [u|]]; by split_and!. Qed.

Lemma validateVolumeData_stored d :
  valid_record d → validateVolumeData (stored d) = d.
Proof.
  intros [(v & Hv & Hv0 & Hv1) (p & Hp & Hp0 & Hp1)].
  destruct (stored_fields d) as (F1 & F2 & F3 & F4 & F5 & F6).
  unfold validateVolumeData.
  change (negb (truthy (stored d)) || negb (String.eqb (typeof (stored d)) "object"))
    with false. cbv iota.
  rewrite F1, F2, F3, F4, F5, F6, Hv, Hp.
  rewrite (proj2 (isValidVolume_spec (JNum (Fin v)))) by (by exists v).
  rewrite (proj2 (isValidVolume_spec (JNum (Fin p)))) by (by exists p).
  destruct d; simpl in *; by subst.
Qed.

Lemma pretty_N_go_digits x : ∀ s,
  ∃ ds, pretty.pretty_N_go x s = digits_string ds s
        ∧ Forall (λ d, (d < 10)%N) ds
        ∧ digits_value ds = x
        ∧ ((0 < x)%N → ds ≠ []).
Proof.
  induction (N.lt_wf_0 x) as [x _ IH]. intros s.
  destruct (decide (x = 0%N)) as [-> | Hx].
  - exists []. rewrite pretty.pretty_N_go_0. split_and!; [done | constructor | done | lia].
  - rewrite pretty.pretty_N_go_step by lia.
    destruct (IH (x `div` 10)%N) with (s := String (pretty.pretty_N_char (x `mod` 10)) s)
      as (ds & Heq & Hall & Hval & _).
    { apply N.div_lt; lia. }
    exists (ds ++ [(x `mod` 10)%N]). split_and!.
    + rewrite Heq. unfold digits_string. by rewrite foldr_app.
    + apply Forall_app. split; [done |]. constructor; [| constructor].
      apply N.mod_lt. lia.
    + unfold digits_value in *. rewrite foldl_app. simpl. rewrite Hval.
      rewrite (N.div_mod x 10) at 3 by lia. lia.
    + intros _. by destruct ds.
Qed.

Lemma digit_cases d :
  (d < 10)%N →
  d = 0%N ∨ d = 1%N ∨ d = 2%N ∨ d = 3%N ∨ d = 4%N ∨ d = 5%N ∨ d = 6%N
  ∨ d = 7%N ∨ d = 8%N ∨ d = 9%N.
Proof. lia. Qed.

Ltac digit_cases d H :=
  destruct (digit_cases d H) as [-> | [-> | [-> | [-> | [-> | [-> | [-> | [-> | [-> | ->]]]]]]]]].

Lemma digit_val_char d :
  (d < 10)%N → digit_val 10 (pretty.pretty_N_char d) = Some (Z.of_N d).
Proof. intros H. digit_cases d H; reflexivity. Qed.

Lemma parse_digits_string ds s : ∀ acc,
  Forall (λ d, (d < 10)%N) ds →
  parse_digits 10 (digits_string ds s) acc
  = parse_digits 10 s (foldl (λ a d, Some (default 0 a * 10 + Z.of_N d)) acc ds).
Proof.
  induction ds as [|d ds IH]; intros acc Hall; [done |].
  apply Forall_cons_1 in Hall as [Hd Hall].
  change (digits_string (d :: ds) s)
    with (String (pretty.pretty_N_char d) (digits_string ds s)).
  cbn [parse_digits]. rewrite (digit_val_char d Hd). by rewrite IH.
Qed.

Lemma digits_fold ds : ∀ a,
  foldl (λ a d, Some (default 0 a * 10 + Z.of_N d)) (Some (Z.of_N a)) ds
  = Some (Z.of_N (foldl (λ a d, a * 10 + d)%N a ds)).
Proof.
  induction ds as [|d ds IH]; intros a; [done |].
  cbn [foldl default from_option id].
  replace (Z.of_N a * 10 + Z.of_N d) with (Z.of_N (a * 10 + d)) by lia.
  apply IH.
Qed.

Lemma parse_digits_value ds :
  ds ≠ [] → Forall (λ d, (d < 10)%N) ds →
  parse_digits 10 (digits_string ds "") None = Some (Z.of_N (digits_value ds)).
Proof.
  intros Hne Hall. rewrite parse_digits_string by done.
  destruct ds as [|d ds]; [done |]. cbn [foldl default from_option id parse_digits].
  unfold digits_value. cbn [foldl].
  replace (0 * 10 + Z.of_N d) with (Z.of_N (0 * 10 + d)) by lia.
  apply digits_fold.
Qed.

(** On a string that starts with decimal digits, [parseInt] reads in
    base 10 from the first character. *)
Lemma parseInt_digits ds :
  ds ≠ [] → Forall (λ d, (d < 10)%N) ds →
  parseInt (digits_string ds "") = num (Z.of_N (digits_value ds)).
Proof.
  intros Hne Hall.
  assert (Hshape : parseInt (digits_string ds "")
                   = match parse_digits 10 (digits_string ds "") None with
                     | Some z => num z
                     | None => NaN
                     end).
  { destruct ds as [|d1 rest]; [done |].
    apply Forall_cons_1 in Hall as [H1 Hrest].
    change (digits_string (d1 :: rest) "")
      with (String (pretty.pretty_N_char d1) (digits_string rest "")).
    digit_cases d1 H1; try reflexivity.
    destruct rest as [|d2 rest]; [reflexivity |].
    apply Forall_cons_1 in Hrest as [H2 _].
    change (digits_string (d2 :: rest) "")
      with (String (pretty.pretty_N_char d2) (digits_string rest "")).
    digit_cases d2 H2; reflexivity. }
  rewrite Hshape. by rewrite parse_digits_value.
Qed.

Lemma template_num_spec t ks :
  template_num t = Some ks → parseInt ks = t.
Proof.
  destruct t as [| | |q]; try discriminate. unfold template_num.
  destruct (bool_decide (Qden q = 1%positive) && (0 <? Qnum q)
            && (Qnum q <=? MAX_SAFE_INTEGER)) eqn:Hc;
    [| discriminate].
  apply andb_prop in Hc as [Hc _].
  apply andb_prop in Hc as [Hden%bool_decide_eq_true Hpos%Z.ltb_lt].
  intros [= <-].
  unfold pretty.pretty, pretty.pretty_N. rewrite decide_False by lia.
  destruct (pretty_N_go_digits (Z.to_N (Qnum q)) "") as (ds & -> & Hall & Hval & Hne).
  rewrite parseInt_digits; [| apply Hne; lia | done].
  rewrite Hval, Z2N.id by lia. unfold num. f_equal.
  apply Qc_is_canon. simpl. rewrite Qred_correct.
  destruct q as [[n d] Hq]. simpl in *. by subst d.
Qed.

Lemma prefix_append p x : String.prefix p (String.append p x) = true.
Proof.
  induction p as [|c p IH]; [by destruct x |].
  simpl. by destruct (Ascii.ascii_dec c c).
Qed.

Lemma drop_chars_append p x : drop_chars (String.length p) (String.append p x) = x.
Proof. induction p as [|c p IH]; [by destruct x | done]. Qed.

Lemma remove_first_append p x : remove_first p (String.append p x) = x.
Proof.
  destruct p as [|c p]; [by destruct x |].
  change (remove_first (String c p) (String.append (String c p) x))
    with (if String.prefix (String c p) (String.append (String c p) x)
          then drop_chars (String.length (String c p)) (String.append (String c p) x)
          else String c (remove_first (String c p) (String.append p x))).
  by rewrite prefix_append, drop_chars_append.
Qed.

(** The keys a later session does not read back as written:
    [parseInt] stops at the point of a fraction and at the exponent
    mark, so the keys of the tab ids 1.5 and 10^21 are both read as
    tab 1. *)
Lemma parseInt_stops_early :
  parseInt "1.5" = num 1 ∧ parseInt "1e+21" = num 1.
Proof. by vm_compute. Qed.

(** Every record the coordinator hands to the store, under an address
    key or under the key of a tab id that is an integer up to
    [MAX_SAFE_INTEGER] (the ids [storage_key] prints), is restored
    unchanged by the startup load of a later session: loading the stored
    entry binds the same tab id, or the same address, to a record equal
    to the one that was written. *)
Theorem persisted_record_restored runtime_id sys ev sys' es key d ks s :
  reachable runtime_id sys → step runtime_id sys ev = Some (sys', es) →
  (key, d) ∈ writes es → storage_key key = Some ks →
  let r := hydrateKey ks (stored d) s in
  ∃ l, heap (state r) !!! l = d
       ∧ match key with
         | TabKey t => tabVolumeSettings (state r) !! t = Some l
         | UrlKey u => urlVolumeSettings (state r) !! u = Some l
         end.
Proof.
  intros Hreach%reachable_sound Hstep Hin Hks r.
  destruct (step_sound _ _ _ _ _ Hreach Hstep) as [_ Hes].
  change ((key, d) ∈ omap (λ e, match e with
                                | StorageSet k v => Some (k, v)
                                | _ => None
                                end) es) in Hin.
  apply list_elem_of_omap in Hin as (e & He & Heq).
  destruct e; try discriminate. injection Heq as -> ->.
  change (StorageSet key d ∈ es) in He.
  apply list_elem_of_lookup in He as [i Hi].
  destruct (Forall_lookup_1 _ _ _ _ Hes Hi) as [Hvalid Hkey].
  subst r. destruct key as [t | u]; simpl in Hks.
  - destruct (template_num t) as [digits|] eqn:Ht; [| discriminate].
    injection Hks as <-.
    pose proof (template_num_spec _ _ Ht) as Hparse.
    destruct (hydrateKey_tab s (String.append "tab-volume-" digits) (stored d))
      as (l & Hl & Hd).
    + apply prefix_append.
    + by rewrite remove_first_append, Hparse.
    + rewrite remove_first_append, Hparse in Hl.
      exists l. by rewrite Hd, validateVolumeData_stored.
  - injection Hks as <-. destruct Hkey as [Hu _].
    destruct (hydrateKey_url s (String.append "url-volume-" u) (stored d))
      as (l & Hl & Hd).
    + apply prefix_append.
    + by rewrite remove_first_append.
    + rewrite remove_first_append in Hl.
      exists l. by rewrite Hd, validateVolumeData_stored.
Qed.

Lemma persisted_record_restored_witness :
  let sys := after [Callback 0 (Loaded false [])] in
  let ev := Updated (num 42) started_audio (page 42 "https://a.example/") in
  let r := hydrateKey "tab-volume-42" (stored getDefaultVolumeData) initial in
  ∃ l, heap (state r) !!! l = getDefaultVolumeData
       ∧ tabVolumeSettings (state r) !! num 42 = Some l.
Proof.
  intros sys ev r.
  destruct (step ext_id sys ev) as [[sys' es]|] eqn:Hstep;
    [| vm_compute in Hstep; discriminate].
  apply (persisted_record_restored ext_id sys ev sys' es
           (TabKey (num 42)) getDefaultVolumeData "tab-volume-42" initial).
  - apply after_reachable.
  - exact Hstep.
  - vm_compute in Hstep. injection Hstep as _ <-. vm_compute. left.
  - vm_compute. reflexivity.
Defined.

(* ================================================================== *)
(** * The content script: volume and gain *)
(* ================================================================== *)

Lemma andThen_state (r : Content.Run) f :
  (Content.andThen r f).1 = (f r.1).1.
Proof. destruct r as [s1 es1]. simpl. by destruct (f s1). Qed.

Lemma andThen_effects (r : Content.Run) f :
  (Content.andThen r f).2 = r.2 ++ (f r.1).2.
Proof. destruct r as [s1 es1]. simpl. by destruct (f s1). Qed.

Lemma connected_app es1 es2 :
  Content.connected (es1 ++ es2) = Content.connected es1 ++ Content.connected es2.
Proof. apply omap_app. Qed.

Lemma replies_app es1 es2 :
  Content.replies (es1 ++ es2) = Content.replies es1 ++ Content.replies es2.
Proof. apply omap_app. Qed.

Lemma promises_app es1 es2 :
  Content.promises (es1 ++ es2) = Content.promises es1 ++ Content.promises es2.
Proof. apply omap_app. Qed.

Lemma notices_app es1 es2 :
  Content.notices (es1 ++ es2) = Content.notices es1 ++ Content.notices es2.
Proof. apply omap_app. Qed.

Lemma steady_refl s es :
  Content.connected es = [] → Content.steady s (s, es).
Proof. intros He. split_and!; try done. simpl. by rewrite He, app_nil_r. Qed.

Lemma steady_andThen s r f :
  Content.steady s r → Content.steady r.1 (f r.1) →
  Content.steady s (Content.andThen r f).
Proof.
  intros (V1 & G1 & M1) (V2 & G2 & M2).
  unfold Content.steady. rewrite andThen_state, andThen_effects.
  split_and!.
  - auto.
  - auto.
  - by rewrite M2, M1, connected_app, app_assoc.
Qed.

Ltac steady_seq :=
  lazymatch goal with
  | |- Content.steady _ (Content.andThen _ _) =>
      apply steady_andThen; [steady_seq | cbv beta]
  | |- _ => idtac
  end.

Lemma setVolume_steady v s : Content.steady s (Content.setVolume v s).
Proof.
  unfold Content.setVolume.
  destruct (Content.isValidVolume v) eqn:Hv; cbn [negb]; [| by apply steady_refl].
  pose proof (isValidVolume_in_range _ Hv) as Hr.
  destruct (Content.gainNode s) as [g|] eqn:Hg.
  - split_and!; simpl; [done | | by rewrite app_nil_r].
    intros _. unfold Content.gain_follows. rewrite Hg. simpl. by intros [_ ->].
  - split_and!; simpl; [done | | by rewrite app_nil_r].
    intros _. unfold Content.gain_follows. by rewrite Hg.
Qed.

Lemma setVolume_sets v s :
  Content.isValidVolume v = true →
  Content.currentVolume (Content.setVolume v s).1 = as_num v.
Proof.
  intros Hv. unfold Content.setVolume. rewrite Hv. cbn [negb].
  by destruct (Content.gainNode s).
Qed.

Lemma setVolume_quiet v s :
  Content.replies (Content.setVolume v s).2 = []
  ∧ Content.promises (Content.setVolume v s).2 = []
  ∧ Content.notices (Content.setVolume v s).2 = [].
Proof.
  unfold Content.setVolume.
  destruct (negb (Content.isValidVolume v)); [done |].
  by destruct (Content.gainNode s).
Qed.

Lemma in_range_valid n : in_range n → Content.isValidVolume (JNum n) = true.
Proof. intros (q & -> & H0 & H1). apply isValidVolume_spec. by exists q. Qed.

Lemma initAudio_steady page s : Content.steady s (Content.initAudio page s).
Proof.
  unfold Content.initAudio.
  destruct (Content.audioContext s) eqn:Hctx; [by apply steady_refl |].
  destruct (Content.context_available page); [| by apply steady_refl].
  unfold Content.steady. rewrite andThen_state, andThen_effects. simpl.
  unfold Content.setVolume. cbn [Content.gainNode].
  destruct (Content.isValidVolume (JNum (Content.currentVolume s))) eqn:Hv;
    cbn [negb]; simpl.
  - split_and!; try done. by rewrite app_nil_r.
  - split_and!; [done | | by rewrite app_nil_r].
    intros Hr. by rewrite (in_range_valid _ Hr) in Hv.
Qed.

Lemma connectElement_steady el s : Content.steady s (Content.connectElement el s).
Proof.
  unfold Content.connectElement.
  destruct (Content.media_attached el); cbn [negb]; [| by apply steady_refl].
  destruct (Content.media_connects el); [| by apply steady_refl].
  split_and!; try done.
Qed.

Lemma forEach_steady {A} (f : A → Content.State → Content.Run) l :
  (∀ x s, Content.steady s (f x s)) →
  ∀ s, Content.steady s (Content.forEach l f s).
Proof.
  intros Hf. induction l as [|x l IH]; intros s; simpl.
  - by apply steady_refl.
  - apply steady_andThen; [apply Hf | apply IH].
Qed.

Lemma notify_steady page action data s :
  Content.steady s (Content.safelyNotifyBackgroundScript page action data s).
Proof.
  unfold Content.safelyNotifyBackgroundScript.
  destruct (Content.runtime_available page); by apply steady_refl.
Qed.

Lemma findAndConnectAudio_steady page s :
  Content.steady s (Content.findAndConnectAudio page s).
Proof.
  unfold Content.findAndConnectAudio.
  destruct (negb (Content.audioContext s) || _); [by apply steady_refl |].
  apply steady_andThen.
  - apply forEach_steady, connectElement_steady.
  - destruct (0 <? _)%nat; [apply notify_steady | by apply steady_refl].
Qed.

Lemma onMutations_steady page childList s :
  Content.steady s (Content.onMutations page childList s).
Proof.
  unfold Content.onMutations.
  destruct (fold_left _ _ _); [apply findAndConnectAudio_steady | by apply steady_refl].
Qed.

Lemma onInitialVolume_steady lastError response s :
  Content.steady s (Content.onInitialVolume lastError response s).
Proof.
  unfold Content.onInitialVolume.
  destruct lastError; [by apply steady_refl |].
  destruct (truthy response && _); [| by apply steady_refl].
  apply steady_andThen; [apply setVolume_steady | by apply steady_refl].
Qed.

Lemma onMessage_steady runtime_id page request sender_id s :
  Content.steady s (Content.onMessage runtime_id page request sender_id s).2.
Proof.
  unfold Content.onMessage.
  destruct (truthy_opt truthy_str sender_id && _); [by apply steady_refl |].
  destruct (negb (truthy request) || _ || _); [by apply steady_refl |].
  destruct (is_string _ "getAudioStatus").
  { cbn [snd]. steady_seq;
      [apply initAudio_steady | apply findAndConnectAudio_steady
      | by apply steady_refl]. }
  destruct (is_string _ "setVolume").
  { destruct (negb (Content.isValidVolume _)); cbn [snd]; [by apply steady_refl |].
    steady_seq;
      [apply initAudio_steady | apply findAndConnectAudio_steady
      | apply setVolume_steady | by apply steady_refl]. }
  destruct (is_string _ "toggleMute").
  { destruct (negb (String.eqb _ "boolean")); cbn [snd]; [by apply steady_refl |].
    steady_seq;
      [apply initAudio_steady | apply findAndConnectAudio_steady
      | | by apply steady_refl].
    destruct (truthy _); apply setVolume_steady. }
  destruct (is_string _ "playPauseAudio"); [| by apply steady_refl].
  destruct (Content.media page) as [|mediaEl ?]; [by apply steady_refl |].
  destruct (Content.paused page _); by apply steady_refl.
Qed.

Lemma step_steady runtime_id page s ev :
  Content.steady s (Content.step runtime_id page s ev).
Proof.
  destruct ev; simpl.
  - apply onMessage_steady.
  - apply onMutations_steady.
  - apply findAndConnectAudio_steady.
  - unfold Content.requestInitialVolume.
    destruct (Content.runtime_available page); by apply steady_refl.
  - apply onInitialVolume_steady.
  - destruct error; by apply steady_refl.
Qed.

Lemma initialize_steady page s : Content.steady s (Content.initialize page s).
Proof.
  unfold Content.initialize.
  steady_seq;
    [apply initAudio_steady | apply findAndConnectAudio_steady
    | by apply steady_refl | apply notify_steady | by apply steady_refl].
Qed.

Lemma run_steady runtime_id evs : ∀ s,
  Content.steady s (Content.run runtime_id evs s).
Proof.
  induction evs as [|[page ev] evs IH]; intros s; simpl.
  - by apply steady_refl.
  - apply steady_andThen; [apply step_steady | apply IH].
Qed.

(* ================================================================== *)
(** * The content script: tracked elements *)
(* ================================================================== *)

Lemma tidy_same page s r :
  Content.mediaElements r.1 = Content.mediaElements s → Content.tidy page s r.
Proof. intros Heq _ Hs. by rewrite Heq. Qed.

Lemma tidy_andThen page s r f :
  Content.tidy page s r → Content.tidy page r.1 (f r.1) →
  Content.tidy page s (Content.andThen r f).
Proof.
  intros H1 H2 Hp Hs. rewrite andThen_state. apply H2; [done |]. by apply H1.
Qed.

Lemma setVolume_tidy page v s : Content.tidy page s (Content.setVolume v s).
Proof.
  apply tidy_same. unfold Content.setVolume.
  destruct (negb (Content.isValidVolume v)); [done |].
  by destruct (Content.gainNode s).
Qed.

Lemma initAudio_tidy page s : Content.tidy page s (Content.initAudio page s).
Proof.
  apply tidy_same. unfold Content.initAudio.
  destruct (Content.audioContext s); [done |].
  destruct (Content.context_available page); [| done].
  rewrite andThen_state. cbn [fst snd Content.log]. unfold Content.setVolume.
  cbn [Content.gainNode]. by destruct (negb _).
Qed.

Lemma forEach_connect_sublist l : ∀ s,
  Content.connected (Content.forEach l Content.connectElement s).2
  `sublist_of` map Content.media_id l.
Proof.
  induction l as [|el l IH]; intros s; simpl; [done |].
  rewrite andThen_effects, connected_app.
  unfold Content.connectElement at 1.
  destruct (Content.media_attached el); cbn [negb];
    [destruct (Content.media_connects el) |]; simpl.
  - apply sublist_skip, IH.
  - apply sublist_cons, IH.
  - apply sublist_cons, IH.
Qed.

Lemma findAndConnectAudio_connected page s :
  Content.connected (Content.findAndConnectAudio page s).2
  `sublist_of`
  map Content.media_id
    (List.filter (λ el, negb (Content.includes (Content.mediaElements s) el)
                        && negb (String.eqb (Content.media_src el) ""))
                 (Content.media page)).
Proof.
  unfold Content.findAndConnectAudio.
  destruct (negb (Content.audioContext s) || _); [apply sublist_nil_l |].
  cbv zeta. rewrite andThen_effects, connected_app. cbv beta.
  match goal with
  | |- _ ++ Content.connected ?r.2 `sublist_of` _ =>
      assert (Content.connected r.2 = []) as ->
  end.
  { destruct (0 <? _)%nat; [| done].
    unfold Content.safelyNotifyBackgroundScript.
    by destruct (Content.runtime_available page). }
  rewrite app_nil_r. apply forEach_connect_sublist.
Qed.

Lemma findAndConnectAudio_tidy page s :
  Content.tidy page s (Content.findAndConnectAudio page s).
Proof.
  intros Hp Hs.
  destruct (findAndConnectAudio_steady page s) as (_ & _ & ->).
  pose proof (findAndConnectAudio_connected page s) as Hsub.
  apply list.NoDup_app. split_and!; [done | |].
  - intros x Hx Hin.
    apply (sublist_subseteq _ _ Hsub) in Hin.
    apply list_elem_of_fmap in Hin as (el & -> & Hel).
    apply list_elem_of_In, filter_In in Hel as [_ Hcond].
    apply andb_prop in Hcond as [Hnew _].
    apply negb_true_iff, bool_decide_eq_false in Hnew. done.
  - refine (sublist_NoDup _ _ _ Hsub).
    unfold Content.distinct in Hp.
    refine (sublist_NoDup _ _ Hp _).
    apply (fmap_sublist Content.media_id). clear.
    induction (Content.media page) as [|el l IH]; simpl; [done |].
    destruct (_ && _); [by apply sublist_skip | by apply sublist_cons].
Qed.

Ltac tidy_seq :=
  lazymatch goal with
  | |- Content.tidy _ _ (Content.andThen _ _) =>
      apply tidy_andThen; [tidy_seq | cbv beta]
  | |- _ => idtac
  end.

Lemma notify_tidy page action data s :
  Content.tidy page s (Content.safelyNotifyBackgroundScript page action data s).
Proof.
  apply tidy_same. unfold Content.safelyNotifyBackgroundScript.
  by destruct (Content.runtime_available page).
Qed.

Lemma onMessage_tidy runtime_id page request sender_id s :
  Content.tidy page s (Content.onMessage runtime_id page request sender_id s).2.
Proof.
  unfold Content.onMessage.
  destruct (truthy_opt truthy_str sender_id && _); [by apply tidy_same |].
  destruct (negb (truthy request) || _ || _); [by apply tidy_same |].
  destruct (is_string _ "getAudioStatus").
  { cbn [snd]. tidy_seq;
      [apply initAudio_tidy | apply findAndConnectAudio_tidy | by apply tidy_same]. }
  destruct (is_string _ "setVolume").
  { destruct (negb (Content.isValidVolume _)); cbn [snd]; [by apply tidy_same |].
    tidy_seq;
      [apply initAudio_tidy | apply findAndConnectAudio_tidy
      | apply setVolume_tidy | by apply tidy_same]. }
  destruct (is_string _ "toggleMute").
  { destruct (negb (String.eqb _ "boolean")); cbn [snd]; [by apply tidy_same |].
    tidy_seq;
      [apply initAudio_tidy | apply findAndConnectAudio_tidy
      | | by apply tidy_same].
    destruct (truthy _); apply setVolume_tidy. }
  destruct (is_string _ "playPauseAudio"); [| by apply tidy_same].
  destruct (Content.media page) as [|mediaEl ?]; [by apply tidy_same |].
  destruct (Content.paused page _); by apply tidy_same.
Qed.

Lemma step_tidy runtime_id page s ev :
  Content.tidy page s (Content.step runtime_id page s ev).
Proof.
  destruct ev; simpl.
  - apply onMessage_tidy.
  - unfold Content.onMutations.
    destruct (fold_left _ _ _); [apply findAndConnectAudio_tidy | by apply tidy_same].
  - apply findAndConnectAudio_tidy.
  - apply tidy_same. unfold Content.requestInitialVolume.
    by destruct (Content.runtime_available page).
  - unfold Content.onInitialVolume.
    destruct lastError; [by apply tidy_same |].
    destruct (truthy response && _); [| by apply tidy_same].
    apply tidy_andThen; [apply setVolume_tidy | by apply tidy_same].
  - apply tidy_same. by destruct error.
Qed.

Lemma initialize_tidy page s : Content.tidy page s (Content.initialize page s).
Proof.
  unfold Content.initialize.
  tidy_seq;
    [apply initAudio_tidy | apply findAndConnectAudio_tidy
    | by apply tidy_same | apply notify_tidy | by apply tidy_same].
Qed.

Lemma run_nodup runtime_id evs : ∀ s,
  Forall (λ pe : Content.Page * Content.Event, Content.distinct pe.1) evs →
  NoDup (Content.mediaElements s) →
  NoDup (Content.mediaElements (Content.run runtime_id evs s).1).
Proof.
  induction evs as [|[page ev] evs IH]; intros s Hall Hs; simpl; [done |].
  apply Forall_cons_1 in Hall as [Hp Hall].
  rewrite andThen_state. apply IH; [done |]. by apply step_tidy.
Qed.

(** At every point of a session of the content script, whatever the
    page and the messages: the current volume lies in [0, 100]; the gain
    node, once it exists, is set to the current volume; and the tracked
    media elements are exactly the elements connected to the gain node
    so far, in order, none of them twice. *)
Theorem content_session_invariant runtime_id page evs :
  Content.distinct page →
  Forall (λ pe : Content.Page * Content.Event, Content.distinct pe.1) evs →
  let r := Content.session runtime_id page evs in
  in_range (Content.currentVolume r.1)
  ∧ Content.gain_follows r.1
  ∧ Content.mediaElements r.1 = Content.connected r.2
  ∧ NoDup (Content.connected r.2).
Proof.
  intros Hp Hall r.
  assert (Hsteady : Content.steady Content.initial r).
  { apply steady_andThen; [apply initialize_steady | apply run_steady]. }
  destruct Hsteady as (Hv & Hg & Hm).
  change (Content.mediaElements Content.initial ++ Content.connected r.2)
    with (Content.connected r.2) in Hm.
  assert (Hv0 : in_range (Content.currentVolume Content.initial)) by apply in_range_100.
  split_and!.
  - by apply Hv.
  - by apply Hg.
  - exact Hm.
  - rewrite <- Hm. subst r. unfold Content.session. rewrite andThen_state.
    apply run_nodup; [done |]. apply initialize_tidy; [done | constructor].
Qed.

Lemma content_session_invariant_witness :
  let r := Content.session ext_id sample_page sample_session in
  Content.currentVolume r.1 = num 30
  ∧ Content.gainNode r.1 = Some (Content.Percent (num 30))
  ∧ Content.mediaElements r.1 = Content.connected r.2
  ∧ NoDup (Content.connected r.2).
Proof.
  intros r.
  assert (Hd : Content.distinct sample_page).
  { apply (bool_decide_unpack (Content.distinct sample_page)). vm_compute. exact I. }
  destruct (content_session_invariant ext_id sample_page sample_session)
    as (_ & _ & Hm & Hn);
    [exact Hd | constructor; [exact Hd | constructor; [exact Hd | constructor]] |].
  split; [vm_compute; reflexivity |]. split; [vm_compute; reflexivity |].
  split; [exact Hm | exact Hn].
Defined.

(* ================================================================== *)
(** * The content script: answering requests *)
(* ================================================================== *)

Lemma quiet_refl s es :
  Content.replies es = [] → Content.promises es = [] → Content.quiet s (s, es).
Proof. by intros H1 H2. Qed.

Lemma quiet_andThen s r f :
  Content.quiet s r → Content.quiet r.1 (f r.1) →
  Content.quiet s (Content.andThen r f).
Proof.
  intros (R1 & P1 & V1) (R2 & P2 & V2).
  unfold Content.quiet. rewrite andThen_state, andThen_effects.
  rewrite replies_app, promises_app, R1, R2, P1, P2. split_and!; try done.
  by rewrite V2.
Qed.

Lemma initAudio_quiet page s : Content.quiet s (Content.initAudio page s).
Proof.
  unfold Content.initAudio.
  destruct (Content.audioContext s); [done |].
  destruct (Content.context_available page); [| done].
  unfold Content.quiet. rewrite andThen_state, andThen_effects.
  cbn [fst snd Content.log]. unfold Content.setVolume. cbn [Content.gainNode].
  destruct (Content.isValidVolume (JNum (Content.currentVolume s))); done.
Qed.

Lemma forEach_connect_quiet l : ∀ s,
  Content.quiet s (Content.forEach l Content.connectElement s).
Proof.
  induction l as [|el l IH]; intros s; simpl; [done |].
  apply quiet_andThen; [| apply IH].
  unfold Content.connectElement.
  destruct (Content.media_attached el); cbn [negb]; [| done].
  by destruct (Content.media_connects el).
Qed.

Lemma findAndConnectAudio_quiet page s :
  Content.quiet s (Content.findAndConnectAudio page s).
Proof.
  unfold Content.findAndConnectAudio.
  destruct (negb (Content.audioContext s) || _); [done |].
  apply quiet_andThen; [apply forEach_connect_quiet |]. cbv beta.
  destruct (0 <? _)%nat; [| done].
  unfold Content.safelyNotifyBackgroundScript.
  by destruct (Content.runtime_available page).
Qed.

Lemma prepare_quiet page s :
  Content.quiet s (Content.andThen (Content.initAudio page s)
                                   (Content.findAndConnectAudio page)).
Proof.
  apply quiet_andThen; [apply initAudio_quiet | apply findAndConnectAudio_quiet].
Qed.

(** The volume a valid [setVolume] leaves, whatever the audio system. *)
Lemma setVolume_result v s :
  Content.isValidVolume v = true →
  Content.replies (Content.setVolume v s).2 = []
  ∧ Content.promises (Content.setVolume v s).2 = []
  ∧ Content.currentVolume (Content.setVolume v s).1 = as_num v.
Proof.
  intros Hv. unfold Content.setVolume. rewrite Hv. cbn [negb].
  by destruct (Content.gainNode s).
Qed.

(** The content script's listener answers every request that passes
    its two entry checks exactly once: either it calls [sendResponse]
    once before it returns, or (play on a paused element) it leaves one
    promise whose settlement calls it once; it returns [true].  A
    request that fails a check is dropped: the listener returns [false],
    answers nothing, and changes nothing. *)
Theorem content_one_reply runtime_id page request sender_id s :
  let r := Content.onMessage runtime_id page request sender_id s in
  (authorized runtime_id (mkSender sender_id None) → well_formed request →
     r.1 = true
     ∧ (length (Content.replies r.2.2) + length (Content.promises r.2.2) = 1)%nat
     ∧ ∀ error s', length (Content.replies (Content.onPlaySettled error s').2) = 1%nat)
  ∧ (¬ (authorized runtime_id (mkSender sender_id None) ∧ well_formed request) →
     r.1 = false ∧ r.2.1 = s
     ∧ Content.replies r.2.2 = [] ∧ Content.promises r.2.2 = []
     ∧ Content.notices r.2.2 = [] ∧ Content.connected r.2.2 = []).
Proof.
  intros r. subst r. unfold Content.onMessage. split.
  - intros Ha%authorized_guard Hw%well_formed_guard. simpl in Ha.
    rewrite Ha, Hw.
    assert (Hsettled : ∀ error s',
              length (Content.replies (Content.onPlaySettled error s').2) = 1%nat)
      by (by intros [e|] s').
    assert (Hseq : ∀ (r : Content.Run) reply,
              Content.replies r.2 = [] → Content.promises r.2 = [] →
              (length (Content.replies
                         (Content.andThen r (λ s', (s', [Content.Respond (reply s')]))).2)
               + length (Content.promises
                           (Content.andThen r (λ s', (s', [Content.Respond (reply s')]))).2)
               = 1)%nat).
    { intros r reply Hr Hp. rewrite andThen_effects, replies_app, promises_app.
      by rewrite Hr, Hp. }
    destruct (is_string _ "getAudioStatus").
    { split; [done |]. split; [| done]. cbn [fst snd].
      destruct (prepare_quiet page s) as (Hr & Hp & _).
      by apply (Hseq _ (λ s', Content.AudioStatus _ _ _)). }
    destruct (is_string _ "setVolume").
    { destruct (Content.isValidVolume _) eqn:Hv; cbn [negb fst snd]; [| done].
      split; [done |]. split; [| done].
      destruct (prepare_quiet page s) as (Hr & Hp & _).
      destruct (setVolume_result _
                  (Content.andThen (Content.initAudio page s)
                     (Content.findAndConnectAudio page)).1 Hv) as (Hr' & Hp' & _).
      apply (Hseq _ (λ s', Content.VolumeSet _)).
      - by rewrite andThen_effects, replies_app, Hr, Hr'.
      - by rewrite andThen_effects, promises_app, Hp, Hp'. }
    destruct (is_string _ "toggleMute").
    { destruct (String.eqb _ "boolean") eqn:Hb; cbn [negb fst snd]; [| done].
      split; [done |]. split; [| done].
      destruct (prepare_quiet page s) as (Hr & Hp & _).
      apply (Hseq _ (λ _, Content.Done)).
      - rewrite andThen_effects, replies_app, Hr.
        destruct (truthy (prop request "muted")); cbv beta iota zeta;
          match goal with
          | |- context [Content.setVolume ?v ?x] =>
              by destruct (setVolume_quiet v x) as (-> & _)
          end.
      - rewrite andThen_effects, promises_app, Hp.
        destruct (truthy (prop request "muted")); cbv beta iota zeta;
          match goal with
          | |- context [Content.setVolume ?v ?x] =>
              by destruct (setVolume_quiet v x) as (_ & -> & _)
          end. }
    destruct (is_string _ "playPauseAudio"); [| done].
    destruct (Content.media page) as [|mediaEl ?]; [done |].
    by destruct (Content.paused page _).
  - intros Hno.
    destruct (truthy_opt truthy_str sender_id && _) eqn:Ha; [done |].
    destruct (negb (truthy request) || _ || _) eqn:Hw; [done |].
    exfalso. apply Hno. split.
    + by apply authorized_guard.
    + by apply well_formed_guard.
Qed.

Lemma content_one_reply_witness :
  let accepted := Content.onMessage ext_id sample_page
                    (request "playPauseAudio" []) (Some ext_id) Content.initial in
  let dropped := Content.onMessage ext_id sample_page
                    (request "setVolume" [("volume"%string, JNum (num 10))])
                    (Some "another-extension"%string) Content.initial in
  accepted.1 = true
  ∧ Content.replies accepted.2.2 = [Content.Playing false]
  ∧ dropped.1 = false ∧ dropped.2.1 = Content.initial.
Proof.
  intros accepted dropped.
  destruct (content_one_reply ext_id sample_page (request "playPauseAudio" [])
              (Some ext_id) Content.initial) as [Hyes _].
  destruct (content_one_reply ext_id sample_page
              (request "setVolume" [("volume"%string, JNum (num 10))])
              (Some "another-extension"%string) Content.initial) as [_ Hno].
  destruct Hyes as (Hret & _ & _).
  - right. right. reflexivity.
  - eexists. split; [reflexivity | vm_compute; reflexivity].
  - destruct Hno as (Hret' & Hsame & _).
    + intros [[Ha | [Ha | Ha]] _]; vm_compute in Ha; discriminate.
    + split; [exact Hret |]. split; [vm_compute; reflexivity |].
      split; [exact Hret' | exact Hsame].
Defined.

(* ================================================================== *)
(** * The coordinator's commands on the page *)
(* ================================================================== *)

Lemma command_well_formed m : good_cmd m → well_formed (command_message m).
Proof.
  intros Hm. eexists. split; [reflexivity |]. simpl. rewrite Hm.
  by destruct (Cmd.muted m).
Qed.

Lemma own_id_authorized runtime_id :
  authorized runtime_id (mkSender (Some runtime_id) None).
Proof. by right; right. Qed.

(** A command built by [applyVolumeToTab] from an in-range record, when
    it reaches the content script. *)
Lemma command_on_page runtime_id page m s :
  good_cmd m → cmd_in_range m →
  let r := Content.onMessage runtime_id page (command_message m)
             (Some runtime_id) s in
  r.1 = true
  ∧ Content.currentVolume r.2.1 = (if Cmd.muted m then num 0 else Cmd.volume m)
  ∧ Content.replies r.2.2
    = [if Cmd.muted m then Content.Done else Content.VolumeSet (Cmd.volume m)].
Proof.
  intros Hm [Hv Hpv] r. subst r. unfold Content.onMessage.
  pose proof (proj2 (authorized_guard _ _) (own_id_authorized runtime_id)) as Ha.
  cbn [sender_id] in Ha. rewrite Ha.
  rewrite (proj2 (well_formed_guard _) (command_well_formed m Hm)).
  change (prop (command_message m) "action") with (JStr (Cmd.action m)).
  change (prop (command_message m) "volume") with (JNum (Cmd.volume m)).
  change (prop (command_message m) "muted") with (JBool (Cmd.muted m)).
  rewrite Hm.
  destruct (prepare_quiet page s) as (Hr & Hp & Hc).
  set (r0 := Content.andThen (Content.initAudio page s)
               (Content.findAndConnectAudio page)) in *.
  clearbody r0.
  destruct (Cmd.muted m).
  - decide_action. change (typeof (JBool true)) with "boolean"%string.
    change (String.eqb "boolean" "boolean") with true. cbn [negb truthy fst snd].
    destruct (setVolume_result (JNum (num 0)) r0.1) as (Hr' & Hp' & Hc');
      [by apply in_range_valid; eexists; split; [reflexivity |]; split; vm_compute |].
    split; [done |].
    rewrite !andThen_state, !andThen_effects, !replies_app, Hr, Hr'.
    cbn [fst snd app]. rewrite Hc'. split; reflexivity.
  - decide_action. rewrite (in_range_valid _ Hv). cbn [negb fst snd].
    destruct (setVolume_result (JNum (Cmd.volume m)) r0.1 (in_range_valid _ Hv))
      as (Hr' & Hp' & Hc').
    split; [done |].
    rewrite !andThen_state, !andThen_effects, !replies_app, Hr, Hr'.
    cbn [fst snd app]. rewrite !andThen_state, Hc'. split; reflexivity.
Qed.

(** ** The audio graph after a command *)

Lemma command_state runtime_id page m s :
  good_cmd m → cmd_in_range m →
  (Content.onMessage runtime_id page (command_message m) (Some runtime_id) s).2.1
  = (Content.setVolume (JNum (command_target m))
       (Content.andThen (Content.initAudio page s)
                        (Content.findAndConnectAudio page)).1).1.
Proof.
  intros Hm [Hv Hpv]. unfold Content.onMessage, command_target.
  pose proof (proj2 (authorized_guard _ _) (own_id_authorized runtime_id)) as Ha.
  cbn [sender_id] in Ha. rewrite Ha.
  rewrite (proj2 (well_formed_guard _) (command_well_formed m Hm)).
  change (prop (command_message m) "action") with (JStr (Cmd.action m)).
  change (prop (command_message m) "volume") with (JNum (Cmd.volume m)).
  change (prop (command_message m) "muted") with (JBool (Cmd.muted m)).
  rewrite Hm.
  set (r0 := Content.andThen (Content.initAudio page s)
               (Content.findAndConnectAudio page)).
  clearbody r0.
  destruct (Cmd.muted m).
  - decide_action. change (typeof (JBool true)) with "boolean"%string.
    change (String.eqb "boolean" "boolean") with true. cbn [negb truthy fst snd].
    by rewrite !andThen_state.
  - decide_action. rewrite (in_range_valid _ Hv). cbn [negb fst snd].
    by rewrite !andThen_state.
Qed.

Lemma initAudio_graph page s :
  Content.gain_follows s →
  Content.audioContext (Content.initAudio page s).1 = audio_graph page s
  ∧ bool_decide (is_Some (Content.gainNode (Content.initAudio page s).1))
    = audio_graph page s
  ∧ Content.mediaElements (Content.initAudio page s).1 = Content.mediaElements s.
Proof.
  unfold Content.gain_follows, Content.initAudio, audio_graph.
  destruct (Content.gainNode s) as [g|] eqn:Hg.
  - intros [_ Hctx]. rewrite Hctx. cbn [orb fst]. rewrite Hctx, Hg.
    split_and!; [done | | done].
    by apply bool_decide_eq_true_2.
  - intros Hctx. rewrite Hctx. cbn [orb].
    destruct (Content.context_available page);
      [| unfold Content.log; cbn [fst]; by rewrite Hctx, Hg].
    rewrite andThen_state. unfold Content.setVolume.
    by destruct (negb _).
Qed.

Lemma connectElement_graph el s :
  Content.audioContext (Content.connectElement el s).1 = Content.audioContext s
  ∧ Content.gainNode (Content.connectElement el s).1 = Content.gainNode s
  ∧ Content.mediaElements (Content.connectElement el s).1
    = Content.mediaElements s
      ++ (if Content.media_attached el && Content.media_connects el
          then [Content.media_id el] else []).
Proof.
  unfold Content.connectElement.
  destruct (Content.media_attached el), (Content.media_connects el);
    cbn [negb andb fst]; by rewrite ?app_nil_r.
Qed.

Lemma forEach_connect_graph l : ∀ s,
  Content.audioContext (Content.forEach l Content.connectElement s).1
  = Content.audioContext s
  ∧ Content.gainNode (Content.forEach l Content.connectElement s).1
    = Content.gainNode s
  ∧ Content.mediaElements (Content.forEach l Content.connectElement s).1
    = Content.mediaElements s
      ++ map Content.media_id
           (List.filter (λ el, Content.media_attached el && Content.media_connects el) l).
Proof.
  induction l as [|el l IH]; intros s; [by rewrite app_nil_r |].
  cbn [Content.forEach List.filter]. rewrite andThen_state.
  destruct (IH (Content.connectElement el s).1) as (-> & -> & ->).
  destruct (connectElement_graph el s) as (-> & -> & ->).
  split_and!; [done | done |].
  destruct (Content.media_attached el && Content.media_connects el);
    by rewrite <- app_assoc.
Qed.

(** A scan with the audio graph in place tracks every connectable
    element of the page; without it the scan does nothing. *)
Lemma findAndConnectAudio_graph page s :
  let s' := (Content.findAndConnectAudio page s).1 in
  Content.audioContext s' = Content.audioContext s
  ∧ Content.gainNode s' = Content.gainNode s
  ∧ (if Content.audioContext s && bool_decide (is_Some (Content.gainNode s))
     then ∀ el, el ∈ Content.media page → connectable el = true →
                Content.media_id el ∈ Content.mediaElements s'
     else Content.mediaElements s' = Content.mediaElements s).
Proof.
  cbv zeta. unfold Content.findAndConnectAudio.
  destruct (Content.audioContext s) eqn:Hctx; cbn [negb orb andb fst];
    [| by rewrite Hctx].
  destruct (bool_decide (is_Some (Content.gainNode s))) eqn:Hgain;
    cbn [negb fst]; [| by rewrite Hctx].
  rewrite andThen_state.
  set (new := List.filter _ (Content.media page)).
  assert (Hnotify : ∀ s0 : Content.State,
            (if (0 <? length new)%nat
             then Content.safelyNotifyBackgroundScript page "updateTabStatus"
                    [("hasAudio"%string, JBool true)] s0
             else (s0, [])).1 = s0).
  { intros s0. destruct (0 <? _)%nat; [| done].
    unfold Content.safelyNotifyBackgroundScript.
    by destruct (Content.runtime_available page). }
  rewrite Hnotify.
  destruct (forEach_connect_graph new s) as (-> & -> & ->).
  split_and!; [exact Hctx | done |].
  intros el Hin Hok. unfold connectable in Hok.
  apply andb_prop in Hok as [Hok Hconnects].
  apply andb_prop in Hok as [Hsrc Hattached].
  apply elem_of_app.
  destruct (decide (Content.media_id el ∈ Content.mediaElements s)) as [Hold | Hnew];
    [by left | right].
  apply list_elem_of_fmap. exists el. split; [done |].
  apply list_elem_of_In, filter_In. split; [| by rewrite Hattached, Hconnects].
  subst new. apply filter_In. split; [by apply list_elem_of_In |].
  unfold Content.includes. by rewrite (bool_decide_eq_false_2 _ Hnew), Hsrc.
Qed.

Lemma setVolume_graph v s :
  Content.isValidVolume v = true →
  Content.gainNode (Content.setVolume v s).1
  = (if bool_decide (is_Some (Content.gainNode s))
     then Some (Content.Percent (as_num v)) else None)
  ∧ Content.mediaElements (Content.setVolume v s).1 = Content.mediaElements s.
Proof.
  intros Hv. unfold Content.setVolume. rewrite Hv. cbn [negb].
  by destruct (Content.gainNode s) eqn:Hg; cbn [fst]; rewrite ?Hg.
Qed.

Lemma command_target_valid m :
  cmd_in_range m → Content.isValidVolume (JNum (command_target m)) = true.
Proof.
  intros [Hv _]. unfold command_target. destruct (Cmd.muted m).
  - apply in_range_valid. eexists. split; [reflexivity |]. split; by vm_compute.
  - by apply in_range_valid.
Qed.

(** What a command leaves of the audio graph, from a state in which the
    gain node and the audio context exist together or not at all. *)
Lemma command_on_graph runtime_id page m s :
  good_cmd m → cmd_in_range m → Content.gain_follows s →
  let s' := (Content.onMessage runtime_id page (command_message m)
               (Some runtime_id) s).2.1 in
  Content.gainNode s'
  = (if audio_graph page s then Some (Content.Percent (command_target m)) else None)
  ∧ (if audio_graph page s
     then ∀ el, el ∈ Content.media page → connectable el = true →
                Content.media_id el ∈ Content.mediaElements s'
     else Content.mediaElements s' = Content.mediaElements s).
Proof.
  intros Hm Hrange Hs s'. subst s'. rewrite command_state by done.
  destruct (setVolume_graph (JNum (command_target m))
              (Content.andThen (Content.initAudio page s)
                               (Content.findAndConnectAudio page)).1
              (command_target_valid m Hrange)) as (-> & ->).
  rewrite andThen_state.
  destruct (initAudio_graph page s Hs) as (Hctx & Hgain & Hmedia).
  destruct (findAndConnectAudio_graph page (Content.initAudio page s).1)
    as (_ & -> & Htracked).
  rewrite Hctx, Hgain in Htracked. rewrite Hgain.
  destruct (audio_graph page s); cbn [andb] in Htracked;
    [by split | by rewrite Htracked, Hmedia].
Qed.

(** End to end: every command the coordinator has in flight in a
    reachable state is accepted by the content script of the page it
    reaches, whatever the state of that page: the script answers with
    success, and its current volume is afterwards 0 if the command says
    muted and the command's volume otherwise.  What the page then plays
    depends on the audio graph.  From a state in which the gain node and
    the audio context exist together or not at all (every state of a
    session is one): when the script has an audio context or can create
    one, the gain node is set to that volume and every element of the
    page that has a source, is in the document and accepts the
    connection is tracked, that is, connected to the gain node; when it
    cannot, there is no gain node, no element is added, and the command
    is recorded in the current volume only. *)
Theorem command_reaches_page runtime_id sys tabId m retryCount page s :
  reachable runtime_id sys →
  PTabsSendMessage tabId m retryCount ∈ inflight sys →
  let r := Content.onMessage runtime_id page (command_message m)
             (Some runtime_id) s in
  r.1 = true
  ∧ Content.replies r.2.2
    = [if Cmd.muted m then Content.Done else Content.VolumeSet (Cmd.volume m)]
  ∧ Content.currentVolume r.2.1 = command_target m
  ∧ (Content.gain_follows s →
     Content.gainNode r.2.1
     = (if audio_graph page s
        then Some (Content.Percent (command_target m)) else None)
     ∧ (if audio_graph page s
        then ∀ el, el ∈ Content.media page → connectable el = true →
                   Content.media_id el ∈ Content.mediaElements r.2.1
        else Content.mediaElements r.2.1 = Content.mediaElements s)).
Proof.
  intros [_ Hp]%reachable_sound Hin.
  change (PTabsSendMessage tabId m retryCount ∈ inflight sys) in Hin.
  apply list_elem_of_lookup in Hin as [i Hi].
  destruct (Forall_lookup_1 _ _ _ _ Hp Hi) as [Hgood (_ & _ & Hrange)].
  intros r.
  destruct (command_on_page runtime_id page m s Hgood Hrange) as (Hv & Hc & Hr).
  split_and!; [exact Hv | exact Hr | exact Hc |].
  intros Hs. by apply command_on_graph.
Qed.

Lemma command_reaches_page_witness :
  let sys := after volume_80 in
  let m := Cmd.mk "setVolume" (num 80) false (num 100) in
  let r := Content.onMessage ext_id sample_page (command_message m)
             (Some ext_id) Content.initial in
  let r' := Content.onMessage ext_id page_without_context (command_message m)
              (Some ext_id) Content.initial in
  (Content.currentVolume r.2.1 = num 80
   ∧ Content.replies r.2.2 = [Content.VolumeSet (num 80)]
   ∧ Content.gainNode r.2.1 = Some (Content.Percent (num 80))
   ∧ Content.mediaElements r.2.1 = [1%nat])
  ∧ (Content.currentVolume r'.2.1 = num 80
     ∧ Content.replies r'.2.2 = [Content.VolumeSet (num 80)]
     ∧ Content.gainNode r'.2.1 = None
     ∧ Content.mediaElements r'.2.1 = []).
Proof.
  intros sys m r r'. split.
  - destruct (command_reaches_page ext_id sys (num 42) m 0 sample_page Content.initial)
      as (_ & Hr & Hv & Hg).
    + apply after_reachable.
    + vm_compute. left.
    + destruct Hg as [Hg _]; [reflexivity |].
      split_and!; [exact Hv | exact Hr | exact Hg | by vm_compute].
  - destruct (command_reaches_page ext_id sys (num 42) m 0 page_without_context
                Content.initial) as (_ & Hr & Hv & Hg).
    + apply after_reachable.
    + vm_compute. left.
    + destruct Hg as [Hg Hm]; [reflexivity |].
      split_and!; [exact Hv | exact Hr | exact Hg | exact Hm].
Defined.

(** The content script adopts the volume the coordinator reports at
    startup.  Whatever event the coordinator handles in a reachable
    state, when it answers a [getAudioStatus] request, the content script
    that receives the answer sets its current volume to the reported
    volume; the reported mute flag and previous volume are not read. *)
Theorem initial_volume_from_coordinator runtime_id sys ev sys' es v m pv s :
  reachable runtime_id sys → step runtime_id sys ev = Some (sys', es) →
  AudioStatus v m pv ∈ responses es →
  let r := Content.onInitialVolume false (status_object v m pv) s in
  Content.currentVolume r.1 = v
  ∧ Content.replies r.2 = [] ∧ Content.notices r.2 = [].
Proof.
  intros Hreach%reachable_sound Hstep Hin r.
  destruct (step_sound _ _ _ _ _ Hreach Hstep) as [_ Hes].
  change (AudioStatus v m pv
          ∈ omap (λ e, match e with SendResponse r => Some r | _ => None end) es)
    in Hin.
  apply list_elem_of_omap in Hin as (e & He & Heq).
  destruct e; try discriminate. injection Heq as ->.
  change (SendResponse (AudioStatus v m pv) ∈ es) in He.
  apply list_elem_of_lookup in He as [i Hi].
  destruct (Forall_lookup_1 _ _ _ _ Hes Hi) as [Hv _].
  subst r. unfold Content.onInitialVolume.
  change (truthy (status_object v m pv)) with true.
  change (prop (status_object v m pv) "volume") with (JNum v).
  rewrite (in_range_valid _ Hv). cbn [andb].
  destruct (setVolume_result (JNum v) s (in_range_valid _ Hv)) as (Hr & _ & Hc).
  destruct (setVolume_quiet (JNum v) s) as (_ & _ & Hn).
  rewrite andThen_state, andThen_effects, replies_app, notices_app, Hr, Hn.
  cbn [fst snd Content.log]. by rewrite Hc.
Qed.

Lemma initial_volume_from_coordinator_witness :
  let sys := after volume_80 in
  let ev := Message (request "getAudioStatus" [])
                    (content_script 42 "https://a.example/") None 0 in
  let r := Content.onInitialVolume false (status_object (num 80) false (num 100))
             Content.initial in
  Content.currentVolume r.1 = num 80.
Proof.
  intros sys ev r.
  destruct (step ext_id sys ev) as [[sys' es]|] eqn:Hstep;
    [| vm_compute in Hstep; discriminate].
  destruct (initial_volume_from_coordinator ext_id sys ev sys' es
              (num 80) false (num 100) Content.initial) as (Hv & _).
  - apply after_reachable.
  - exact Hstep.
  - vm_compute in Hstep. injection Hstep as _ <-. vm_compute. left.
  - exact Hv.
Defined.

(* ================================================================== *)
(** * What the content script tells the coordinator *)
(* ================================================================== *)

Lemma polite_refl s es : Content.notices es = [] → Content.polite (s, es).
Proof. intros H. unfold Content.polite. simpl. rewrite H. constructor. Qed.

Lemma polite_andThen r f :
  Content.polite r → Content.polite (f r.1) → Content.polite (Content.andThen r f).
Proof.
  unfold Content.polite. rewrite andThen_effects, notices_app.
  intros H1 H2. by apply Forall_app.
Qed.

Ltac polite_seq :=
  lazymatch goal with
  | |- Content.polite (Content.andThen _ _) =>
      apply polite_andThen; [polite_seq | cbv beta]
  | |- _ => idtac
  end.

Lemma setVolume_polite v s : Content.polite (Content.setVolume v s).
Proof.
  unfold Content.polite. destruct (setVolume_quiet v s) as (_ & _ & ->). constructor.
Qed.

Lemma initAudio_polite page s : Content.polite (Content.initAudio page s).
Proof.
  unfold Content.initAudio.
  destruct (Content.audioContext s); [by apply polite_refl |].
  destruct (Content.context_available page); [| by apply polite_refl].
  polite_seq; [apply setVolume_polite | by apply polite_refl].
Qed.

Lemma notify_polite page action data s :
  Content.known_notice (request action data) →
  Content.polite (Content.safelyNotifyBackgroundScript page action data s).
Proof.
  intros Hk. unfold Content.safelyNotifyBackgroundScript.
  destruct (Content.runtime_available page); [| by apply polite_refl].
  constructor; [exact Hk | constructor].
Qed.

Lemma forEach_connect_polite l : ∀ s,
  Content.polite (Content.forEach l Content.connectElement s).
Proof.
  induction l as [|el l IH]; intros s; simpl; [by apply polite_refl |].
  polite_seq; [| apply IH]. unfold Content.connectElement.
  destruct (Content.media_attached el); cbn [negb]; [| by apply polite_refl].
  destruct (Content.media_connects el); by apply polite_refl.
Qed.

Lemma findAndConnectAudio_polite page s :
  Content.polite (Content.findAndConnectAudio page s).
Proof.
  unfold Content.findAndConnectAudio.
  destruct (negb (Content.audioContext s) || _); [by apply polite_refl |].
  cbv zeta. polite_seq; [apply forEach_connect_polite |].
  destruct (0 <? _)%nat; [| by apply polite_refl].
  apply notify_polite. by left.
Qed.

Lemma onMessage_polite runtime_id page request sender_id s :
  Content.polite (Content.onMessage runtime_id page request sender_id s).2.
Proof.
  unfold Content.onMessage.
  destruct (truthy_opt truthy_str sender_id && _); [by apply polite_refl |].
  destruct (negb (truthy request) || _ || _); [by apply polite_refl |].
  destruct (is_string _ "getAudioStatus").
  { cbn [snd]. polite_seq;
      [apply initAudio_polite | apply findAndConnectAudio_polite
      | by apply polite_refl]. }
  destruct (is_string _ "setVolume").
  { destruct (negb (Content.isValidVolume _)); cbn [snd]; [by apply polite_refl |].
    polite_seq;
      [apply initAudio_polite | apply findAndConnectAudio_polite
      | apply setVolume_polite | by apply polite_refl]. }
  destruct (is_string _ "toggleMute").
  { destruct (negb (String.eqb _ "boolean")); cbn [snd]; [by apply polite_refl |].
    polite_seq;
      [apply initAudio_polite | apply findAndConnectAudio_polite
      | | by apply polite_refl].
    destruct (truthy (prop request "muted")); apply setVolume_polite. }
  destruct (is_string _ "playPauseAudio"); [| by apply polite_refl].
  destruct (Content.media page) as [|mediaEl ?]; [by apply polite_refl |].
  destruct (Content.paused page _); by apply polite_refl.
Qed.

Lemma step_polite runtime_id page s ev :
  Content.polite (Content.step runtime_id page s ev).
Proof.
  destruct ev; simpl.
  - apply onMessage_polite.
  - unfold Content.onMutations.
    destruct (fold_left _ _ _); [apply findAndConnectAudio_polite | by apply polite_refl].
  - apply findAndConnectAudio_polite.
  - unfold Content.requestInitialVolume.
    destruct (Content.runtime_available page); [| by apply polite_refl].
    constructor; [by right; right | constructor].
  - unfold Content.onInitialVolume.
    destruct lastError; [by apply polite_refl |].
    destruct (truthy response && _); [| by apply polite_refl].
    polite_seq; [apply setVolume_polite | by apply polite_refl].
  - destruct error; by apply polite_refl.
Qed.

Lemma initialize_polite page s : Content.polite (Content.initialize page s).
Proof.
  unfold Content.initialize.
  polite_seq;
    [apply initAudio_polite | apply findAndConnectAudio_polite
    | by apply polite_refl | apply notify_polite; by right; left
    | by apply polite_refl].
Qed.

Lemma session_polite runtime_id page evs :
  Content.polite (Content.session runtime_id page evs).
Proof.
  unfold Content.session. polite_seq; [apply initialize_polite |].
  generalize (Content.initialize page Content.initial).1.
  induction evs as [|[p ev] evs IH]; intros s; simpl; [by apply polite_refl |].
  polite_seq; [apply step_polite | apply IH].
Qed.

Lemma res_eta {A} (r : Res A) : r = mkRes (val r) (state r) (effs r).
Proof. by destruct r. Qed.

Lemma silent_responses es : Forall silent es → responses es = [].
Proof.
  induction 1 as [|e es He _ IH]; [done |].
  destruct e; simpl in *; try done.
Qed.

Lemma storage_only_responses es : Forall storage_only es → responses es = [].
Proof.
  intros H. apply silent_responses.
  eapply Forall_impl; [exact storage_only_silent | exact H].
Qed.

(** How the router handles each of the three messages when they come
    from the content script of a valid tab. *)
Lemma known_notice_dispatch m sender now s t :
  Content.known_notice m →
  sender_tab_id sender = Some t → isValidTabId (JNum t) = true →
  let d := dispatch m sender None now s in
  val d = Some true
  ∧ ∃ resp, responses (effs d) = [resp] ∧ ∀ e, resp ≠ Failure e.
Proof.
  intros Hk Hid Ht d. subst d. unfold dispatch.
  destruct Hk as [-> | [-> | ->]].
  - change (prop (request "updateTabStatus" _) "action")
      with (JStr "updateTabStatus"). decide_action.
    rewrite Hid. cbn [truthy_opt default from_option id].
    rewrite (valid_tab_truthy _ Ht), Ht. cbn [negb].
    change (prop (request "updateTabStatus" _) "hasAudio") with (JBool true).
    cbv iota.
    pose proof (getVolumeDataForTab_effects t (sender_tab_url sender) s) as [_ Hg].
    match goal with |- val ?c = _ ∧ _ => set (r := c) end.
    eassert (Hrun : r = mkRes _ _ _).
    { subst r. meval; apply res_eta. }
    rewrite Hrun. cbn [val effs]. split; [done |].
    exists Success. split; [| done].
    rewrite !responses_app, (storage_only_responses _ Hg).
    match goal with
    | |- context [effs (saveTabVolume ?a ?l ?u ?s')] =>
        rewrite (storage_only_responses _ (proj2 (saveTabVolume_effects a l u s')))
    end.
    done.
  - change (prop (request "contentScriptReady" _) "action")
      with (JStr "contentScriptReady"). decide_action.
    rewrite Hid. cbn [truthy_opt default from_option id].
    rewrite (valid_tab_truthy _ Ht), Ht. cbn [negb].
    pose proof (processMessageQueue_silent t now s) as [_ Hq].
    match goal with |- val ?c = _ ∧ _ => set (r := c) end.
    eassert (Hrun : r = mkRes _ _ _).
    { subst r. meval. apply res_eta. }
    rewrite Hrun. cbn [val effs]. split; [done |].
    exists Success. split; [| done].
    rewrite !responses_app. cbn [effs].
    by rewrite (silent_responses _ Hq).
  - change (prop (request "getAudioStatus" _) "action")
      with (JStr "getAudioStatus"). decide_action.
    rewrite Hid. cbn [truthy_opt default from_option id].
    rewrite (valid_tab_truthy _ Ht), Ht. cbn [negb].
    pose proof (getVolumeDataForTab_effects t (sender_tab_url sender) s) as [_ Hg].
    match goal with |- val ?c = _ ∧ _ => set (r := c) end.
    eassert (Hrun : r = mkRes _ _ _).
    { subst r. meval. apply res_eta. }
    rewrite Hrun. cbn [val effs]. split; [done |].
    eexists. split.
    + rewrite !responses_app. rewrite (storage_only_responses _ Hg). reflexivity.
    + done.
Qed.

Lemma known_notice_well_formed m : Content.known_notice m → well_formed m.
Proof. intros [-> | [-> | ->]]; (eexists; split; [reflexivity | done]). Qed.

(** The two scripts understand each other.  Every message the content
    script sends to the coordinator during a session is one of
    [updateTabStatus] with [hasAudio: true], [contentScriptReady] and
    [getAudioStatus]; and when such a message arrives from the content
    script of a tab with a valid id, the coordinator's listener returns
    [true] and answers exactly once, never with a failure. *)
Theorem notices_are_understood runtime_id page evs m sender now s t :
  m ∈ Content.notices (Content.session runtime_id page evs).2 →
  sender_id sender = Some runtime_id →
  sender_tab_id sender = Some t → isValidTabId (JNum t) = true →
  let r := onMessage runtime_id m sender None now s in
  Content.known_notice m
  ∧ val r = true
  ∧ ∃ resp, responses (effs r) = [resp] ∧ ∀ e, resp ≠ Failure e.
Proof.
  intros Hin Hsender Hid Ht r.
  assert (Hk : Content.known_notice m).
  { pose proof (session_polite runtime_id page evs) as Hall.
    apply list_elem_of_lookup in Hin as [i Hi].
    exact (Forall_lookup_1 _ _ _ _ Hall Hi). }
  split; [exact Hk |].
  destruct (onMessage_run runtime_id m sender None now s) as (Hv & _ & He).
  { right. right. exact Hsender. }
  { by apply known_notice_well_formed. }
  destruct (known_notice_dispatch m sender now s t Hk Hid Ht) as (Hd & resp & Hr & Hne).
  fold r in Hv, He. rewrite Hd in Hv, He. split; [exact Hv |].
  exists resp. split; [| exact Hne]. by rewrite He, app_nil_r.
Qed.

Lemma notices_are_understood_witness :
  let m := request "contentScriptReady" [] in
  let r := onMessage ext_id m (content_script 42 "https://a.example/") None 0
             initial in
  m ∈ Content.notices (Content.session ext_id sample_page []).2
  ∧ val r = true
  ∧ ∃ resp, responses (effs r) = [resp] ∧ ∀ e, resp ≠ Failure e.
Proof.
  intros m r.
  assert (Hin : m ∈ Content.notices (Content.session ext_id sample_page []).2).
  { vm_compute. right. left. }
  split; [exact Hin |].
  destruct (notices_are_understood ext_id sample_page [] m
              (content_script 42 "https://a.example/") 0 initial (num 42))
    as (_ & Hv & Hr);
    [exact Hin | reflexivity | reflexivity | vm_compute; reflexivity |].
  split; [exact Hv | exact Hr].
Defined.

(* ================================================================== *)
(** * The popup: levels shown *)
(* ================================================================== *)

Lemma num_eq_true a b : num_eq a b = true → a = b.
Proof.
  destruct a, b; simpl; try discriminate; try done; by intros ?%bool_decide_eq_true.
Qed.

Lemma updateVolume_inv chrome v s :
  Popup.Inv s →
  Popup.Inv (Popup.updateVolume chrome v s).1
  ∧ (Popup.consistent s → Popup.consistent (Popup.updateVolume chrome v s).1).
Proof.
  intros [Hv Hp]. unfold Popup.updateVolume.
  destruct (Popup.isValidVolume (JNum v)) eqn:Hvalid; cbn [negb]; [| done].
  destruct (Popup.isValidTabId (Popup.tabId s)); cbn [negb]; [| done].
  change (isValidVolume (JNum v) = true) in Hvalid.
  pose proof (isValidVolume_in_range _ Hvalid) as Hr. simpl in Hr.
  split.
  - split; cbn [fst Popup.volumeVal Popup.previousVolume]; [done |].
    by destruct (num_lt (num 0) v).
  - intros _. unfold Popup.consistent. simpl. apply num_eq_true.
Qed.

Lemma toggleMute_inv chrome s :
  Popup.Inv s →
  Popup.Inv (Popup.toggleMute chrome s).1
  ∧ Popup.consistent (Popup.toggleMute chrome s).1
    ∨ (Popup.toggleMute chrome s).1 = s.
Proof.
  intros [Hv Hp]. unfold Popup.toggleMute.
  destruct (Popup.isValidTabId (Popup.tabId s)); cbn [negb]; [| by right].
  left. destruct (Popup.muted s) eqn:Hm; cbn [negb fst].
  - split; [by split | by intros ?].
  - split; [| done].
    split; cbn [Popup.volumeVal Popup.previousVolume];
      [| by destruct (num_lt (num 0) (Popup.volumeVal s))].
    eexists; split; [reflexivity |]. split; by vm_compute.
Qed.

Lemma act_inv chrome s a :
  Popup.Inv s →
  Popup.Inv (Popup.act chrome s a).1
  ∧ (Popup.consistent s → Popup.consistent (Popup.act chrome s a).1).
Proof.
  intros Hi. destruct a; simpl.
  - apply (updateVolume_inv chrome (parseInt value) s Hi).
  - destruct (toggleMute_inv chrome s Hi) as [[H1 H2] | ->]; done.
  - unfold Popup.resetVolume.
    destruct (Popup.isValidTabId (Popup.tabId s)); cbn [negb]; [| done].
    split; [split; exact in_range_100 | done].
  - unfold Popup.playPauseAudio.
    by destruct (Popup.isValidTabId (Popup.tabId s)).
  - unfold Popup.onPlayPauseResponse.
    destruct lastError; [done |]. by destruct (truthy response && _).
  - done.
Qed.

(** Whatever the user does with a control, in any order, the volume
    and the previous volume it shows stay in [0, 100] if they started
    there, and a control that shows "muted" only at volume 0 keeps
    doing so. *)
Theorem popup_levels_stay_valid chrome l : ∀ s,
  Popup.Inv s →
  let r := Popup.acts chrome l s in
  Popup.Inv r.1 ∧ (Popup.consistent s → Popup.consistent r.1).
Proof.
  induction l as [|a l IH]; intros s Hi; simpl; [done |].
  destruct (act_inv chrome s a Hi) as [Hi1 Hc1].
  destruct (Popup.act chrome s a) as [s1 es1]. simpl in *.
  destruct (IH s1 Hi1) as [Hi2 Hc2].
  destruct (Popup.acts chrome l s1) as [s2 es2]. simpl in *.
  split; [done | auto].
Qed.

Lemma popup_levels_stay_valid_witness :
  let s := mount (page 42 "https://a.example/") quiet_record in
  let r := Popup.acts true [Popup.ToggleMute; Popup.Slide "55"; Popup.ToggleMute] s in
  Popup.volumeVal r.1 = num 0 ∧ Popup.previousVolume r.1 = num 55
  ∧ Popup.Inv r.1.
Proof.
  intros s r.
  destruct (popup_levels_stay_valid true
              [Popup.ToggleMute; Popup.Slide "55"; Popup.ToggleMute] s) as [Hi _].
  - split; (eexists; split; [reflexivity |]; split; by vm_compute).
  - split; [vm_compute; reflexivity |]. split; [vm_compute; reflexivity | exact Hi].
Defined.

(** Muting and unmuting gives back the volume: on a control with a
    valid tab id that is not muted and shows a volume above 0, pressing
    the mute button twice restores that volume, which is then also the
    previous volume. *)
Theorem mute_twice_restores chrome s :
  Popup.isValidTabId (Popup.tabId s) = true →
  Popup.muted s = false → num_lt (num 0) (Popup.volumeVal s) = true →
  let once := (Popup.toggleMute chrome s).1 in
  let twice := (Popup.toggleMute chrome once).1 in
  Popup.volumeVal once = num 0 ∧ Popup.muted once = true
  ∧ Popup.volumeVal twice = Popup.volumeVal s ∧ Popup.muted twice = false
  ∧ Popup.previousVolume twice = Popup.volumeVal s.
Proof.
  intros Ht Hm Hpos once twice. subst twice once.
  unfold Popup.toggleMute. rewrite Ht, Hm. cbn [negb fst Popup.tabId].
  rewrite Ht. cbn [negb fst Popup.muted Popup.volumeVal Popup.previousVolume].
  by rewrite Hpos.
Qed.

Lemma mute_twice_restores_witness :
  let s := mount (page 42 "https://a.example/") quiet_record in
  Popup.volumeVal (Popup.toggleMute true (Popup.toggleMute true s).1).1 = num 30.
Proof.
  intros s.
  destruct (mute_twice_restores true s) as (_ & _ & Hv & _);
    [vm_compute; reflexivity | reflexivity | vm_compute; reflexivity |].
  exact Hv.
Defined.

(* ================================================================== *)
(** * From the popup to the page *)
(* ================================================================== *)

Lemma content_setVolume runtime_id page fields s v :
  assoc "action" fields = JStr "setVolume" →
  assoc "volume" fields = JNum v → in_range v →
  let r := Content.onMessage runtime_id page (JObj fields) (Some runtime_id) s in
  r.1 = true ∧ Content.currentVolume r.2.1 = v
  ∧ Content.replies r.2.2 = [Content.VolumeSet v].
Proof.
  intros Hact Hvol Hv r. subst r. unfold Content.onMessage.
  pose proof (proj2 (authorized_guard _ _) (own_id_authorized runtime_id)) as Ha.
  cbn [sender_id] in Ha. rewrite Ha.
  assert (Hw : well_formed (JObj fields)).
  { exists fields. split; [done |]. by rewrite Hact. }
  rewrite (proj2 (well_formed_guard _) Hw).
  change (prop (JObj fields) ?k) with (assoc k fields).
  rewrite Hact, Hvol. decide_action.
  rewrite (in_range_valid _ Hv). cbn [negb fst snd].
  destruct (prepare_quiet page s) as (Hr & Hp & Hc).
  set (r0 := Content.andThen (Content.initAudio page s)
               (Content.findAndConnectAudio page)) in *.
  clearbody r0.
  destruct (setVolume_result (JNum v) r0.1 (in_range_valid _ Hv)) as (Hr' & Hp' & Hc').
  split; [done |].
  rewrite !andThen_state, !andThen_effects, !replies_app, Hr, Hr'.
  cbn [fst snd app]. rewrite !andThen_state, Hc'. split; reflexivity.
Qed.

Lemma content_toggleMute runtime_id page fields s b pv :
  assoc "action" fields = JStr "toggleMute" →
  assoc "muted" fields = JBool b →
  assoc "previousVolume" fields = JNum pv → in_range pv →
  let r := Content.onMessage runtime_id page (JObj fields) (Some runtime_id) s in
  r.1 = true ∧ Content.currentVolume r.2.1 = (if b then num 0 else pv)
  ∧ Content.replies r.2.2 = [Content.Done].
Proof.
  intros Hact Hm Hprev Hpv r. subst r. unfold Content.onMessage.
  pose proof (proj2 (authorized_guard _ _) (own_id_authorized runtime_id)) as Ha.
  cbn [sender_id] in Ha. rewrite Ha.
  assert (Hw : well_formed (JObj fields)).
  { exists fields. split; [done |]. by rewrite Hact. }
  rewrite (proj2 (well_formed_guard _) Hw).
  change (prop (JObj fields) ?k) with (assoc k fields).
  rewrite Hact, Hm, Hprev. decide_action.
  change (typeof (JBool b)) with "boolean"%string.
  change (String.eqb "boolean" "boolean") with true. cbn [negb truthy fst snd].
  rewrite (in_range_valid _ Hpv).
  destruct (prepare_quiet page s) as (Hr & Hp & Hc).
  set (r0 := Content.andThen (Content.initAudio page s)
               (Content.findAndConnectAudio page)) in *.
  clearbody r0.
  assert (H0 : Content.isValidVolume (JNum (num 0)) = true)
    by (apply in_range_valid; eexists; split; [reflexivity |]; split; by vm_compute).
  split; [done |].
  rewrite !andThen_state, !andThen_effects, !replies_app, Hr. cbn [fst snd].
  destruct b.
  - destruct (setVolume_result (JNum (num 0)) r0.1 H0) as (Hr' & _ & Hc').
    rewrite Hr', Hc'. split; reflexivity.
  - destruct (setVolume_result (JNum pv) r0.1 (in_range_valid _ Hpv)) as (Hr' & _ & Hc').
    rewrite Hr', Hc'. split; reflexivity.
Qed.

Lemma valid_tab_number tabId :
  isValidTabId tabId = true → ∃ t, tabId = JNum t ∧ isValidTabId (JNum t) = true.
Proof. destruct tabId; try discriminate. intros H. by eexists. Qed.

(** The levels an accepted [updateTabVolume] stores when the request
    carries all three of them, and the command it sends. *)
Lemma full_update_stored s t v m pv tab :
  isValidTabId (JNum t) = true →
  let c := tabsGetCallback t (Some v) (Some m) (Some pv) (inr tab) s in
  ∃ l, tabVolumeSettings (state c) !! t = Some l
       ∧ volume (heap (state c) !!! l) = v
       ∧ muted (heap (state c) !!! l) = m
       ∧ previousVolume (heap (state c) !!! l) = pv
       ∧ sent (effs c)
         = [(t, Cmd.mk (if m then "toggleMute" else "setVolume") v m pv, 0)].
Proof.
  intros Ht c.
  destruct (tabsGetCallback_ok s t (Some v) (Some m) (Some pv) tab Ht)
    as (l & Hl & Hrec & _ & Hsent & _).
  fold c in Hl, Hrec, Hsent. exists l. rewrite Hrec. split; [exact Hl |].
  split_and!.
  - destruct (Tab.url tab) as [u|]; [destruct (truthy_str u) |]; reflexivity.
  - destruct (Tab.url tab) as [u|]; [destruct (truthy_str u) |]; reflexivity.
  - destruct (Tab.url tab) as [u|]; [destruct (truthy_str u) |]; reflexivity.
  - exact Hsent.
Qed.

(** What a level-changing action of a control with a valid tab id
    sends: one message to the tab and one to the coordinator, both
    describing the levels the control shows afterwards. *)
Lemma act_messages s a t :
  Popup.Inv s → Popup.tabId s = JNum t → isValidTabId (JNum t) = true →
  changes_levels a →
  let r := Popup.act true s a in
  Popup.to_coordinator r.2 = [Popup.volume_update r.1]
  ∧ Popup.tabId r.1 = JNum t ∧ Popup.Inv r.1 ∧ Popup.consistent r.1
  ∧ ∃ fields,
      Popup.to_tab r.2 = [(JNum t, JObj fields)]
      ∧ ((assoc "action" fields = JStr "setVolume"
          ∧ assoc "volume" fields = JNum (Popup.volumeVal r.1))
         ∨ (assoc "action" fields = JStr "toggleMute"
            ∧ assoc "muted" fields = JBool (Popup.muted r.1)
            ∧ assoc "previousVolume" fields = JNum (Popup.previousVolume r.1)
            ∧ (Popup.muted r.1 = false →
               Popup.volumeVal r.1 = Popup.previousVolume r.1))).
Proof.
  intros Hi Hid Ht Ha r.
  assert (Htab : Popup.isValidTabId (Popup.tabId s) = true) by (by rewrite Hid).
  destruct a; try (exfalso; exact Ha); subst r; cbn [Popup.act];
    cbn [changes_levels] in Ha.
  - destruct (updateVolume_inv true (parseInt value) s Hi) as [Hi' Hc'].
    revert Hi' Hc'. unfold Popup.onSliderInput, Popup.updateVolume.
    change (Popup.isValidVolume (JNum (parseInt value)))
      with (isValidVolume (JNum (parseInt value))).
    rewrite Ha, Htab. cbn [negb fst snd]. intros Hi' Hc'.
    split_and!; try done.
    + unfold Popup.consistent. simpl. apply num_eq_true.
    + eexists. split; [by rewrite Hid |]. left. by split.
  - unfold Popup.toggleMute. rewrite Htab. cbn [negb fst snd].
    destruct Hi as [Hv Hp].
    assert (H0 : in_range (num 0))
      by (eexists; split; [reflexivity |]; split; by vm_compute).
    destruct (Popup.muted s) eqn:Hm; cbn [negb fst snd].
    + split_and!; try done.
      eexists. split; [by rewrite Hid |]. right. by split_and!.
    + split_and!; try done.
      * split; cbn [Popup.volumeVal Popup.previousVolume]; [done |].
        by destruct (num_lt (num 0) (Popup.volumeVal s)).
      * eexists. split; [by rewrite Hid |]. right. by split_and!.
  - unfold Popup.resetVolume. rewrite Htab. cbn [negb fst snd].
    split_and!; try done.
    + split; exact in_range_100.
    + eexists. split; [by rewrite Hid |]. left. by split.
Qed.

(** What the popup shows is what the page plays.  A level-changing
    action (moving the slider to a valid value, the mute button, the
    reset button) on a control with in-range levels and a valid tab id
    sends one message to the tab and one to the coordinator.  The
    content script that receives the first sets its current volume to
    the volume the control now shows.  The coordinator accepts the
    second, stores exactly the levels the control shows for that tab,
    and sends the tab a command; the content script that receives this
    command sets its current volume to the same value. *)
Theorem popup_to_page runtime_id s a page cs bg tab now :
  Popup.Inv s → Popup.isValidTabId (Popup.tabId s) = true → changes_levels a →
  let r := Popup.act true s a in
  let shown := Popup.volumeVal r.1 in
  ∃ t m1 m2,
    Popup.to_tab r.2 = [(JNum t, m1)] ∧ Popup.to_coordinator r.2 = [m2]
    ∧ Content.currentVolume
        (Content.onMessage runtime_id page m1 (Some runtime_id) cs).2.1 = shown
    ∧ dispatch m2 (popup_sender runtime_id) None now bg
      = mkRes (Some true) bg
          [Call (PTabsGet t (Some shown) (Some (Popup.muted r.1))
                          (Some (Popup.previousVolume r.1)))]
    ∧ let c := tabsGetCallback t (Some shown) (Some (Popup.muted r.1))
                 (Some (Popup.previousVolume r.1)) (inr tab) bg in
      ∃ l cmd,
        tabVolumeSettings (state c) !! t = Some l
        ∧ volume (heap (state c) !!! l) = shown
        ∧ muted (heap (state c) !!! l) = Popup.muted r.1
        ∧ previousVolume (heap (state c) !!! l) = Popup.previousVolume r.1
        ∧ sent (effs c) = [(t, cmd, 0)]
        ∧ Content.currentVolume
            (Content.onMessage runtime_id page (command_message cmd)
               (Some runtime_id) cs).2.1 = shown.
Proof.
  intros Hi Htab Ha r shown. subst shown.
  destruct (valid_tab_number _ Htab) as (t & Hid & Ht).
  destruct (act_messages s a t Hi Hid Ht Ha)
    as (Hco & Hid' & [Hv Hp] & Hcons & fields & Hto & Hshape).
  fold r in Hco, Hid', Hv, Hp, Hcons, Hto, Hshape.
  exists t, (JObj fields), (Popup.volume_update r.1).
  split; [exact Hto |]. split; [exact Hco |]. split.
  { destruct Hshape as [[Hact Hvol] | (Hact & Hm & Hprev & Hun)].
    - by apply content_setVolume.
    - destruct (content_toggleMute runtime_id page fields cs _ _ Hact Hm Hprev Hp)
        as (_ & -> & _).
      destruct (Popup.muted r.1) eqn:Hmuted; [by rewrite Hcons | by rewrite Hun]. }
  split.
  { rewrite dispatch_updateTabVolume by reflexivity. cbv zeta.
    change (prop (Popup.volume_update r.1) "tabId") with (Popup.tabId r.1).
    change (prop (Popup.volume_update r.1) "volume") with (JNum (Popup.volumeVal r.1)).
    change (prop (Popup.volume_update r.1) "muted") with (JBool (Popup.muted r.1)).
    change (prop (Popup.volume_update r.1) "previousVolume")
      with (JNum (Popup.previousVolume r.1)).
    rewrite Hid', Ht.
    change (isValidVolume ?x) with (Content.isValidVolume x).
    rewrite (in_range_valid _ Hv), (in_range_valid _ Hp). reflexivity. }
  intros c.
  destruct (full_update_stored bg t (Popup.volumeVal r.1) (Popup.muted r.1) (Popup.previousVolume r.1)
              tab Ht) as (l & Hl & H1 & H2 & H3 & Hsent).
  fold c in Hl, H1, H2, H3, Hsent.
  eexists l, _. split_and!; try done.
  destruct (command_on_page runtime_id page
              (Cmd.mk (if Popup.muted r.1 then "toggleMute" else "setVolume")
                      (Popup.volumeVal r.1) (Popup.muted r.1)
                      (Popup.previousVolume r.1)) cs)
    as (_ & -> & _); [done | by split |].
  simpl. destruct (Popup.muted r.1) eqn:Hmuted; [by rewrite <- Hcons | done].
Qed.

Lemma popup_to_page_witness :
  let s := mount (page 42 "https://a.example/") quiet_record in
  let r := Popup.act true s (Popup.Slide "55") in
  Popup.volumeVal r.1 = num 55
  ∧ ∃ t m1 m2,
      Popup.to_tab r.2 = [(JNum t, m1)] ∧ Popup.to_coordinator r.2 = [m2]
      ∧ Content.currentVolume
          (Content.onMessage ext_id sample_page m1 (Some ext_id) Content.initial).2.1
        = Popup.volumeVal r.1.
Proof.
  intros s r. split; [vm_compute; reflexivity |].
  destruct (popup_to_page ext_id s (Popup.Slide "55") sample_page Content.initial
              initial (page 42 "https://a.example/") 0)
    as (t & m1 & m2 & Hto & Hco & Hdirect & _).
  - split; (eexists; split; [reflexivity |]; split; by vm_compute).
  - vm_compute. reflexivity.
  - vm_compute. reflexivity.
  - exists t, m1, m2. split; [exact Hto |]. split; [exact Hco | exact Hdirect].
Defined.

(** The popup starts from what the coordinator reports.  Whatever event
    the coordinator handles in a reachable state, each entry of a
    [getAudibleTabs] answer yields a control whose volume and previous
    volume are in [0, 100] and whose tab id is valid, so none of its
    handlers will refuse to act. *)
Theorem popup_mounted_valid runtime_id sys ev sys' es l tab d :
  reachable runtime_id sys → step runtime_id sys ev = Some (sys', es) →
  Tabs l ∈ responses es → (tab, d) ∈ l →
  Popup.Inv (mount tab d)
  ∧ Popup.isValidTabId (Popup.tabId (mount tab d)) = true.
Proof.
  intros Hreach%reachable_sound Hstep Hin Hentry.
  destruct (step_sound _ _ _ _ _ Hreach Hstep) as [_ Hes].
  change (Tabs l ∈ omap (λ e, match e with SendResponse r => Some r | _ => None end) es)
    in Hin.
  apply list_elem_of_omap in Hin as (e & He & Heq).
  destruct e; try discriminate. injection Heq as ->.
  change (SendResponse (Tabs l) ∈ es) in He.
  apply list_elem_of_lookup in He as [i Hi].
  pose proof (Forall_lookup_1 _ _ _ _ Hes Hi) as Hall. simpl in Hall.
  apply list_elem_of_lookup in Hentry as [j Hj].
  destruct (Forall_lookup_1 _ _ _ _ Hall Hj) as [Hid Hrec]. simpl in Hid, Hrec.
  split; [exact Hrec |].
  unfold mount. cbn [Popup.tabId].
  destruct (Tab.id tab) as [t|]; [| discriminate].
  cbn [truthy_opt default from_option id] in *.
  by rewrite (valid_tab_truthy _ Hid).
Qed.

Lemma popup_mounted_valid_witness :
  let sys := after (volume_80 ++ [Message (request "getAudibleTabs" []) popup None 0]) in
  let ev := Callback 1 (GotTabs [page 42 "https://a.example/"]) in
  Popup.Inv (mount (page 42 "https://a.example/") record_80)
  ∧ Popup.isValidTabId (Popup.tabId (mount (page 42 "https://a.example/") record_80))
    = true.
Proof.
  intros sys ev.
  destruct (step ext_id sys ev) as [[sys' es]|] eqn:Hstep;
    [| vm_compute in Hstep; discriminate].
  apply (popup_mounted_valid ext_id sys ev sys' es
           [(page 42 "https://a.example/", record_80)]).
  - apply after_reachable.
  - exact Hstep.
  - vm_compute in Hstep. injection Hstep as _ <-. vm_compute. left.
  - left.
Defined.

(** A control refuses to act on an invalid tab id: each of its four
    commands leaves the state as it was and sends nothing, neither to
    the tab nor to the coordinator.  And without the [chrome] API (the
    development page) no command sends anything. *)
Theorem popup_sends_nothing chrome s a :
  is_command a →
  let r := Popup.act chrome s a in
  (Popup.isValidTabId (Popup.tabId s) = false →
     r.1 = s ∧ Popup.to_tab r.2 = [] ∧ Popup.to_coordinator r.2 = [])
  ∧ (chrome = false → Popup.to_tab r.2 = [] ∧ Popup.to_coordinator r.2 = []).
Proof.
  intros Ha r. subst r. destruct a; try (exfalso; exact Ha); cbn [Popup.act].
  - unfold Popup.onSliderInput, Popup.updateVolume.
    destruct (Popup.isValidVolume (JNum (parseInt value))); cbn [negb]; [| done].
    split; [by intros -> | intros ->].
    by destruct (Popup.isValidTabId (Popup.tabId s)).
  - unfold Popup.toggleMute.
    split; [by intros -> | intros ->].
    by destruct (Popup.isValidTabId (Popup.tabId s)).
  - unfold Popup.resetVolume.
    split; [by intros -> | intros ->].
    by destruct (Popup.isValidTabId (Popup.tabId s)).
  - unfold Popup.playPauseAudio.
    split; [by intros -> | intros ->].
    by destruct (Popup.isValidTabId (Popup.tabId s)).
Qed.

Lemma popup_sends_nothing_witness :
  let s := mount (Tab.mk None None None) quiet_record in
  let r := Popup.act true s Popup.ToggleMute in
  Popup.tabId s = JNum (num 0) ∧ r.1 = s ∧ Popup.to_tab r.2 = [].
Proof.
  intros s r. split; [reflexivity |].
  destruct (popup_sends_nothing true s Popup.ToggleMute I) as [Hbad _].
  destruct (Hbad ltac:(vm_compute; reflexivity)) as (Hs & Ht & _).
  split; [exact Hs | exact Ht].
Defined.

(** The play/pause button shows what the page reports.  When the
    content script receives the popup's [playPauseAudio] message: with
    no media element on the page it answers with a failure and the
    popup keeps what it shows; on a playing first element it pauses it
    and the popup shows "not playing"; on a paused first element it
    calls [play()], and the popup shows "playing" once the promise
    resolves and keeps what it shows if the promise is rejected. *)
Theorem play_button_follows_page runtime_id page cs s :
  let m := JObj [("action"%string, JStr "playPauseAudio")] in
  let r := Content.onMessage runtime_id page m (Some runtime_id) cs in
  let shows reply :=
    Popup.playing (Popup.onPlayPauseResponse false (reply_object reply) s).1 in
  Popup.to_tab (Popup.playPauseAudio true s).2
  = (if Popup.isValidTabId (Popup.tabId s) then [(Popup.tabId s, m)] else [])
  ∧ r.2.1 = cs
  ∧ match Content.media page with
    | [] =>
        ∃ reply, Content.replies r.2.2 = [reply] ∧ Content.promises r.2.2 = []
                 ∧ shows reply = Popup.playing s
    | el :: _ =>
        if Content.paused page (Content.media_id el) then
          Content.replies r.2.2 = []
          ∧ Content.promises r.2.2 = [Content.media_id el]
          ∧ (∀ s', ∃ reply, Content.replies (Content.onPlaySettled None s').2 = [reply]
                            ∧ shows reply = JBool true)
          ∧ (∀ e s', ∃ reply, Content.replies (Content.onPlaySettled (Some e) s').2 = [reply]
                              ∧ shows reply = Popup.playing s)
        else
          r.2.2 = [Content.Pause (Content.media_id el);
                   Content.Respond (Content.Playing false)]
          ∧ shows (Content.Playing false) = JBool false
    end.
Proof.
  intros m r shows. subst r shows. split.
  { unfold Popup.playPauseAudio.
    by destruct (Popup.isValidTabId (Popup.tabId s)). }
  unfold Content.onMessage.
  pose proof (proj2 (authorized_guard _ _) (own_id_authorized runtime_id)) as Ha.
  cbn [sender_id] in Ha. rewrite Ha.
  change (negb (truthy m) || negb (String.eqb (typeof m) "object")
          || negb (truthy (prop m "action"))) with false.
  change (prop m "action") with (JStr "playPauseAudio"). decide_action. cbv iota.
  destruct (Content.media page) as [|el rest].
  - split; [done |]. by eexists.
  - destruct (Content.paused page (Content.media_id el)).
    + split; [done |]. split_and!; try done.
      * intros s'. by eexists.
      * intros e s'. by eexists.
    + by split.
Qed.

(* ================================================================== *)
(** * Reopening the popup *)
(* ================================================================== *)

Lemma quiet_responses es : Forall quiet es → responses es = [].
Proof.
  induction 1 as [|e es [He _] _ IH]; [done |].
  by destruct e.
Qed.

(** The condition of the filter in the [getAudibleTabs] branch. *)
Lemma tabsQueryCallback_run tabs s :
  let relevantTabs :=
    List.filter (λ tab,
      truthy_opt truthy_num (Tab.id tab)
      && isValidTabId (JNum (default NaN (Tab.id tab)))
      && (bool_decide (default NaN (Tab.id tab) ∈ audibleTabs s)
          || match tabVolumeSettings s !! default NaN (Tab.id tab) with
             | Some data => hasAudio (heap s !!! data)
             | None => false
             end
          || (truthy_opt truthy_str (Tab.url tab)
              && bool_decide (is_Some (urlVolumeSettings s
                                         !! default ""%string (Tab.url tab))))))
      tabs in
  let r := mapM (λ tab,
      do volumeData <- getVolumeDataForTab (default NaN (Tab.id tab)) (Tab.url tab);
      ret (tab, volumeData)) relevantTabs s in
  tabsQueryCallback tabs s
  = mkRes tt (state r)
      (effs r ++ [SendResponse
                    (Tabs (map (λ tv : Tab.t * loc, (tv.1, heap (state r) !!! tv.2))
                               (val r)))]).
Proof. reflexivity. Qed.

(** The lookups of a [getAudibleTabs] answer find, for a tab that has a
    record, that record, with the levels it had before the lookups. *)
Lemma query_lookups (rel : list Tab.t) s t l d :
  Inv s → isValidTabId (JNum t) = true →
  tabVolumeSettings s !! t = Some l → heap s !! l = Some d →
  let r := mapM (λ tab,
      do volumeData <- getVolumeDataForTab (default NaN (Tab.id tab)) (Tab.url tab);
      ret (tab, volumeData)) rel s in
  Forall2 (λ tab (tv : Tab.t * loc),
             tv.1 = tab ∧ (default NaN (Tab.id tab) = t → tv.2 = l)) rel (val r)
  ∧ (∃ d', heap (state r) !! l = Some d' ∧ same_levels d d')
  ∧ responses (effs r) = [].
Proof.
  intros Hinv Ht Hl Hd r.
  assert (Hfoot : wp any_effect
            (mapM (λ tab,
               do volumeData <- getVolumeDataForTab (default NaN (Tab.id tab))
                                  (Tab.url tab);
               ret (tab, volumeData)) rel)
            (λ tvs s', extends (λ _, False) (audibleTabs s) s s'
                       ∧ Forall2 (λ tab (tv : Tab.t * loc),
                           tv.1 = tab ∧ (default NaN (Tab.id tab) = t → tv.2 = l))
                           rel tvs) s).
  { apply wp_mapM_val; [| apply extends_refl].
    intros tab s' He. apply wp_bind.
    eapply wp_conseq;
      [apply (getVolumeDataForTab_ext (λ _, False) (audibleTabs s) s); exact He
      | done |].
    cbv beta. intros a s'' [He' Hval]. apply wp_ret.
    split; [exact He' |]. split; [done |]. cbn [snd]. intros Hid.
    rewrite Hid in Hval. destruct (Hval Ht) as [Hnone | Hsome].
    - destruct He' as (Hkeep & _). rewrite (Hkeep t l) in Hnone; [done | tauto | done].
    - destruct He' as (Hkeep & _). rewrite (Hkeep t l) in Hsome; [| tauto | done].
      by injection Hsome. }
  assert (Hquiet : wp quiet
            (mapM (λ tab,
               do volumeData <- getVolumeDataForTab (default NaN (Tab.id tab))
                                  (Tab.url tab);
               ret (tab, volumeData)) rel)
            (λ tvs s', Inv s' ∧ Forall2 (λ _ _, True) rel tvs) s).
  { apply wp_mapM_val; [| exact Hinv].
    intros tab s' Hs'. apply wp_bind.
    eapply wp_conseq; [apply getVolumeDataForTab_inv; exact Hs' | done |].
    cbv beta. intros a s'' Hs''. by apply wp_ret. }
  destruct Hfoot as [[He HR] _]. destruct Hquiet as [_ Heffs].
  fold r in He, HR, Heffs.
  split; [exact HR |]. split; [| by apply quiet_responses].
  destruct He as (_ & _ & _ & Hheap & _). by apply Hheap.
Qed.

(** The popup shows what was stored.  After an accepted
    [updateTabVolume] for a tab, the answer to the next [getAudibleTabs]
    request, whatever other tabs the browser lists, has an entry for
    that tab, and the control mounted from this entry shows the tab id
    and the three levels of the update. *)
Theorem reopened_popup_shows_stored bg t v m pv tab tabs tab' :
  Inv bg → in_range v → in_range pv →
  isValidTabId (JNum t) = true → tab' ∈ tabs → Tab.id tab' = Some t →
  let c := tabsGetCallback t (Some v) (Some m) (Some pv) (inr tab) bg in
  let q := tabsQueryCallback tabs (state c) in
  ∃ entries d, responses (effs q) = [Tabs entries]
       ∧ (tab', d) ∈ entries
       ∧ Popup.tabId (mount tab' d) = JNum t
       ∧ Popup.volumeVal (mount tab' d) = v
       ∧ Popup.muted (mount tab' d) = m
       ∧ Popup.previousVolume (mount tab' d) = pv.
Proof.
  intros Hbg Hv Hpv Ht Hin Hid c q.
  destruct (tabsGetCallback_ok bg t (Some v) (Some m) (Some pv) tab Ht)
    as (l & Hl & Hrec & _).
  fold c in Hl, Hrec.
  assert (Hinv : Inv (state c)).
  { by destruct (tabsGetCallback_inv t (Some v) (Some m) (Some pv) (inr tab) bg
                   Hv Hpv Hbg) as [? _]. }
  assert (Hsome : is_Some (heap (state c) !! l)).
  { destruct Hinv as (_ & _ & _ & Htabs & _). by eapply Htabs. }
  destruct Hsome as [d0 Hd0].
  assert (Hd0' : heap (state c) !!! l = d0) by by rewrite lookup_total_alt, Hd0.
  rewrite Hd0' in Hrec.
  assert (Hd0s : hasAudio d0 = true ∧ volume d0 = v ∧ muted d0 = m
                 ∧ previousVolume d0 = pv).
  { rewrite Hrec. by destruct (Tab.url tab) as [u|]; [destruct (truthy_str u) |]. }
  destruct Hd0s as (Haudio & Hvol & Hmut & Hprev).
  clearbody c. subst q. rewrite tabsQueryCallback_run. cbv zeta.
  set (rel := List.filter _ tabs).
  assert (Hrel : tab' ∈ rel).
  { subst rel. apply list_elem_of_In, filter_In. split; [by apply list_elem_of_In |].
    rewrite Hid. cbn [truthy_opt default from_option id].
    rewrite (valid_tab_truthy _ Ht), Ht, Hl, Hd0', Haudio.
    by rewrite orb_true_r. }
  destruct (query_lookups rel (state c) t l d0 Hinv Ht Hl Hd0)
    as (HR & (d' & Hd' & Hsame) & Hresp).
  set (r := mapM _ rel (state c)) in *. clearbody r.
  cbn [effs]. unfold responses in *. rewrite omap_app, Hresp. cbn [omap app].
  eexists _, d'. split; [reflexivity |].
  assert (Hentry : (tab', d') ∈ map (λ tv : Tab.t * loc, (tv.1, heap (state r) !!! tv.2))
                                   (val r)).
  { apply list_elem_of_lookup in Hrel as [i Hi].
    destruct (Forall2_lookup_l _ _ _ _ _ HR Hi) as (tv & Htv & Hfst & Hsnd).
    apply list_elem_of_lookup. exists i.
    rewrite list_lookup_fmap, Htv. cbn [fmap option_fmap option_map].
    rewrite Hfst, Hsnd by by rewrite Hid.
    by rewrite lookup_total_alt, Hd'. }
  split; [exact Hentry |].
  destruct Hsame as (Hv' & Hpv' & Hm').
  unfold mount. cbn [Popup.tabId Popup.volumeVal Popup.muted Popup.previousVolume].
  rewrite Hid. cbn [truthy_opt default from_option id].
  rewrite (valid_tab_truthy _ Ht). by rewrite Hv', Hpv', Hm', Hvol, Hmut, Hprev.
Qed.

Lemma reopened_popup_shows_stored_witness :
  let tab := page 42 "https://a.example/" in
  let other := page 7 "https://b.example/" in
  let c := tabsGetCallback (num 42) (Some (num 55)) (Some false) (Some (num 55))
             (inr tab) initial in
  let q := tabsQueryCallback [other; tab] (state c) in
  ∃ entries d, responses (effs q) = [Tabs entries]
       ∧ (tab, d) ∈ entries
       ∧ Popup.volumeVal (mount tab d) = num 55.
Proof.
  intros tab other c q.
  destruct (reopened_popup_shows_stored initial (num 42) (num 55) false (num 55)
              tab [other; tab] tab) as (entries & d & Hr & He & _ & Hv & _).
  - exact (proj1 (reachable_inv "ext" boot (reach_boot "ext"))).
  - eexists; split; [reflexivity |]; split; by vm_compute.
  - eexists; split; [reflexivity |]; split; by vm_compute.
  - vm_compute; reflexivity.
  - apply list_elem_of_In. right. by left.
  - reflexivity.
  - exists entries, d. split; [exact Hr | split; [exact He | exact Hv]].
Defined.

(* ================================================================== *)
(** * Elements that cannot be connected *)
(* ================================================================== *)

Lemma forEach_unconnectable l : ∀ s,
  Forall unconnectable l →
  (Content.forEach l Content.connectElement s).1 = s
  ∧ Content.notices (Content.forEach l Content.connectElement s).2 = [].
Proof.
  induction l as [|el l IH]; intros s Hl; [done |].
  apply Forall_cons_1 in Hl as [Hel Hl].
  cbn [Content.forEach].
  assert (Hone : Content.connectElement el s
                 = (s, [Content.Log LogWarn "Element not in DOM:"])
                 ∨ Content.connectElement el s
                   = (s, [Content.Log LogError "Error connecting audio element:"])).
  { unfold Content.connectElement, Content.log.
    destruct Hel as [Hel | Hel]; rewrite Hel; [by left |].
    destruct (Content.media_attached el); [by right | by left]. }
  destruct (IH s Hl) as [IHs IHn].
  destruct Hone as [-> | ->];
    rewrite andThen_state, andThen_effects, notices_app; cbn [fst snd];
    by rewrite IHs, IHn.
Qed.

Lemma scan_of_unconnectable page s :
  Content.audioContext s = true → is_Some (Content.gainNode s) →
  Content.runtime_available page = true →
  (∃ el, pending_media page s el) →
  (∀ el, pending_media page s el → unconnectable el) →
  (Content.findAndConnectAudio page s).1 = s
  ∧ Content.notices (Content.findAndConnectAudio page s).2
    = [request "updateTabStatus" [("hasAudio"%string, JBool true)]].
Proof.
  intros Hctx Hgain Hrt (el & Hin & Hnew & Hsrc) Hall.
  unfold Content.findAndConnectAudio.
  rewrite Hctx, (bool_decide_eq_true_2 _ Hgain). cbn [negb orb].
  set (new := List.filter _ _).
  assert (Hmem : ∀ x, x ∈ new ↔ pending_media page s x).
  { intros x. subst new. rewrite list_elem_of_In, filter_In, <- list_elem_of_In.
    unfold pending_media, Content.includes.
    rewrite andb_true_iff, !negb_true_iff, bool_decide_eq_false, String.eqb_neq.
    tauto. }
  assert (Hnew' : Forall unconnectable new).
  { apply Forall_forall. intros x Hx. apply Hall, Hmem. by apply list_elem_of_In. }
  assert (Hlen : (0 <? length new)%nat = true).
  { apply Nat.ltb_lt. assert (el ∈ new) as Hel by by apply Hmem.
    destruct new; [by apply elem_of_nil in Hel | cbn; lia]. }
  destruct (forEach_unconnectable new s Hnew') as [Hs Hn].
  rewrite andThen_state, andThen_effects, notices_app, Hlen, Hs, Hn.
  unfold Content.safelyNotifyBackgroundScript. by rewrite Hrt.
Qed.

(** An element the script cannot connect is reported on every scan.
    Once the audio graph exists, a page element that has a source and
    is not tracked makes a scan send one [updateTabStatus] notice; when
    every such element is detached or refuses the connection, the scan
    tracks nothing, so the state is unchanged and each of the next [n]
    interval ticks sends the notice again. *)
Theorem unconnectable_media_reported_every_scan rid page s n :
  Content.audioContext s = true → is_Some (Content.gainNode s) →
  Content.runtime_available page = true →
  (∃ el, pending_media page s el) →
  (∀ el, pending_media page s el → unconnectable el) →
  (Content.run rid (replicate n (page, Content.Tick)) s).1 = s
  ∧ Content.notices (Content.run rid (replicate n (page, Content.Tick)) s).2
    = replicate n (request "updateTabStatus" [("hasAudio"%string, JBool true)]).
Proof.
  intros Hctx Hgain Hrt Hex Hall.
  destruct (scan_of_unconnectable page s Hctx Hgain Hrt Hex Hall) as [Hs Hn].
  induction n as [|n [IHs IHn]]; [done |].
  cbn [replicate Content.run Content.step].
  rewrite andThen_state, andThen_effects, notices_app, Hs, Hn, IHs, IHn.
  done.
Qed.

Lemma unconnectable_media_reported_every_scan_witness :
  let s := (Content.initialize page_with_detached_video Content.initial).1 in
  (Content.run "ext" (replicate 3 (page_with_detached_video, Content.Tick)) s).1 = s
  ∧ length (Content.notices
      (Content.run "ext" (replicate 3 (page_with_detached_video, Content.Tick)) s).2)
    = 3%nat.
Proof.
  intros s.
  destruct (unconnectable_media_reported_every_scan "ext"
              page_with_detached_video s 3) as [Hs Hn].
  - reflexivity.
  - by eexists.
  - reflexivity.
  - exists (Content.mkMedia 7 "https://a.example/v.mp4" false true).
    split; [vm_compute; by left | split; [vm_compute; by inversion 1 | done]].
  - intros el (Hin & _). apply list_elem_of_In in Hin.
    destruct Hin as [<- | []]. by left.
  - split; [exact Hs | by rewrite Hn].
Defined.
